(** * OAPE workflow orchestrator: job store, session runner, phase pipeline, CI watcher

    A shallow embedding of the orchestration core of the repository
    (src/server/server.py, src/server/agent.py and
    src/agent-wo-server/agent/{main,phase1,phase2,phase3,utils,state,config}.py)
    together with the properties stated about it.

    Conventions.
    - A Python [str] is a [string]: one [ascii] per code point, for text whose
      code points are below 256.  On that range the classes of Python's [re]
      in str mode are exactly [is_digit] and [is_space] below.
    - A Python [dict] that is only used as a finite map is a [gmap]; a [dict]
      whose iteration order is observed (the PR table of the watcher) is an
      insertion-ordered association list, see [PyDict].
    - [float] values that are only stored and copied (costs) are rationals;
      the wall clock of the watcher is read in whole seconds.
    - An exception is an instance of Python's class [Exception], the class the
      handlers of this code name; it carries its [str()]. *)

From Stdlib Require Import ZArith QArith Ascii String List Lia Bool.
From stdpp Require Import base option list strings pretty gmap fin_maps.
From Equations Require Import Equations.

Local Open Scope string_scope.
Local Open Scope list_scope.

(* ===================================================================== *)
(** ** Python values shared by all modules *)
(* ===================================================================== *)

Module Py.

(** An instance of [Exception]: its class name and [str(exc)]. *)
Record exn := Exn { exn_class : string; exn_str : string }.

(** The result of running a piece of code that may raise. *)
Inductive outcome (A : Type) :=
| Returned (a : A)
| Raised (e : exn).
Arguments Returned {A} a.
Arguments Raised {A} e.

Definition chars (s : string) : list ascii := list_ascii_of_string s.
Definition text (l : list ascii) : string := string_of_list_ascii l.

Definition code (c : ascii) : N := N_of_ascii c.

(** [\d] of [re] in str mode, below 256: the ten ASCII digits. *)
Definition is_digit (c : ascii) : bool :=
  ((48 <=? code c) && (code c <=? 57))%N.

(** [\s] of [re] in str mode and [str.isspace], below 256. *)
Definition is_space (c : ascii) : bool :=
  (((9 <=? code c) && (code c <=? 13))
   || ((28 <=? code c) && (code c <=? 32))
   || (code c =? 133) || (code c =? 160))%N.

Definition ascii_eqb (a b : ascii) : bool := Ascii.eqb a b.

(** [s.rstrip(chars)] on a list of characters, right to left. *)
Fixpoint rstrip_where (p : ascii -> bool) (l : list ascii) : list ascii :=
  match l with
  | [] => []
  | c :: l' =>
      match rstrip_where p l' with
      | [] => if p c then [] else [c]
      | r => c :: r
      end
  end.

Fixpoint lstrip_where (p : ascii -> bool) (l : list ascii) : list ascii :=
  match l with
  | [] => []
  | c :: l' => if p c then lstrip_where p l' else l
  end.

(** [s.rstrip("/")] *)
Definition rstrip_slash (s : string) : string :=
  text (rstrip_where (fun c => ascii_eqb c "/") (chars s)).

(** [s.strip()] *)
Definition strip (s : string) : string :=
  text (rstrip_where is_space (lstrip_where is_space (chars s))).

(** [sep.join(parts)] *)
Fixpoint join (sep : string) (parts : list string) : string :=
  match parts with
  | [] => ""
  | [p] => p
  | p :: ps => p +:+ sep +:+ join sep ps
  end.

(** The line feed, ["\n"]. *)
Definition nl : string := String "010" EmptyString.

(** [s[:n]] *)
Definition prefix (n : nat) (s : string) : string := text (take n (chars s)).

(** Truthiness of a [str | None]. *)
Definition truthy (o : option string) : bool :=
  match o with
  | Some s => negb (String.eqb s "")
  | None => false
  end.

End Py.

(* ===================================================================== *)
(** ** The fragment of [re] used by the code *)
(* ===================================================================== *)

Module Re.
Import Py.

(** Patterns: anchors, literal text, one character of a class, a greedy
    [+] over a class, a greedy optional character, a numbered group and
    concatenation. *)
Inductive regex :=
| Bos                               (* ^ *)
| Eos                               (* $ *)
| Lit (s : string)                  (* literal text *)
| Plus (p : ascii -> bool)          (* [class]+ , greedy *)
| Opt (c : ascii)                   (* c? , greedy *)
| Grp (r : regex)                   (* ( r ) *)
| Seq (r1 r2 : regex).

Declare Scope regex_scope.
Infix ">>" := Seq (at level 61, left associativity) : regex_scope.
Delimit Scope regex_scope with re.
Bind Scope regex_scope with regex.

(** A position of the matcher: characters consumed so far and the rest. *)
Record cursor := Cur { pos : nat; rest : list ascii; groups : list string }.

Fixpoint strip_prefix (p s : list ascii) : option (list ascii) :=
  match p, s with
  | [], _ => Some s
  | a :: p', b :: s' => if ascii_eqb a b then strip_prefix p' s' else None
  | _ :: _, [] => None
  end.

Section Backtrack.
Context {A : Type}.

(** [class+]: one character of the class, then the longest run first,
    giving characters back one at a time while the continuation fails. *)
Fixpoint plus_greedy (p : ascii -> bool) (n : nat) (s : list ascii)
         (k : nat -> list ascii -> option A) : option A :=
  match s with
  | c :: s' =>
      if p c then
        match plus_greedy p (S n) s' k with
        | Some a => Some a
        | None => k (S n) s'
        end
      else None
  | [] => None
  end.

Fixpoint exec (r : regex) (c : cursor) (k : cursor -> option A) : option A :=
  match r with
  | Bos => if Nat.eqb (pos c) 0 then k c else None
  | Eos =>
      match rest c with
      | [] => k c
      | [nl] => if ascii_eqb nl "010" then k c else None
      | _ => None
      end
  | Lit s =>
      match strip_prefix (chars s) (rest c) with
      | Some s' => k (Cur (pos c + String.length s) s' (groups c))
      | None => None
      end
  | Plus p =>
      plus_greedy p (pos c) (rest c) (fun n s' => k (Cur n s' (groups c)))
  | Opt ch =>
      match rest c with
      | x :: s' =>
          if ascii_eqb x ch then
            match k (Cur (S (pos c)) s' (groups c)) with
            | Some a => Some a
            | None => k c
            end
          else k c
      | [] => k c
      end
  | Grp r1 =>
      exec r1 c (fun c' =>
        k (Cur (pos c') (rest c')
               (groups c' ++ [text (take (pos c' - pos c) (rest c))])))
  | Seq r1 r2 => exec r1 c (fun c' => exec r2 c' k)
  end.
End Backtrack.

(** A match object: [group(0)] and the numbered groups. *)
Record match_obj := Match { group0 : string; group_list : list string }.

Definition match_at (r : regex) (n : nat) (s : list ascii) : option match_obj :=
  exec r (Cur n s [])
       (fun c => Some (Match (text (take (pos c - n) s)) (groups c))).

(** [re.match(r, s)] *)
Definition re_match (r : regex) (s : string) : option match_obj :=
  match_at r 0 (chars s).

(** [re.search(r, s)]: the leftmost start position that matches. *)
Fixpoint search_from (r : regex) (n : nat) (s : list ascii) : option match_obj :=
  match match_at r n s with
  | Some m => Some m
  | None =>
      match s with
      | [] => None
      | _ :: s' => search_from r (S n) s'
      end
  end.

Definition re_search (r : regex) (s : string) : option match_obj :=
  search_from r 0 (chars s).

End Re.

(* ===================================================================== *)
(** ** src/server/agent.py: the session runner *)
(* ===================================================================== *)

Module Agent.
Import Py.

(** *** The messages of the agent SDK, as far as [run_agent] inspects them *)

(** [ToolResultBlock.content]: a [str], or another value given by the text
    [json.dumps(content, default=str)] produces for it. *)
Inductive tool_content :=
| ContentStr (s : string)
| ContentJson (dumped : string).

Inductive block :=
| TextBlock (text : string)
| ThinkingBlock (thinking : string)
| ToolUseBlock (name : string) (input : string)
| ToolResultBlock (tool_use_id : string) (content : tool_content)
                  (is_error : option bool)
| OtherBlock (type_name : string) (detail : string).

Inductive message :=
| AssistantMessage (content : list block)
| ResultMessage (total_cost_usd : option Q) (result : option string)
| OtherMessage (type_name : string) (detail : string).

(** What [query(prompt, options)] does when iterated: it yields [items] in
    order and then either is exhausted ([ending = None]) or raises. *)
Record stream := Stream { items : list message; ending : option exn }.

Record ClaudeAgentOptions := Options {
  system_prompt : string;
  cwd : string;
  permission_mode : string;
  allowed_tools : list string;
  plugins : list string
}.

(** *** Conversation entries: the dicts built by [run_agent] *)

Inductive entry :=
| EAssistantText (content : string)
| EAssistantThinking (content : string)
| EAssistantToolUse (tool_name : string) (tool_input : string)
| EAssistantToolResult (tool_use_id : string) (content : string)
                       (is_error : bool)
| EAssistantOther (block_type : string) (content : string)
| EResult (content : option string) (cost_usd : option Q)
| EOther (type_name : string) (content : string).

(** *** [AgentResult] *)

Record AgentResult := mkAgentResult {
  output : string;
  cost_usd : option Q;
  error : option string;
  conversation : list entry
}.

(** [AgentResult.success] *)
Definition success (r : AgentResult) : bool :=
  match error r with None => true | Some _ => false end.

(** *** Code that reads and writes a state and may raise *)

Definition M (St A : Type) : Type := St -> outcome A * St.

Definition ret {St A} (a : A) : M St A := fun s => (Returned a, s).
Definition raise {St A} (e : exn) : M St A := fun s => (Raised e, s).
Definition bind {St A B} (m : M St A) (f : A -> M St B) : M St B :=
  fun s => match m s with
           | (Returned a, s') => f a s'
           | (Raised e, s') => (Raised e, s')
           end.
(** [try: m  except Exception as exc: h exc] *)
Definition try_except {St A} (m : M St A) (h : exn -> M St A) : M St A :=
  fun s => match m s with
           | (Returned a, s') => (Returned a, s')
           | (Raised e, s') => h e s'
           end.

#[global] Instance M_ret {St} : MRet (M St) := fun A => @ret St A.
#[global] Instance M_bind {St} : MBind (M St) :=
  fun A B f m => @bind St A B m f.

(** [for x in l: body x] *)
Fixpoint for_each {St A} (l : list A) (body : A -> M St unit) : M St unit :=
  match l with
  | [] => ret tt
  | x :: l' => bind (body x) (fun _ => for_each l' body)
  end.

(** *** [run_agent] *)

(** The local variables of [run_agent] that the loop updates. *)
Record locals := Locals {
  output_parts : list string;
  l_conversation : list entry;
  l_cost_usd : option Q
}.

Section RunAgent.
(** [St] is whatever the callback reads and writes. *)
Context {St : Type}.

(** The collaborator, the allow-list of config.json and the plugin path. *)
Variable query : string -> ClaudeAgentOptions -> stream.
Variable claude_allowed_tools : list string.
Variable PLUGIN_DIR : string.

Definition callback := entry -> M St unit.

Definition modify (f : locals -> locals) : M (locals * St) unit :=
  fun '(l, s) => (Returned tt, (f l, s)).

Definition lift {A} (m : M St A) : M (locals * St) A :=
  fun '(l, s) => let '(r, s') := m s in (r, (l, s')).

(** [_emit(entry)] *)
Definition _emit (on_message : option callback) (e : entry)
  : M (locals * St) unit :=
  (modify (fun l => Locals (output_parts l) (l_conversation l ++ [e])
                           (l_cost_usd l)) ;;
   match on_message with
   | Some cb => lift (cb e)
   | None => ret tt
   end).

Definition append_output (t : string) : M (locals * St) unit :=
  modify (fun l => Locals (output_parts l ++ [t]) (l_conversation l)
                          (l_cost_usd l)).

Definition set_cost (c : option Q) : M (locals * St) unit :=
  modify (fun l => Locals (output_parts l) (l_conversation l) c).

(** The body of [for block in message.content]. *)
Definition on_block (on_message : option callback) (b : block)
  : M (locals * St) unit :=
  match b with
  | TextBlock t =>
      (append_output t ;; _emit on_message (EAssistantText t))
  | ThinkingBlock t => _emit on_message (EAssistantThinking t)
  | ToolUseBlock name input =>
      _emit on_message (EAssistantToolUse name input)
  | ToolResultBlock id content is_error =>
      let content' := match content with
                      | ContentStr s => s
                      | ContentJson d => d
                      end in
      _emit on_message
            (EAssistantToolResult id content'
               (match is_error with Some b => b | None => false end))
  | OtherBlock ty detail => _emit on_message (EAssistantOther ty detail)
  end.

(** [f"{cost_usd:.4f}"] raises on [None]. *)
Definition format_cost (c : option Q) : M (locals * St) unit :=
  match c with
  | Some _ => ret tt
  | None =>
      raise (Exn "TypeError"
                 "unsupported format string passed to NoneType.__format__")
  end.

(** The body of [async for message in query(...)]. *)
Definition on_stream_message (on_message : option callback) (m : message)
  : M (locals * St) unit :=
  match m with
  | AssistantMessage content => for_each content (on_block on_message)
  | ResultMessage total_cost_usd result =>
      (set_cost total_cost_usd ;;
       (if truthy result
        then append_output (default "" result)
        else ret tt) ;;
       _emit on_message (EResult result total_cost_usd) ;;
       format_cost total_cost_usd)
  | OtherMessage ty detail => _emit on_message (EOther ty detail)
  end.

(** The whole [async for]: the items, then the end of the stream. *)
Definition consume (on_message : option callback) (q : stream)
  : M (locals * St) unit :=
  (for_each (items q) (on_stream_message on_message) ;;
   match ending q with
   | None => ret tt
   | Some e => raise e
   end).

Definition get_locals : M (locals * St) locals :=
  fun '(l, s) => (Returned l, (l, s)).

(** The [try] block and its handler. *)
Definition run_agent_body (prompt : string) (options : ClaudeAgentOptions)
           (on_message : option callback) : M (locals * St) AgentResult :=
  try_except
    (consume on_message (query prompt options) ;;
     l ← get_locals;
     ret (mkAgentResult (join nl (output_parts l)) (l_cost_usd l) None (l_conversation l)))
    (fun exc =>
       l ← get_locals;
       ret (mkAgentResult "" (l_cost_usd l) (Some (exn_str exc))
                          (l_conversation l))).

Definition run_agent (prompt working_dir system_prompt : string)
           (on_message : option callback) : M St AgentResult :=
  fun s =>
    let options := Options system_prompt working_dir "bypassPermissions"
                           claude_allowed_tools [PLUGIN_DIR] in
    let '(r, (_, s')) :=
      run_agent_body prompt options on_message
                     (Locals [] [] (Some 0%Q), s) in
    (r, s').

(** [run_workflow].  [uuid12] is the [uuid.uuid4().hex[:12]] of the call,
    [WORKFLOW_SYSTEM_PROMPT csv] the prompt text formatted with the path
    of the repository table. *)
Variable uuid12 : string.
Variable WORKFLOW_SYSTEM_PROMPT : string -> string.
Variable TEAM_REPOS_CSV : string.

Definition run_workflow (ep_url : string) (on_message : option callback)
  : M St AgentResult :=
  let job_id := uuid12 in
  let working_dir := "/tmp/oape-" +:+ job_id in
  let system_prompt := WORKFLOW_SYSTEM_PROMPT TEAM_REPOS_CSV in
  run_agent
    ("Execute the full OAPE feature development workflow for this " +:+
     "Enhancement Proposal: " +:+ ep_url)
    working_dir system_prompt on_message.

End RunAgent.

End Agent.

(* ===================================================================== *)
(** ** src/server/server.py: job store, submission, status and stream *)
(* ===================================================================== *)

Module Server.
Import Py Re.

(** [EP_URL_PATTERN]:
    [^https://github\.com/openshift/enhancements/pull/\d+/?$] *)
Definition EP_URL_PATTERN : regex :=
  (Bos >> Lit "https://github.com/openshift/enhancements/pull/"
       >> Plus is_digit >> Opt "/" >> Eos)%re.

(** The three values the ["status"] field takes. *)
Inductive job_state := running | success | failed.

#[global] Instance job_state_eq_dec : EqDecision job_state.
Proof. solve_decision. Defined.

(** One entry of [jobs].  The ["message_event"] condition only wakes
    readers up and holds no data; it is left out. *)
Record job := Job {
  status : job_state;
  ep_url : string;
  conversation : list Agent.entry;
  output : string;
  cost_usd : option Q;
  error : option string
}.

Definition set_status (v : job_state) (j : job) : job :=
  Job v (ep_url j) (conversation j) (output j) (cost_usd j) (error j).
Definition set_output (v : string) (j : job) : job :=
  Job (status j) (ep_url j) (conversation j) v (cost_usd j) (error j).
Definition set_cost_usd (v : option Q) (j : job) : job :=
  Job (status j) (ep_url j) (conversation j) (output j) v (error j).
Definition set_error (v : option string) (j : job) : job :=
  Job (status j) (ep_url j) (conversation j) (output j) (cost_usd j) v.
Definition append_message (m : Agent.entry) (j : job) : job :=
  Job (status j) (ep_url j) (conversation j ++ [m]) (output j)
      (cost_usd j) (error j).

(** What an endpoint answers: a body, or an [HTTPException]. *)
Inductive http (A : Type) :=
| Respond (body : A)
| HTTPException (status_code : nat) (detail : string).
Arguments Respond {A} body.
Arguments HTTPException {A} status_code detail.

(** [_validate_ep_url] *)
Definition _validate_ep_url (url : string) : http unit :=
  match re_match EP_URL_PATTERN (rstrip_slash url) with
  | Some _ => Respond tt
  | None =>
      HTTPException 400
        ("Invalid enhancement PR URL. " +:+
         "Expected format: https://github.com/openshift/enhancements/pull/<number>")
  end.

(** A task handed to [asyncio.create_task]: [_run_job(job_id, ep_url)]. *)
Record task := RunJob { task_job_id : string; task_ep_url : string }.

(** The process state the endpoints act on: the [jobs] dict and the tasks
    scheduled so far. *)
Record server := Srv { jobs : gmap string job; tasks : list task }.

(** [submit_job]; [uuid12] is [uuid.uuid4().hex[:12]]. *)
Definition submit_job (uuid12 : string) (url : string) (s : server)
  : http string * server :=
  match _validate_ep_url url with
  | HTTPException c d => (HTTPException c d, s)
  | Respond _ =>
      let job_id := uuid12 in
      let j := Job running url [] "" (Some 0%Q) None in
      (Respond job_id,
       Srv (<[job_id := j]> (jobs s)) (tasks s ++ [RunJob job_id url]))
  end.



(** *** The event stream *)

Inductive frame :=
| message_frame (data : Agent.entry)
| complete_frame (st : job_state) (out : string) (cost : option Q)
                 (err : option string)
| keepalive_frame.

(** The inner loop of [event_generator]:
    [while cursor < len(conversation): yield ...; cursor += 1]
    run against a log that does not change meanwhile.  It gives the frames
    yielded and the cursor it stops at. *)
Equations send_new (conversation : list Agent.entry) (cursor : nat)
  : list frame * nat by wf (length conversation - cursor) lt :=
  send_new conversation cursor
    with decide (cursor < length conversation) := {
    | left _ =>
        let r := send_new conversation (S cursor) in
        match conversation !! cursor with
        | Some m => (message_frame m :: r.1, r.2)
        | None => ([], cursor)      (* IndexError: excluded by the guard *)
        end
    | right _ => ([], cursor) }.
Next Obligation. lia. Qed.

(** How the wait on the condition ends: a notification, or the 30 s
    timeout. *)
Inductive wake := notified | timed_out.


(** [stream_job]: 404 for an unknown job, else the generator, started at
    cursor 0. *)
Definition stream_job (job_id : string) (js : gmap string job) : http nat :=
  match js !! job_id with
  | None => HTTPException 404 "Job not found"
  | Some _ => Respond 0
  end.

(** *** The background task *)

Definition KeyError (k : string) : exn := Exn "KeyError" k.

(** [jobs[job_id][field] = v] and friends: [KeyError] on a missing id. *)
Definition update_job (job_id : string) (f : job -> job)
  : Agent.M (gmap string job) unit :=
  fun js => match js !! job_id with
            | Some j => (Returned tt, <[job_id := f j]> js)
            | None => (Raised (KeyError job_id), js)
            end.

(** [_run_job.on_message]; the wake-up task it schedules carries no data. *)
Definition on_message (job_id : string) (msg : Agent.entry)
  : Agent.M (gmap string job) unit :=
  update_job job_id (append_message msg).

Section RunJob.
Variable query : string -> Agent.ClaudeAgentOptions -> Agent.stream.
Variable claude_allowed_tools : list string.
Variable PLUGIN_DIR : string.
Variable uuid12 : string.
Variable WORKFLOW_SYSTEM_PROMPT : string -> string.
Variable TEAM_REPOS_CSV : string.

(** [_run_job] *)
Definition _run_job (job_id : string) (url : string)
  : Agent.M (gmap string job) unit :=
  update_job job_id (fun j => j) ;;
  result ← Agent.run_workflow query claude_allowed_tools PLUGIN_DIR uuid12
             WORKFLOW_SYSTEM_PROMPT TEAM_REPOS_CSV url
             (Some (on_message job_id));
  if Agent.success result then
    update_job job_id (set_status success) ;;
    update_job job_id (set_output (Agent.output result)) ;;
    update_job job_id (set_cost_usd (Agent.cost_usd result))
  else
    update_job job_id (set_status failed) ;;
    update_job job_id (set_error (Agent.error result)).
End RunJob.

(** [event_generator] over its whole life.  The generator is suspended at
    each [yield] and in the wait on the condition; between two suspensions
    it runs on the store as it is then.  [views] gives, for each time it
    resumes, the store it finds and the way the wait ends if it comes to
    wait.  The list bound to [conversation] is the one the producer appends
    to, so what the inner loop reads is the job's log in the store of the
    moment.  The result is the frames yielded and the cursor at which the
    generator is suspended when the views are used up, [None] once it has
    returned (or has raised [KeyError] for want of the job). *)
Fixpoint event_generator (job_id : string)
         (views : list (gmap string job * wake)) (cursor : nat)
  : list frame * option nat :=
  match views with
  | [] => ([], Some cursor)
  | (js, w) :: views' =>
      match js !! job_id with
      | None => ([], None)
      | Some j =>
          match conversation j !! cursor with
          | Some m =>
              let r := event_generator job_id views' (S cursor) in
              (message_frame m :: r.1, r.2)
          | None =>
              if decide (status j = running) then
                let r := event_generator job_id views' cursor in
                match w with
                | notified => r
                | timed_out => (keepalive_frame :: r.1, r.2)
                end
              else
                ([complete_frame (status j) (output j) (cost_usd j)
                                 (error j)], None)
          end
      end
  end.

End Server.

(* ===================================================================== *)
(** ** Cooperative tasks ([async def], [await], [asyncio.gather]) *)
(* ===================================================================== *)

Module Aio.
Import Py.

Section Coroutines.
Context {W : Type}.

(** A coroutine over a world [W]: it reads and writes the world and, at an
    [await] that suspends, hands control back to the event loop. *)
Inductive coro (A : Type) : Type :=
| Done (r : outcome A)
| Get (k : W -> coro A)
| Put (w : W) (k : coro A)
| Await (k : coro A).
Arguments Done {A} r.
Arguments Get {A} k.
Arguments Put {A} w k.
Arguments Await {A} k.

Fixpoint cbind {A B} (c : coro A) (f : A -> coro B) : coro B :=
  match c with
  | Done (Returned a) => f a
  | Done (Raised e) => Done (Raised e)
  | Get k => Get (fun w => cbind (k w) f)
  | Put w k => Put w (cbind k f)
  | Await k => Await (cbind k f)
  end.

Definition get : coro W := Get (fun w => Done (Returned w)).
Definition put (w : W) : coro unit := Put w (Done (Returned tt)).
Definition modify (f : W -> W) : coro unit := Get (fun w => put (f w)).
Definition throw {A} (e : exn) : coro A := Done (Raised e).
(** A suspension point. *)
Definition suspend : coro unit := Await (Done (Returned tt)).

(** Run a coroutine up to its next suspension or to its end. *)
Fixpoint resume {A} (c : coro A) (w : W) : W * (outcome A + coro A) :=
  match c with
  | Done r => (w, inl r)
  | Get k => resume (k w) w
  | Put w' k => resume k w'
  | Await k => (w, inr k)
  end.

(** Run a coroutine to its end with nothing else scheduled in between:
    [await c] from a caller that is the only task. *)
Fixpoint run_alone {A} (c : coro A) (w : W) : W * outcome A :=
  match c with
  | Done r => (w, r)
  | Get k => run_alone (k w) w
  | Put w' k => run_alone k w'
  | Await k => run_alone k w
  end.

(** The tasks of a [gather], each finished or suspended. *)
Definition slot (A : Type) : Type := outcome A + coro A.

(** Let the task at index [i] run up to its next suspension. *)
Definition step_slot {A} (i : nat) (ts : list (slot A)) (w : W)
  : W * list (slot A) :=
  match ts !! i with
  | Some (inr c) => let '(w', t) := resume c w in (w', <[i := t]> ts)
  | _ => (w, ts)
  end.

(** Let every task run to its end, in list order. *)
Fixpoint finish_all {A} (ts : list (slot A)) (w : W)
  : W * list (outcome A) :=
  match ts with
  | [] => (w, [])
  | inl r :: ts' =>
      let '(w', rs) := finish_all ts' w in (w', r :: rs)
  | inr c :: ts' =>
      let '(w1, r) := run_alone c w in
      let '(w2, rs) := finish_all ts' w1 in (w2, r :: rs)
  end.

(** The event loop while a [gather] is awaited: [sched] names, turn by
    turn, the task that runs next; once it is used up the tasks left run to
    their end.  Every task is run to its end whatever the others did. *)
Fixpoint run_tasks {A} (sched : list nat) (ts : list (slot A)) (w : W)
  : W * list (outcome A) :=
  match sched with
  | [] => finish_all ts w
  | i :: sched' =>
      let '(w', ts') := step_slot i ts w in run_tasks sched' ts' w'
  end.

(** [await asyncio.gather(c1, ..., cn, return_exceptions=True)]: the list of what
    each task returned or raised, in the order of [cs]. *)
Definition gather_return_exceptions {A} (sched : list nat)
           (cs : list (coro A)) : coro (list (outcome A)) :=
  Get (fun w =>
    let '(w', rs) := run_tasks sched (inr <$> cs) w in
    Put w' (Done (Returned rs))).

End Coroutines.

Arguments coro W A : clear implicits.
Arguments Done {W A} r.
Arguments Get {W A} k.
Arguments Put {W A} w k.
Arguments Await {W A} k.

#[global] Instance coro_ret {W} : MRet (coro W) :=
  fun A a => Done (Returned a).
#[global] Instance coro_bind {W} : MBind (coro W) :=
  fun A B f c => cbind c f.

End Aio.

(* ===================================================================== *)
(** ** src/agent-wo-server/agent: the command-line workflow *)
(* ===================================================================== *)

(** *** An insertion-ordered [dict[str, str]] *)

Module PyDict.

Definition dict : Type := list (string * string).

Definition keys (d : dict) : list string := d.*1.

(** [d[k] = v]: in place when [k] is present, else appended. *)
Fixpoint setitem (k v : string) (d : dict) : dict :=
  match d with
  | [] => [(k, v)]
  | (k', v') :: d' =>
      if decide (k = k') then (k, v) :: d' else (k', v') :: setitem k v d'
  end.

(** [del d[k]] *)
Fixpoint delitem (k : string) (d : dict) : dict :=
  match d with
  | [] => []
  | (k', v') :: d' =>
      if decide (k = k') then d' else (k', v') :: delitem k d'
  end.

(** [d.get(k)] *)
Fixpoint get (k : string) (d : dict) : option string :=
  match d with
  | [] => None
  | (k', v') :: d' => if decide (k = k') then Some v' else get k d'
  end.

(** What every [dict] satisfies: no key twice. *)
Definition wf (d : dict) : Prop := NoDup (keys d).

End PyDict.

(** *** config.py, state.py and the world the workflow runs in *)

Module Workflow.
Import Py Re Aio.

Definition POLL_INTERVAL_SECS : Z := 60.
Definition MAX_CI_WAIT_MINS : Z := 120.
Definition MAX_AGENT_TURNS : Z := 200.

(** [x or d] for an [int | None]. *)
Definition or_default (x : option Z) (d : Z) : Z :=
  match x with
  | Some v => if (v =? 0)%Z then d else v
  | None => d
  end.

Record agent_options := AgentOptions {
  system_prompt_preset : string;
  system_prompt_append : string;
  permission_mode : string;
  opt_cwd : string;
  setting_sources : list string;
  plugins : list string;
  allowed_tools : list string;
  max_turns : Z
}.

(** [make_agent_options] *)
Definition make_agent_options (plugin_path : string) (cwd append : string)
           (turns : option Z) : agent_options :=
  AgentOptions "claude_code" append "bypassPermissions" cwd ["project"]
    [plugin_path]
    ["Bash"; "Read"; "Write"; "Edit"; "Glob"; "Grep"; "WebFetch";
     "WebSearch"; "Skill"; "Task"]
    (or_default turns MAX_AGENT_TURNS).

(** [WorkflowState] *)
Record WorkflowState := mkState {
  ep_url : string;
  repo_short_name : string;
  repo_url : string;
  base_branch : string;
  repo_local_path : string;
  api_types_path : string;
  api_summary_md : string;
  pr_urls : PyDict.dict
}.

Definition set_repo_local_path (v : string) (s : WorkflowState) :=
  mkState (ep_url s) (repo_short_name s) (repo_url s) (base_branch s) v
          (api_types_path s) (api_summary_md s) (pr_urls s).
Definition set_api_summary_md (v : string) (s : WorkflowState) :=
  mkState (ep_url s) (repo_short_name s) (repo_url s) (base_branch s)
          (repo_local_path s) (api_types_path s) v (pr_urls s).
Definition set_pr_url (label url : string) (s : WorkflowState) :=
  mkState (ep_url s) (repo_short_name s) (repo_url s) (base_branch s)
          (repo_local_path s) (api_types_path s) (api_summary_md s)
          (PyDict.setitem label url (pr_urls s)).

(** What [gh pr view --json ...] prints for one check and for the PR;
    [None] is a key that is absent (what [.get] then returns). *)
Record check := Check {
  check_status : option string;
  check_conclusion : option string
}.

Record pr_data := PrData {
  data_state : option string;
  statusCheckRollup : option (list check);
  data_mergeable : option string;
  mergeStateStatus : option string
}.

(** One run of the [try] block of [_check_pr_status]: [gh] exits non-zero,
    something in the block raises (the subprocess, its timeout,
    [json.loads], a response of another shape), or a response is read. *)
Inductive gh_result :=
| gh_failed
| gh_raised (e : exn)
| gh_json (data : pr_data).

(** The one object all phases and tasks share and change: the
    [WorkflowState], the clock, and what was done to the outside. *)
Record world := World {
  state : WorkflowState;
  now : Z;
  turns : list (agent_options * string);
  files : gmap string string;
  stdout : list string;
  gh_calls : list (string * string);
  sleeps : list Z
}.

(** The collaborators. *)
Record env := Env {
  cwd : string;
  OAPE_PLUGIN_PATH : string;
  dedent : string -> string;
  (** entering [async with ClaudeSDKClient(opts)] may raise *)
  sdk_connect : agent_options -> option exn;
  (** what [receive_response] yields after the prompts sent so far *)
  sdk : agent_options -> list string -> Agent.stream;
  turn_secs : nat -> Z;
  is_dir : string -> bool;
  iterdir : string -> list string;
  (** the [n]-th call of [gh pr view number --repo repo] and its duration *)
  gh : nat -> string -> string -> gh_result;
  gh_secs : nat -> Z
}.

Definition with_state (f : WorkflowState -> WorkflowState) (w : world) :=
  World (f (state w)) (now w) (turns w) (files w) (stdout w) (gh_calls w)
        (sleeps w).
Definition with_now (t : Z) (w : world) :=
  World (state w) t (turns w) (files w) (stdout w) (gh_calls w) (sleeps w).
Definition log_turn (o : agent_options) (p : string) (w : world) :=
  World (state w) (now w) (turns w ++ [(o, p)]) (files w) (stdout w)
        (gh_calls w) (sleeps w).
Definition write_file (path content : string) (w : world) :=
  World (state w) (now w) (turns w) (<[path := content]> (files w))
        (stdout w) (gh_calls w) (sleeps w).
Definition print (line : string) (w : world) :=
  World (state w) (now w) (turns w) (files w) (stdout w ++ [line])
        (gh_calls w) (sleeps w).
Definition log_gh (repo number : string) (w : world) :=
  World (state w) (now w) (turns w) (files w) (stdout w)
        (gh_calls w ++ [(repo, number)]) (sleeps w).
Definition log_sleep (secs : Z) (w : world) :=
  World (state w) (now w) (turns w) (files w) (stdout w) (gh_calls w)
        (sleeps w ++ [secs]).

Abbreviation task := (coro world).

Definition get_state : task WorkflowState :=
  w ← get; mret (state w).

(** [a / b] on paths, for the names the code joins. *)
Definition path_join (a b : string) : string :=
  if String.eqb b "" then a
  else if String.prefix "/" b then b
  else a +:+ "/" +:+ b.

(** [make_workdir]: the directory exists afterwards. *)
Definition make_workdir (E : env) (label : string) : string :=
  path_join (path_join (cwd E) ".oape-work") label.

(** [write_state_summary] *)
Definition write_state_summary (workdir filename content : string)
  : task string :=
  let p := path_join workdir filename in
  modify (write_file p content) ;; mret p.

(** [read_state_summary] *)
Definition read_state_summary (path : string) : task string :=
  w ← get; mret (default "" (files w !! path)).

End Workflow.

(** *** utils.py and the SDK client *)

Module Utils.
Import Py Re Aio Workflow.

(** [extract_text] *)
Definition extract_text (messages : list Agent.message) : string :=
  join nl
    (flat_map
       (fun msg =>
          match msg with
          | Agent.AssistantMessage content =>
              flat_map (fun b => match b with
                                 | Agent.TextBlock t => [t]
                                 | _ => []
                                 end) content
          | _ => []
          end)
       messages).

(** [https://github\.com/[^\s)]+/pull/\d+] *)
Definition PR_URL_PATTERN : regex :=
  (Lit "https://github.com/"
   >> Plus (fun c => negb (is_space c || ascii_eqb c ")"))
   >> Lit "/pull/" >> Plus is_digit)%re.

(** [extract_pr_url] *)
Definition extract_pr_url (t : string) : option string :=
  group0 <$> re_search PR_URL_PATTERN t.

(** A connected [ClaudeSDKClient]: its options and the prompts sent. *)
Record client := Client { c_opts : agent_options; c_sent : list string }.

(** [await client.query(prompt)] *)
Definition client_query (c : client) (prompt : string) : task client :=
  suspend ;;
  modify (log_turn (c_opts c) prompt) ;;
  mret (Client (c_opts c) (c_sent c ++ [prompt])).

(** [await collect_response(client)]: the messages of the response, once
    it is drained; what the stream raises is not caught here. *)
Definition collect_response (E : env) (c : client)
  : task (list Agent.message) :=
  suspend ;;
  w ← get;
  put (with_now (now w + turn_secs E (length (turns w)))%Z w) ;;
  let q := sdk E (c_opts c) (c_sent c) in
  match Agent.ending q with
  | None => mret (Agent.items q)
  | Some e => throw e
  end.

(** [async with ClaudeSDKClient(opts) as client: body] *)
Definition with_client {A} (E : env) (opts : agent_options)
           (body : client -> task A) : task A :=
  suspend ;;
  match sdk_connect E opts with
  | Some e => throw e
  | None => r ← body (Client opts []); suspend ;; mret r
  end.

(** Text of an f-string block: the lines, each indented and ended by a line
    feed, as they stand in the source before [textwrap.dedent]. *)
Definition block (indent : nat) (ls : list string) : string :=
  String.concat ""
    (map (fun l => text (replicate indent " "%char) +:+ l +:+ nl) ls).

End Utils.

(** *** phase1.py *)

Module Phase1.
Import Py Re Aio Workflow Utils.

Definition system_prompt (E : env) (s : WorkflowState) : string :=
  dedent E (block 12
    ["You are running an automated OAPE workflow.";
     "The Enhancement Proposal URL is: " +:+ ep_url s;
     "The target repository short name is: " +:+ repo_short_name s;
     "The target repository URL is: " +:+ repo_url s;
     "The base branch is: " +:+ base_branch s;
     "";
     "You will execute a series of /oape: slash commands in sequence.";
     "After each command completes, proceed to the next.";
     "Do NOT ask the user for confirmation between steps -- proceed autonomously.";
     "If a step fails, report the error and stop.";
     "";
     "At the end, write a summary of everything that happened to a file";
     "called 'api-types-summary.md' in the current working directory."]).

Definition step3_prompt : string :=
  "Now run /oape:api-generate-tests on the API types directory you just " +:+
  "generated. Determine the correct path from the api-generate output above.".

Definition step4_prompt : string :=
  "Now review the changes you've made. Run `go build ./...` and `go vet ./...` " +:+
  "to check for compilation errors. Fix any issues found. " +:+
  "If `make generate` or `make manifests` targets exist, run them. " +:+
  "Ensure the code compiles cleanly.".

Definition step5_prompt (E : env) (branch_name base : string) : string :=
  dedent E (block 16
    ["Now commit all changes and raise a PR:";
     "1. Create and checkout a new branch: " +:+ branch_name;
     "2. Stage all changed/new files (except .oape-work/)";
     "3. Commit with a descriptive conventional commit message";
     "4. Push the branch to origin";
     "5. Create a PR against '" +:+ base +:+ "' using `gh pr create`";
     "   with a clear title and body describing the API types from the EP.";
     "6. Print the PR URL at the end."]).

Definition summary (E : env) (s : WorkflowState)
           (api_gen_text api_tests_text : string) : string :=
  dedent E (block 8
    ["# Phase 1: API Types Summary";
     "";
     "## Enhancement Proposal";
     ep_url s;
     "";
     "## Repository";
     "- Short name: " +:+ repo_short_name s;
     "- URL: " +:+ repo_url s;
     "- Base branch: " +:+ base_branch s;
     "- Local path: " +:+ repo_local_path s;
     "";
     "## Steps Completed";
     "1. Repository cloned via /oape:init";
     "2. API types generated via /oape:api-generate";
     "3. API integration tests generated via /oape:api-generate-tests";
     "4. Code reviewed and fixed (build + vet)";
     "5. PR raised: " +:+ default "N/A" (PyDict.get "api-types" (pr_urls s));
     "";
     "## API Generation Output (excerpt)";
     prefix 2000 api_gen_text;
     "";
     "## API Test Generation Output (excerpt)";
     prefix 2000 api_tests_text]).

(** The search for the clone: [workdir / repo_short_name], else the first
    child of [workdir] that holds a [.git] directory. *)
Definition find_clone (E : env) (workdir short : string) : option string :=
  let cloned_dir := path_join workdir short in
  if is_dir E cloned_dir then Some cloned_dir
  else head (filter (fun child => is_dir E (path_join child ".git") = true)
                    (iterdir E workdir)).

(** [run] *)
Definition run (E : env) : task unit :=
  let workdir := make_workdir E "phase1-api-types" in
  s0 ← get_state;
  let opts := make_agent_options (OAPE_PLUGIN_PATH E) workdir
                (system_prompt E s0) None in
  '(api_gen_text, api_tests_text) ← with_client E opts (fun client =>
    (* Step 1: clone repo *)
    client ← client_query client ("/oape:init " +:+ repo_short_name s0);
    collect_response E client ;;
    match find_clone E workdir (repo_short_name s0) with
    | Some p => modify (with_state (set_repo_local_path p))
    | None => mret tt
    end ;;
    (* Step 2: generate API types *)
    s ← get_state;
    client ← client_query client
      ("cd " +:+ repo_local_path s +:+ " && /oape:api-generate " +:+ ep_url s);
    msgs ← collect_response E client;
    let api_gen_text := extract_text msgs in
    (* Step 3: generate API tests *)
    client ← client_query client step3_prompt;
    msgs ← collect_response E client;
    let api_tests_text := extract_text msgs in
    (* Step 4: review and fix *)
    client ← client_query client step4_prompt;
    collect_response E client ;;
    (* Step 5: commit and raise PR *)
    w ← get;
    let branch_name := "oape/api-types-" +:+ pretty (now w) in
    client ← client_query client
      (step5_prompt E branch_name (base_branch (state w)));
    msgs ← collect_response E client;
    let pr_url := extract_pr_url (extract_text msgs) in
    (if truthy pr_url
     then modify (with_state (set_pr_url "api-types" (default "" pr_url)))
     else mret tt) ;;
    mret (api_gen_text, api_tests_text));
  s ← get_state;
  p ← write_state_summary workdir "api-types-summary.md"
        (summary E s api_gen_text api_tests_text);
  modify (with_state (set_api_summary_md p)).

End Phase1.

(** *** phase2.py *)

Module Phase2.
Import Py Re Aio Workflow Utils.

(** The follow-up turn sent when no PR link was found. *)
Definition corrective_prompt : string :=
  "Please create the PR now if you haven't already. " +:+
  "Print the PR URL when done.".

Definition controller_system_prompt (E : env) (s : WorkflowState)
           (api_summary : string) : string :=
  dedent E (block 12
    ["You are a sub-agent in the OAPE workflow.";
     "Your task is to generate controller/reconciler implementation code.";
     "";
     "Context from the previous phase (API types generation):";
     prefix 3000 api_summary;
     "";
     "Enhancement Proposal URL: " +:+ ep_url s;
     "Base branch: " +:+ base_branch s;
     "";
     "Steps to execute:";
     "1. Run /oape:api-implement " +:+ ep_url s;
     "2. Run `go build ./...` and fix any compilation errors";
     "3. If `make generate` and `make manifests` exist, run them";
     "4. Run `go vet ./...` and fix any issues";
     "5. Create a new branch, commit, push, and raise a PR against '"
       +:+ base_branch s +:+ "'";
     "6. Print the PR URL";
     "";
     "Do NOT ask for confirmation. Proceed autonomously."]).

Definition controller_prompt (s : WorkflowState) (branch : string) : string :=
  "/oape:api-implement " +:+ ep_url s +:+ nl +:+ nl +:+
  "After that completes, build, fix issues, commit to a new branch " +:+
  "'" +:+ branch +:+ "', push, and raise a PR against '" +:+
  base_branch s +:+ "'.".

Definition e2e_system_prompt (E : env) (s : WorkflowState)
           (api_summary : string) : string :=
  dedent E (block 12
    ["You are a sub-agent in the OAPE workflow.";
     "Your task is to generate e2e tests based on the API type changes.";
     "";
     "Context from the previous phase (API types generation):";
     prefix 3000 api_summary;
     "";
     "Enhancement Proposal URL: " +:+ ep_url s;
     "Base branch: " +:+ base_branch s;
     "";
     "Steps to execute:";
     "1. Run /oape:e2e-generate " +:+ base_branch s;
     "2. Review the generated test artifacts";
     "3. Copy the generated e2e test code into the appropriate test directory";
     "4. Run `go build ./...` and fix any compilation errors";
     "5. Create a new branch, commit, push, and raise a PR against '"
       +:+ base_branch s +:+ "'";
     "6. Print the PR URL";
     "";
     "Do NOT ask for confirmation. Proceed autonomously."]).

Definition e2e_prompt (s : WorkflowState) (branch : string) : string :=
  "/oape:e2e-generate " +:+ base_branch s +:+ nl +:+ nl +:+
  "After that completes, copy test files into the repo's test directory, " +:+
  "build, fix issues, commit to a new branch '" +:+ branch +:+
  "', push, and " +:+
  "raise a PR against '" +:+ base_branch s +:+ "'.".

(** The turns of a sub-agent session, the same in [_run_controller] and
    [_run_e2e_tests]: the scripted turn, the search for a PR link and, when
    none is found, the follow-up turn and a second search.  It gives the
    link, if any, and the text gathered. *)
Definition scripted_turns (E : env) (prompt : string) (client : client)
  : task (option string * string) :=
  client ← client_query client prompt;
  msgs ← collect_response E client;
  let text := extract_text msgs in
  let pr_url := extract_pr_url text in
  if negb (truthy pr_url) then
    client ← client_query client corrective_prompt;
    msgs2 ← collect_response E client;
    let pr_url := extract_pr_url (extract_text msgs2) in
    let text := text +:+ nl +:+ extract_text msgs2 in
    mret (pr_url, text)
  else mret (pr_url, text).

(** [_run_controller] *)
Definition _run_controller (E : env) : task (option string) :=
  let workdir := make_workdir E "phase2a-controller" in
  s ← get_state;
  api_summary ← read_state_summary (api_summary_md s);
  write_state_summary workdir "api-types-summary.md" api_summary ;;
  let opts := make_agent_options (OAPE_PLUGIN_PATH E) (repo_local_path s)
                (controller_system_prompt E s api_summary) None in
  '(pr_url, text) ← with_client E opts (fun client =>
     w ← get;
     let branch := "oape/controller-impl-" +:+ pretty (now w) in
     scripted_turns E (controller_prompt s branch) client);
  write_state_summary workdir "controller-summary.md"
    ("# Controller Implementation Summary" +:+ nl +:+ nl +:+ "PR: " +:+
     (if truthy pr_url then default "" pr_url else "N/A") +:+ nl +:+ nl +:+
     "## Output" +:+ nl +:+ prefix 3000 text) ;;
  (if truthy pr_url
   then modify (with_state (set_pr_url "controller" (default "" pr_url)))
   else mret tt) ;;
  mret pr_url.

(** [_run_e2e_tests] *)
Definition _run_e2e_tests (E : env) : task (option string) :=
  let workdir := make_workdir E "phase2b-e2e-tests" in
  s ← get_state;
  api_summary ← read_state_summary (api_summary_md s);
  write_state_summary workdir "api-types-summary.md" api_summary ;;
  let opts := make_agent_options (OAPE_PLUGIN_PATH E) (repo_local_path s)
                (e2e_system_prompt E s api_summary) None in
  '(pr_url, text) ← with_client E opts (fun client =>
     w ← get;
     let branch := "oape/e2e-tests-" +:+ pretty (now w) in
     scripted_turns E (e2e_prompt s branch) client);
  write_state_summary workdir "e2e-summary.md"
    ("# E2E Test Generation Summary" +:+ nl +:+ nl +:+ "PR: " +:+
     (if truthy pr_url then default "" pr_url else "N/A") +:+ nl +:+ nl +:+
     "## Output" +:+ nl +:+ prefix 3000 text) ;;
  (if truthy pr_url
   then modify (with_state (set_pr_url "e2e-tests" (default "" pr_url)))
   else mret tt) ;;
  mret pr_url.

(** The line [run] prints for one label and what its task gave. *)
Definition report_line (label : string) (result : outcome (option string))
  : string :=
  match result with
  | Raised e => "  " +:+ label +:+ " sub-agent failed: " +:+ exn_str e
  | Returned r =>
      if truthy r then "  " +:+ label +:+ " PR: " +:+ default "" r
      else "  " +:+ label +:+ ": no PR URL captured"
  end.

(** [for label, result in zip(labels, results): print(...)] *)
Fixpoint report (labels : list string)
         (results : list (outcome (option string))) : task unit :=
  match labels, results with
  | label :: labels', result :: results' =>
      modify (print (report_line label result)) ;; report labels' results'
  | _, _ => mret tt
  end.

(** [run], the two tasks being whatever coroutines are handed to [gather];
    [sched] is the order in which the event loop lets them run. *)
Definition run_tasks_and_report (sched : list nat)
           (tasks : list (task (option string))) : task unit :=
  results ← gather_return_exceptions sched tasks;
  report ["Controller"; "E2E Tests"] results.

(** [run] *)
Definition run (E : env) (sched : list nat) : task unit :=
  run_tasks_and_report sched [_run_controller E; _run_e2e_tests E].

End Phase2.

(** *** phase3.py *)

Module Phase3.
Import Py Re Aio Workflow Utils.

(** The dict [_check_pr_status] returns; [None] is a key it did not set. *)
Record pr_status := Status {
  st_state : string;
  checks_pass : bool;
  mergeable : bool;
  merge_state : option string;
  num_checks : option nat;
  pending : option nat;
  st_error : option string
}.

(** [https://github\.com/([^/]+/[^/]+)/pull/(\d+)] *)
Definition PR_PATTERN : regex :=
  (Lit "https://github.com/"
   >> Grp (Plus (fun c => negb (ascii_eqb c "/")) >> Lit "/"
           >> Plus (fun c => negb (ascii_eqb c "/")))
   >> Lit "/pull/" >> Grp (Plus is_digit))%re.

(** [c.get("status") == "COMPLETED"] *)
Definition completed (c : check) : bool :=
  bool_decide (check_status c = Some "COMPLETED").

(** [c.get("conclusion") in ("SUCCESS", "NEUTRAL", "SKIPPED")] *)
Definition non_failing (c : check) : bool :=
  bool_decide (check_conclusion c = Some "SUCCESS")
  || bool_decide (check_conclusion c = Some "NEUTRAL")
  || bool_decide (check_conclusion c = Some "SKIPPED").

(** The dict built from a response that was read. *)
Definition status_of_data (data : pr_data) : pr_status :=
  let checks := default [] (statusCheckRollup data) in
  let all_pass := forallb non_failing (filter (fun c => completed c = true) checks) in
  let all_complete :=
    bool_decide (0 < length checks) && forallb completed checks in
  Status (default "unknown" (data_state data))
         (all_pass && all_complete)
         (bool_decide (default "" (data_mergeable data) = "MERGEABLE"))
         (Some (default "" (mergeStateStatus data)))
         (Some (length checks))
         (Some (length (filter (fun c => completed c = false) checks)))
         None.

(** [_check_pr_status] *)
Definition _check_pr_status (E : env) (pr_url : string) : task pr_status :=
  match re_match PR_PATTERN pr_url with
  | Some (Match _ [repo; pr_number]) =>
      w ← get;
      let n := length (gh_calls w) in
      put (with_now (now w + gh_secs E n)%Z (log_gh repo pr_number w)) ;;
      match gh E n repo pr_number with
      | gh_failed => mret (Status "error" false false None None None None)
      | gh_raised e =>
          mret (Status "error" false false None None None (Some (exn_str e)))
      | gh_json data => mret (status_of_data data)
      end
  | _ => mret (Status "unknown" false false None None None None)
  end.

(** The three dicts of [run]. *)
Record tables := Tables {
  remaining : PyDict.dict;
  passed : PyDict.dict;
  failed : PyDict.dict
}.

(** What one poll decides for a reference: the branch taken by the
    [if status["checks_pass"] / elif status["state"] == "CLOSED" / else]
    of the loop body. *)
Inductive verdict := to_passed | to_closed | stay_pending.

Definition classify (status : pr_status) : verdict :=
  if checks_pass status then to_passed
  else if bool_decide (st_state status = "CLOSED") then to_closed
  else stay_pending.

(** The body of [for label, url in list(remaining.items())]. *)
Definition poll_one (E : env) (start : Z) (t : tables) (lu : string * string)
  : task tables :=
  let '(label, url) := lu in
  status ← _check_pr_status E url;
  w ← get;
  let elapsed := Z.quot (now w - start) 60 in
  match classify status with
  | to_passed =>
      modify (print ("  [" +:+ pretty elapsed +:+ "m] " +:+ label +:+
                     ": ALL CHECKS PASSED (" +:+
                     from_option pretty "" (num_checks status) +:+
                     " checks)")) ;;
      mret (Tables (PyDict.delitem label (remaining t))
                   (PyDict.setitem label url (passed t)) (failed t))
  | to_closed =>
      modify (print ("  [" +:+ pretty elapsed +:+ "m] " +:+ label +:+
                     ": PR CLOSED")) ;;
      mret (Tables (PyDict.delitem label (remaining t)) (passed t)
                   (PyDict.setitem label url (failed t)))
  | stay_pending =>
      modify (print ("  [" +:+ pretty elapsed +:+ "m] " +:+ label +:+
                     ": waiting (" +:+
                     from_option pretty "?" (pending status) +:+
                     " pending)")) ;;
      mret t
  end.

(** One pass of the [for] loop over a snapshot of [remaining]. *)
Fixpoint poll_all (E : env) (start : Z) (snapshot : list (string * string))
         (t : tables) : task tables :=
  match snapshot with
  | [] => mret t
  | lu :: snapshot' => t' ← poll_one E start t lu; poll_all E start snapshot' t'
  end.

(** [await asyncio.sleep(interval)] *)
Definition sleep (interval : Z) : task unit :=
  suspend ;;
  modify (fun w => log_sleep interval (with_now (now w + Z.max 0 interval)%Z w)).

Definition is_empty (d : PyDict.dict) : bool :=
  match d with [] => true | _ => false end.

(** [while remaining and (time.time() - start) < wait * 60: ...]; at most
    [fuel] passes are made, and [None] is returned when they do not suffice. *)
Fixpoint watch (E : env) (fuel : nat) (start wait interval : Z) (t : tables)
  : task (option tables) :=
  w ← get;
  if negb (is_empty (remaining t)) && (now w - start <? wait * 60)%Z then
    match fuel with
    | O => mret None
    | S fuel' =>
        t' ← poll_all E start (remaining t) t;
        (if negb (is_empty (remaining t')) then sleep interval else mret tt) ;;
        watch E fuel' start wait interval t'
    end
  else mret (Some t).

(** [x or "none"] *)
Definition or_none (s : string) : string :=
  if String.eqb s "" then "none" else s.

Definition print_section (title : string) (d : PyDict.dict) : task unit :=
  if negb (is_empty d) then
    modify (print title) ;;
    modify (fun w => foldl (fun w '(label, url) =>
                              print ("  " +:+ label +:+ ": " +:+ url) w) w d)
  else mret tt.

Definition summary (E : env) (s : WorkflowState) (t : tables) : string :=
  dedent E (block 8
    ["# OAPE Workflow Final Summary";
     "";
     "## Enhancement Proposal";
     ep_url s;
     "";
     "## Repository";
     repo_url s +:+ " (base: " +:+ base_branch s +:+ ")";
     "";
     "## PRs Created";
     String.concat ""
       (map (fun '(k, v) => "- **" +:+ k +:+ "**: " +:+ v +:+ nl) (pr_urls s));
     "";
     "## CI Status";
     "- Passed: " +:+ or_none (join ", " (PyDict.keys (passed t)));
     "- Failed/Closed: " +:+ or_none (join ", " (PyDict.keys (failed t)));
     "- Timed out: " +:+ or_none (join ", " (PyDict.keys (remaining t)));
     "";
     "## Action Required";
     "Human review and merge of passing PRs."]).

Definition banner : string := text (replicate 70 "="%char).

(** How [run] ends: at once for want of PRs, after the final report made of
    the three dicts, or (in this model only) with the loop still going after
    [fuel] passes. *)
Inductive run_result :=
| nothing_to_watch
| reported (t : tables)
| out_of_fuel.

(** The effective limits: [max_wait_mins or MAX_CI_WAIT_MINS] and
    [poll_secs or POLL_INTERVAL_SECS]. *)
Definition effective_wait (max_wait_mins : option Z) : Z :=
  or_default max_wait_mins MAX_CI_WAIT_MINS.
Definition effective_interval (poll_secs : option Z) : Z :=
  or_default poll_secs POLL_INTERVAL_SECS.

(** The final report: what is printed and the summary file. *)
Definition final_report (E : env) (s : WorkflowState) (wait : Z) (t : tables)
  : task unit :=
  modify (print (nl +:+ banner)) ;;
  modify (print "WORKFLOW COMPLETE") ;;
  modify (print banner) ;;
  print_section
    (nl +:+ "PRs with ALL checks passing (ready for human merge):")
    (passed t) ;;
  print_section (nl +:+ "PRs closed or with issues:") (failed t) ;;
  print_section
    (nl +:+ "PRs still pending after " +:+ pretty wait +:+ "min timeout:")
    (remaining t) ;;
  let workdir := make_workdir E "final" in
  write_state_summary workdir "workflow-summary.md" (summary E s t) ;;
  modify (print (nl +:+ "Full summary: .oape-work/final/workflow-summary.md")).

(** [run] *)
Definition run (E : env) (max_wait_mins poll_secs : option Z) (fuel : nat)
  : task run_result :=
  s ← get_state;
  if is_empty (pr_urls s) then
    modify (print (nl +:+ "No PRs to watch.")) ;;
    mret nothing_to_watch
  else
    let wait := effective_wait max_wait_mins in
    let interval := effective_interval poll_secs in
    modify (print (nl +:+ banner)) ;;
    modify (print "PHASE 3: Watching PRs for CI") ;;
    modify (print banner) ;;
    modify (fun w => foldl (fun w '(label, url) =>
                              print ("  " +:+ label +:+ ": " +:+ url) w)
                           w (pr_urls s)) ;;
    w ← get;
    let start := now w in
    r ← watch E fuel start wait interval (Tables (pr_urls s) [] []);
    match r with
    | None => mret out_of_fuel
    | Some t => final_report E s wait t ;; mret (reported t)
    end.

End Phase3.

(** *** main.py *)

Module Main.
Import Py Re Aio Workflow Utils.

(** A step of the command line: a value, or [sys.exit(code)]. *)
Inductive cli (A : Type) :=
| Value (a : A)
| SysExit (code : Z).
Arguments Value {A} a.
Arguments SysExit {A} code.

(** [^https://github\.com/openshift/enhancements/pull/\d+/?$] *)
Definition EP_URL_PATTERN : regex :=
  (Bos >> Lit "https://github.com/openshift/enhancements/pull/"
       >> Plus is_digit >> Opt "/" >> Eos)%re.

(** [_prompt_ep_url]; [line] is what [input(...)] returns. *)
Definition _prompt_ep_url (line : string) : cli string :=
  let url := strip line in
  match re_match EP_URL_PATTERN url with
  | Some _ => Value url
  | None => SysExit 1
  end.

(** The three phases of [run_workflow], from the [WorkflowState] built for
    the repository chosen. *)
Definition run_phases (E : env) (sched : list nat) (fuel : nat)
  : task (cli Phase3.run_result) :=
  Phase1.run E ;;
  s ← get_state;
  if String.eqb (repo_local_path s) "" then mret (SysExit 1)
  else
    Phase2.run E sched ;;
    r ← Phase3.run E None None fuel;
    mret (Value r).

End Main.

(* ===================================================================== *)
(** ** Notions the properties are stated with *)
(* ===================================================================== *)

Module Notions.
Import Py.

(** The three inputs the submission is tried on. *)
Definition url_123 : string :=
  "https://github.com/openshift/enhancements/pull/123".
Definition url_abc : string :=
  "https://github.com/openshift/enhancements/pull/abc".
Definition url_example : string := "https://example.com/pull/1".

(** The job after the events [evs] were appended to its log. *)
Definition appended (evs : list Agent.entry) (j : Server.job) : Server.job :=
  Server.Job (Server.status j) (Server.ep_url j)
             (Server.conversation j ++ evs) (Server.output j)
             (Server.cost_usd j) (Server.error j).

Definition three_events : list Agent.entry :=
  [Agent.EAssistantText "a"; Agent.EAssistantThinking "b";
   Agent.EResult (Some "c") (Some 0%Q)].

(** The conversation entries one message of the agent stream is turned
    into, the text it adds to the output and the cost it leaves. *)
Definition entry_of_block (b : Agent.block) : Agent.entry :=
  match b with
  | Agent.TextBlock t => Agent.EAssistantText t
  | Agent.ThinkingBlock t => Agent.EAssistantThinking t
  | Agent.ToolUseBlock name input => Agent.EAssistantToolUse name input
  | Agent.ToolResultBlock id (Agent.ContentStr c) is_error =>
      Agent.EAssistantToolResult id c (default false is_error)
  | Agent.ToolResultBlock id (Agent.ContentJson c) is_error =>
      Agent.EAssistantToolResult id c (default false is_error)
  | Agent.OtherBlock ty detail => Agent.EAssistantOther ty detail
  end.

Definition entries_of (m : Agent.message) : list Agent.entry :=
  match m with
  | Agent.AssistantMessage content => entry_of_block <$> content
  | Agent.ResultMessage cost result => [Agent.EResult result cost]
  | Agent.OtherMessage ty detail => [Agent.EOther ty detail]
  end.

Definition text_of_block (b : Agent.block) : list string :=
  match b with Agent.TextBlock t => [t] | _ => [] end.

Definition texts_of (m : Agent.message) : list string :=
  match m with
  | Agent.AssistantMessage content => content ≫= text_of_block
  | Agent.ResultMessage _ result =>
      if truthy result then [default "" result] else []
  | Agent.OtherMessage _ _ => []
  end.

Definition cost_after (c : option Q) (m : Agent.message) : option Q :=
  match m with
  | Agent.ResultMessage cost _ => cost
  | _ => c
  end.

(** A message whose handling does not itself raise: a result that lacks
    its cost makes the formatting of the log line raise. *)
Definition well_costed (m : Agent.message) : Prop :=
  match m with
  | Agent.ResultMessage None _ => False
  | _ => True
  end.

(** The local variables after the messages [ms] were handled. *)
Definition locals_after (l : Agent.locals) (ms : list Agent.message)
  : Agent.locals :=
  Agent.Locals (Agent.output_parts l ++ (ms ≫= texts_of))
               (Agent.l_conversation l ++ (ms ≫= entries_of))
               (foldl cost_after (Agent.l_cost_usd l) ms).

(** A stream that yields a text and a result and then breaks. *)
Definition boom : exn := Exn "RuntimeError" "boom".

Definition broken_stream : Agent.stream :=
  Agent.Stream
    [Agent.AssistantMessage [Agent.TextBlock "hello"];
     Agent.ResultMessage (Some 1%Q) (Some "done")]
    (Some boom).

Definition broken_query (_ : string) (_ : Agent.ClaudeAgentOptions)
  : Agent.stream := broken_stream.

(** A piece of the session runner keeps the property [Q] of the
    conversation gathered so far and of the callback's state. *)
Definition keeps {St A : Type} (Q : list Agent.entry -> St -> Prop)
           (m : Agent.M (Agent.locals * St) A) : Prop :=
  forall l s, Q (Agent.l_conversation l) s ->
    Q (Agent.l_conversation (m (l, s)).2.1) (m (l, s)).2.2.

(** A store with one running job, as [submit_job] creates it. *)
Definition one_job : gmap string Server.job :=
  {["j1" := Server.Job Server.running url_123 [] "" (Some 0%Q) None]}.



(** [wp c w P]: run alone from [w], the coroutine [c] returns (it does not
    raise), in a world and with a value that satisfy [P]. *)
Definition wp {W A : Type} (c : Aio.coro W A) (w : W) (P : W -> A -> Prop)
  : Prop :=
  match Aio.run_alone c w with
  | (w', Returned a) => P w' a
  | (_, Raised _) => False
  end.

(** *** The CI watcher *)

(** What [_check_pr_status] returns for [url] in the world [w], and the
    world it leaves. *)
Definition status_at (E : Workflow.env) (w : Workflow.world) (url : string)
  : Phase3.pr_status :=
  match Re.re_match Phase3.PR_PATTERN url with
  | Some (Re.Match _ [repo; pr_number]) =>
      match Workflow.gh E (length (Workflow.gh_calls w)) repo pr_number with
      | Workflow.gh_failed =>
          Phase3.Status "error" false false None None None None
      | Workflow.gh_raised e =>
          Phase3.Status "error" false false None None None (Some (exn_str e))
      | Workflow.gh_json data => Phase3.status_of_data data
      end
  | _ => Phase3.Status "unknown" false false None None None None
  end.

Definition after_check (E : Workflow.env) (w : Workflow.world) (url : string)
  : Workflow.world :=
  match Re.re_match Phase3.PR_PATTERN url with
  | Some (Re.Match _ [repo; pr_number]) =>
      Workflow.with_now
        (Workflow.now w
         + Workflow.gh_secs E (length (Workflow.gh_calls w)))%Z
        (Workflow.log_gh repo pr_number w)
  | _ => w
  end.

(** The three dicts after a reference got its verdict. *)
Definition moved (v : Phase3.verdict) (label url : string)
           (t : Phase3.tables) : Phase3.tables :=
  match v with
  | Phase3.to_passed =>
      Phase3.Tables (PyDict.delitem label (Phase3.remaining t))
                    (PyDict.setitem label url (Phase3.passed t))
                    (Phase3.failed t)
  | Phase3.to_closed =>
      Phase3.Tables (PyDict.delitem label (Phase3.remaining t))
                    (Phase3.passed t)
                    (PyDict.setitem label url (Phase3.failed t))
  | Phase3.stay_pending => t
  end.

(** A check that counts towards "passed": completed, with a conclusion
    that is not a failure. *)
Definition good_check (c : Workflow.check) : Prop :=
  Workflow.check_status c = Some "COMPLETED"
  /\ (Workflow.check_conclusion c = Some "SUCCESS"
      \/ Workflow.check_conclusion c = Some "NEUTRAL"
      \/ Workflow.check_conclusion c = Some "SKIPPED").

(** The labels of the three dicts are those of [urls], each once. *)
Definition partition_of (urls : PyDict.dict) (t : Phase3.tables) : Prop :=
  NoDup (PyDict.keys (Phase3.passed t) ++ PyDict.keys (Phase3.failed t)
         ++ PyDict.keys (Phase3.remaining t))
  /\ PyDict.keys (Phase3.passed t) ++ PyDict.keys (Phase3.failed t)
     ++ PyDict.keys (Phase3.remaining t) ≡ₚ PyDict.keys urls.

(** The same, said label by label: no label is in two of the three dicts,
    and the labels of [urls] are those in one of them. *)
Definition disjoint_cover (urls : PyDict.dict) (t : Phase3.tables) : Prop :=
  (forall x, x ∈ PyDict.keys (Phase3.passed t) ->
             x ∉ PyDict.keys (Phase3.failed t))
  /\ (forall x, x ∈ PyDict.keys (Phase3.passed t) ->
                x ∉ PyDict.keys (Phase3.remaining t))
  /\ (forall x, x ∈ PyDict.keys (Phase3.failed t) ->
                x ∉ PyDict.keys (Phase3.remaining t))
  /\ (forall x, x ∈ PyDict.keys urls <->
                x ∈ PyDict.keys (Phase3.passed t)
                \/ x ∈ PyDict.keys (Phase3.failed t)
                \/ x ∈ PyDict.keys (Phase3.remaining t)).

(** A world in which two PRs were captured, and collaborators for which
    the first has passed its checks and the second is closed. *)
Definition two_prs : PyDict.dict :=
  [("api-types", "https://github.com/openshift/op/pull/7");
   ("controller", "https://github.com/openshift/op/pull/8")].

Definition initial_state (prs : PyDict.dict) : Workflow.WorkflowState :=
  Workflow.mkState url_123 "op" "https://github.com/openshift/op" "main"
                   "/work/op" "" "" prs.

Definition initial_world (prs : PyDict.dict) : Workflow.world :=
  Workflow.World (initial_state prs) 1000 [] ∅ [] [] [].

Definition success_check : Workflow.check :=
  Workflow.Check (Some "COMPLETED") (Some "SUCCESS").
Definition neutral_check : Workflow.check :=
  Workflow.Check (Some "COMPLETED") (Some "NEUTRAL").
Definition running_check : Workflow.check :=
  Workflow.Check (Some "IN_PROGRESS") None.

Definition response (st : string) (checks : list Workflow.check)
  : Workflow.gh_result :=
  Workflow.gh_json (Workflow.PrData (Some st) (Some checks)
                                    (Some "MERGEABLE") (Some "CLEAN")).

(** Collaborators whose provider answers by [answer]; sessions yield
    nothing, a provider call takes a second. *)
Definition env_with
           (answer : nat -> string -> string -> Workflow.gh_result)
  : Workflow.env :=
  Workflow.Env "/work" "/plugins/oape" (fun s => s) (fun _ => None)
               (fun _ _ => Agent.Stream [] None) (fun _ => 0%Z)
               (fun _ => false) (fun _ => []) answer (fun _ => 1%Z).

Definition mixed_answers (n : nat) (repo number : string)
  : Workflow.gh_result :=
  if String.eqb number "7" then response "OPEN" [success_check; neutral_check]
  else response "CLOSED" [running_check].

(** One reference that stays pending, a provider that keeps answering
    so, and a reference that is closed with every check passed. *)
Definition one_pr : PyDict.dict :=
  [("api-types", "https://github.com/openshift/op/pull/7")].

Definition pending_answers (n : nat) (repo number : string)
  : Workflow.gh_result := response "OPEN" [running_check].

Definition closed_green : Workflow.pr_data :=
  Workflow.PrData (Some "CLOSED") (Some [success_check])
                  (Some "UNKNOWN") (Some "UNKNOWN").

Definition closed_green_answers (n : nat) (repo number : string)
  : Workflow.gh_result := Workflow.gh_json closed_green.

(** *** The fan-out phase *)




(** Collaborators whose sessions answer every turn with a text that holds
    no PR link. *)
Definition mute_sdk (o : Workflow.agent_options) (sent : list string)
  : Agent.stream :=
  Agent.Stream [Agent.AssistantMessage [Agent.TextBlock "Done."]] None.

Definition mute_env : Workflow.env :=
  Workflow.Env "/work" "/plugins/oape" (fun s => s) (fun _ => None)
               mute_sdk (fun _ => 5%Z) (fun _ => true) (fun _ => [])
               pending_answers (fun _ => 1%Z).

(** The prompts sent so far, in order. *)
Definition prompts (w : Workflow.world) : list string :=
  (Workflow.turns w).*2.

(** *** Texts and patterns *)

(** Where a greedy run of a class has to stop: at the end of the text or
    before a character outside the class. *)
Definition stops (p : ascii -> bool) (post : list ascii) : Prop :=
  match post with
  | [] => True
  | c :: _ => p c = false
  end.

(** The text every accepted proposal URL starts with. *)
Definition ep_base : list ascii :=
  chars "https://github.com/openshift/enhancements/pull/".

(** A non-empty run of ASCII digits. *)
Definition digits (ds : list ascii) : Prop :=
  ds <> [] /\ Forall (fun c => is_digit c = true) ds.

Definition slash : ascii := "/"%char.
Definition lf : ascii := "010"%char.

(** What [/?$] lets follow the digits. *)
Definition ep_end (t : list ascii) : Prop :=
  t = [] \/ t = [slash] \/ t = [lf] \/ t = [slash; lf].

(** *** Pull-request links *)

Definition gh_base : list ascii := chars "https://github.com/".

(** The classes [[^/]] and [[^\s)]] of the two patterns. *)
Definition no_slash (c : ascii) : bool := negb (ascii_eqb c "/").
Definition url_char (c : ascii) : bool :=
  negb (is_space c || ascii_eqb c ")").

(** A path segment: non-empty, without a slash. *)
Definition segment (l : list ascii) : Prop :=
  l <> [] /\ Forall (fun c => no_slash c = true) l.

(** [https://github.com/<path>/pull/<number>] *)
Definition pull_url (path ds : list ascii) : list ascii :=
  gh_base ++ path ++ chars "/pull/" ++ ds.

(** [<owner>/<repo>] *)
Definition repo_path (owner repo : list ascii) : list ascii :=
  owner ++ chars "/" ++ repo.

(** No [/pull/<digit>] inside [l]. *)
Definition no_pull (l : list ascii) : Prop :=
  forall a d b, l = a ++ chars "/pull/" ++ d :: b -> is_digit d = false.

(** [pre] ends where [https://github.com/] first occurs in [s]. *)
Definition before_first_link (pre s : list ascii) : Prop :=
  forall a b, s = a ++ gh_base ++ b -> length pre <= length a.

(** *** The callback of the session runner *)

(** The callback's state after the entries [es] were handed to it one by
    one, from the state [s]; what a call that raises did to the state
    counts. *)
Definition delivered {St : Type} (on_message : option (@Agent.callback St))
           (es : list Agent.entry) (s : St) : St :=
  foldl (fun s e => match on_message with
                    | Some cb => (cb e s).2
                    | None => s
                    end) s es.

(** A callback that returns on every entry, in every state. *)
Definition quiet {St : Type} (on_message : option (@Agent.callback St))
  : Prop :=
  forall cb e s, on_message = Some cb -> (cb e s).1 = Returned tt.

(** [str(exc)] of the [TypeError] that formatting a missing cost raises. *)
Definition no_cost_error : string :=
  "unsupported format string passed to NoneType.__format__".

(** A stream that yields a text and a result with its cost and ends. *)
Definition fine_query (_ : string) (_ : Agent.ClaudeAgentOptions)
  : Agent.stream :=
  Agent.Stream
    [Agent.AssistantMessage [Agent.TextBlock "hello"];
     Agent.ResultMessage (Some 1%Q) (Some "done")]
    None.

(** A stream whose result message lacks its cost. *)
Definition costless_query (_ : string) (_ : Agent.ClaudeAgentOptions)
  : Agent.stream :=
  Agent.Stream
    [Agent.AssistantMessage [Agent.TextBlock "hello"];
     Agent.ResultMessage None (Some "done");
     Agent.AssistantMessage [Agent.TextBlock "more"]]
    None.

(** *** Readers of the event stream *)

(** Along [views] the job is in the store and its log only grows, from
    [log] on. *)
Fixpoint log_grows (job_id : string) (log : list Agent.entry)
         (views : list (gmap string Server.job * Server.wake)) : Prop :=
  match views with
  | [] => True
  | (js, _) :: views' =>
      exists j, js !! job_id = Some j
                /\ (exists more, Server.conversation j = log ++ more)
                /\ log_grows job_id (Server.conversation j) views'
  end.

(** The frames other than keep-alives. *)
Definition is_keepalive (f : Server.frame) : bool :=
  match f with Server.keepalive_frame => true | _ => false end.

Definition content (frames : list Server.frame) : list Server.frame :=
  filter (fun f => is_keepalive f = false) frames.

(** The log of the job in the last of [views]; [log] if there is none. *)
Fixpoint last_log (job_id : string) (log : list Agent.entry)
         (views : list (gmap string Server.job * Server.wake))
  : list Agent.entry :=
  match views with
  | [] => log
  | (js, _) :: views' =>
      last_log job_id
        (from_option Server.conversation log (js !! job_id)) views'
  end.

(** Stores a reader may find: the job running with a log of zero, one and
    two entries, and the job finished with three. *)
Definition job_with (st : Server.job_state) (log : list Agent.entry)
  : gmap string Server.job :=
  {["j1" := Server.Job st url_123 log "" (Some 0%Q) None]}.

Definition running_views : list (gmap string Server.job * Server.wake) :=
  [(job_with Server.running [], Server.timed_out);
   (job_with Server.running (take 1 three_events), Server.notified);
   (job_with Server.running (take 2 three_events), Server.notified)].

Definition finished_store : gmap string Server.job :=
  job_with Server.success three_events.

(** *** Verdicts that do not depend on the time of the poll *)

Definition verdict_is (v v' : Phase3.verdict) : bool :=
  match v, v' with
  | Phase3.to_passed, Phase3.to_passed
  | Phase3.to_closed, Phase3.to_closed
  | Phase3.stay_pending, Phase3.stay_pending => true
  | _, _ => false
  end.

(** The references of [d] whose verdict under [v] is [x], in the order of
    [d]. *)
Definition with_verdict (v : string -> Phase3.verdict) (x : Phase3.verdict)
           (d : list (string * string)) : list (string * string) :=
  filter (fun lu => verdict_is (v lu.2) x = true) d.

(** Whenever it is polled, each reference of [d] gets the verdict [v]
    gives for its URL. *)
Definition settled (E : Workflow.env) (v : string -> Phase3.verdict)
           (d : PyDict.dict) : Prop :=
  forall w label url,
    (label, url) ∈ d ->
    Phase3.classify (status_at E w url) = v url.

(** The verdicts of [mixed_answers]: passed for PR 7, closed otherwise. *)
Definition mixed_verdict (url : string) : Phase3.verdict :=
  if String.eqb url "https://github.com/openshift/op/pull/7"
  then Phase3.to_passed else Phase3.to_closed.

(** A captured reference that is no pull-request link. *)
Definition odd_pr : PyDict.dict := [("api-types", "see the PR page")].

End Notions.

(* ===================================================================== *)
(** * Properties *)
(* ===================================================================== *)

(** ** Submission: validation of the proposal URL *)

Section Submission.
Import Py Re Notions.

Lemma validate_url_123 : Server._validate_ep_url url_123 = Server.Respond tt.
Proof. reflexivity. Qed.

Lemma validate_url_abc :
  exists detail,
    Server._validate_ep_url url_abc = Server.HTTPException 400 detail.
Proof. eexists. reflexivity. Qed.

Lemma validate_url_example :
  exists detail,
    Server._validate_ep_url url_example = Server.HTTPException 400 detail.
Proof. eexists. reflexivity. Qed.

(** C9. At submission the URL ending in [/pull/123] is accepted: a job is
    stored under the new id, in state [running], and its task is scheduled.
    The URLs ending in [/pull/abc] and the one on [example.com] are answered
    with the client error 400, with the job store and the scheduled tasks
    left as they were.  The command-line prompt of main.py decides the same
    way, leaving with exit status 1. *)
Theorem submit_job_validates_ep_url (uuid12 : string) (s : Server.server) :
  Server.submit_job uuid12 url_123 s =
    (Server.Respond uuid12,
     Server.Srv
       (<[uuid12 := Server.Job Server.running url_123 [] "" (Some 0%Q) None]>
          (Server.jobs s))
       (Server.tasks s ++ [Server.RunJob uuid12 url_123]))
  /\ (exists detail,
        Server.submit_job uuid12 url_abc s =
          (Server.HTTPException 400 detail, s))
  /\ (exists detail,
        Server.submit_job uuid12 url_example s =
          (Server.HTTPException 400 detail, s))
  /\ Main._prompt_ep_url url_123 = Main.Value url_123
  /\ Main._prompt_ep_url url_abc = Main.SysExit 1
  /\ Main._prompt_ep_url url_example = Main.SysExit 1.
Proof.
  split_and!.
  - unfold Server.submit_job. rewrite validate_url_123. reflexivity.
  - destruct validate_url_abc as [d Hd]. exists d.
    unfold Server.submit_job. rewrite Hd. reflexivity.
  - destruct validate_url_example as [d Hd]. exists d.
    unfold Server.submit_job. rewrite Hd. reflexivity.
  - reflexivity.
  - reflexivity.
  - reflexivity.
Qed.

End Submission.

(** ** Job store: incremental reads of the event log *)

Section EventLog.
Import Py Notions.

(** The inner loop of the stream, started at any cursor, yields the events
    from that position on and stops at the end of the log. *)
Lemma send_new_drop (conversation : list Agent.entry) (cursor : nat) :
  Server.send_new conversation cursor =
    (Server.message_frame <$> drop cursor conversation,
     Nat.max cursor (length conversation)).
Proof.
  funelim (Server.send_new conversation cursor).
  - rewrite H. simpl.
    destruct (conversation !! cursor) as [m|] eqn:Hm.
    + rewrite (drop_S _ _ _ Hm). simpl. f_equal. lia.
    + apply lookup_ge_None in Hm. lia.
  - rewrite drop_ge by lia. simpl. f_equal. lia.
Qed.

Lemma appended_nil (j : Server.job) : appended [] j = j.
Proof. destruct j. unfold appended. simpl. by rewrite app_nil_r. Qed.

Lemma on_message_appends (job_id : string) (js : gmap string Server.job)
      (j : Server.job) (evs : list Agent.entry) :
  js !! job_id = Some j ->
  Agent.for_each evs (Server.on_message job_id) js =
    (Returned tt, <[job_id := appended evs j]> js).
Proof.
  revert js j. induction evs as [|m evs IH]; intros js j Hj.
  - simpl. unfold Agent.ret. rewrite appended_nil.
    by rewrite insert_id.
  - simpl. unfold Agent.bind at 1.
    unfold Server.on_message at 1, Server.update_job. rewrite Hj.
    rewrite (IH _ (Server.append_message m j)) by apply lookup_insert_eq.
    rewrite insert_insert_eq. do 2 f_equal.
    unfold appended, Server.append_message. simpl.
    by rewrite <- app_assoc.
Qed.

(** C1. Take a job with an empty log and append [events] to it through the
    producer's callback, one call per event.  Every call returns; afterwards
    the reader's loop started at cursor 0 yields one message frame per
    event, in append order, and stops at cursor [length events]; started at
    any cursor [k <= length events] it yields exactly the frames of
    [events[k:]]. *)
Theorem read_since_yields_suffix
        (js : gmap string Server.job) (job_id : string) (j : Server.job)
        (events : list Agent.entry) :
  js !! job_id = Some j ->
  Server.conversation j = [] ->
  exists js' j',
    Agent.for_each events (Server.on_message job_id) js = (Returned tt, js')
    /\ js' !! job_id = Some j'
    /\ Server.conversation j' = events
    /\ Server.send_new (Server.conversation j') 0 =
         (Server.message_frame <$> events, length events)
    /\ forall k, k <= length events ->
         Server.send_new (Server.conversation j') k =
           (Server.message_frame <$> drop k events, length events).
Proof.
  intros Hj Hnil.
  exists (<[job_id := appended events j]> js), (appended events j).
  assert (Hc : Server.conversation (appended events j) = events)
    by (unfold appended; simpl; by rewrite Hnil).
  split_and!.
  - by apply on_message_appends.
  - apply lookup_insert_eq.
  - exact Hc.
  - rewrite Hc, send_new_drop. by rewrite drop_0.
  - intros k Hk. rewrite Hc, send_new_drop. f_equal. lia.
Qed.

Lemma read_since_yields_suffix_witness :
  exists js' j',
    Agent.for_each three_events (Server.on_message "j1")
      {["j1" := Server.Job Server.running "u" [] "" (Some 0%Q) None]}
      = (Returned tt, js')
    /\ js' !! "j1" = Some j'
    /\ Server.conversation j' = three_events
    /\ Server.send_new (Server.conversation j') 0 =
         (Server.message_frame <$> three_events, length three_events)
    /\ forall k, k <= length three_events ->
         Server.send_new (Server.conversation j') k =
           (Server.message_frame <$> drop k three_events,
            length three_events).
Proof.
  apply (read_since_yields_suffix
           {["j1" := Server.Job Server.running "u" [] "" (Some 0%Q) None]}
           "j1" (Server.Job Server.running "u" [] "" (Some 0%Q) None)
           three_events).
  - reflexivity.
  - reflexivity.
Defined.

End EventLog.

(** ** Session runner: exceptions end in a failed result *)

Section SessionRunner.
Import Py Notions.
Context {St : Type}.
Variable query : string -> Agent.ClaudeAgentOptions -> Agent.stream.
Variable claude_allowed_tools : list string.
Variable PLUGIN_DIR : string.

Lemma emit_no_callback (e : Agent.entry) (l : Agent.locals) (s : St) :
  Agent._emit None e (l, s) =
    (Returned tt,
     (Agent.Locals (Agent.output_parts l) (Agent.l_conversation l ++ [e])
                   (Agent.l_cost_usd l), s)).
Proof. reflexivity. Qed.






End SessionRunner.


(** ** Job store: what a failed job keeps *)

Section SessionInvariant.
Import Py Notions.
Context {St : Type}.
Variable query : string -> Agent.ClaudeAgentOptions -> Agent.stream.
Variable claude_allowed_tools : list string.
Variable PLUGIN_DIR : string.

(** A property [Q conv s] of the conversation gathered so far and of the
    callback's state, kept by every delivery of an entry. *)
Variable Q : list Agent.entry -> St -> Prop.
Variable on_message : option (@Agent.callback St).
Hypothesis Q_deliver :
  forall e conv s,
    Q conv s ->
    Q (conv ++ [e])
      (match on_message with Some cb => (cb e s).2 | None => s end).

Local Abbreviation keeps := (Notions.keeps Q).

Lemma keeps_ret {A} (a : A) : keeps (Agent.ret a).
Proof. intros l s H. exact H. Qed.

Lemma keeps_raise {A} (e : exn) : keeps (@Agent.raise _ A e).
Proof. intros l s H. exact H. Qed.

Lemma keeps_bind {A B} (m : Agent.M (Agent.locals * St) A)
      (f : A -> Agent.M (Agent.locals * St) B) :
  keeps m -> (forall a, keeps (f a)) -> keeps (Agent.bind m f).
Proof.
  intros Hm Hf l s H. unfold Agent.bind.
  specialize (Hm l s H).
  destruct (m (l, s)) as [[a|e] [l' s']]; cbn in *.
  - by apply Hf.
  - exact Hm.
Qed.

Lemma keeps_modify (f : Agent.locals -> Agent.locals) :
  (forall l, Agent.l_conversation (f l) = Agent.l_conversation l) ->
  keeps (Agent.modify f).
Proof. intros Hf l s H. cbn. by rewrite Hf. Qed.

Lemma keeps_emit (e : Agent.entry) : keeps (Agent._emit on_message e).
Proof.
  intros l s H. pose proof (Q_deliver e _ s H) as HQ.
  unfold Agent._emit, mbind, Agent.M_bind, Agent.bind. cbn.
  destruct on_message as [cb|]; cbn.
  - destruct (cb e s) as [[[]|x] s']; cbn in *; exact HQ.
  - exact HQ.
Qed.

Lemma keeps_for_each {A} (xs : list A)
      (body : A -> Agent.M (Agent.locals * St) unit) :
  (forall x, keeps (body x)) -> keeps (Agent.for_each xs body).
Proof.
  intros Hb. induction xs as [|x xs IH]; cbn [Agent.for_each].
  - apply keeps_ret.
  - apply keeps_bind; [apply Hb | intros _; exact IH].
Qed.

Lemma keeps_on_block (b : Agent.block) : keeps (Agent.on_block on_message b).
Proof.
  destruct b as [t|t|n i|id c ie|ty d]; cbn [Agent.on_block];
    try apply keeps_emit.
  apply keeps_bind; [by apply keeps_modify | intros _; apply keeps_emit].
Qed.

Lemma keeps_on_stream_message (m : Agent.message) :
  keeps (Agent.on_stream_message on_message m).
Proof.
  destruct m as [bs|cost result|ty d]; cbn [Agent.on_stream_message].
  - apply keeps_for_each, keeps_on_block.
  - apply keeps_bind; [by apply keeps_modify | intros _].
    apply keeps_bind.
    { destruct (truthy result); [by apply keeps_modify | apply keeps_ret]. }
    intros _. apply keeps_bind; [apply keeps_emit | intros _].
    destruct cost; [apply keeps_ret | apply keeps_raise].
  - apply keeps_emit.
Qed.

Lemma keeps_consume (q : Agent.stream) : keeps (Agent.consume on_message q).
Proof.
  unfold Agent.consume. apply keeps_bind.
  - apply keeps_for_each, keeps_on_stream_message.
  - intros _. destruct (Agent.ending q); [apply keeps_raise | apply keeps_ret].
Qed.

(** What holds of the empty conversation and the state at the call holds of
    the conversation returned and the state at the return. *)
Lemma run_agent_keeps (prompt working_dir system_prompt : string) (s : St) :
  Q [] s ->
  exists r s',
    Agent.run_agent query claude_allowed_tools PLUGIN_DIR prompt working_dir
                    system_prompt on_message s = (Returned r, s')
    /\ Q (Agent.conversation r) s'
    /\ (Agent.success r = false -> Agent.output r = "").
Proof.
  intros H0.
  unfold Agent.run_agent, Agent.run_agent_body, Agent.try_except.
  set (q := query _ _).
  pose proof (keeps_consume q (Agent.Locals [] [] (Some 0%Q)) s H0) as Hk.
  unfold mbind, Agent.M_bind, Agent.bind.
  destruct (Agent.consume on_message q _) as [[[]|e] [l s']]; cbn in *.
  - eexists _, _. split; [reflexivity|]. split; [exact Hk|]. by cbn.
  - eexists _, _. split; [reflexivity|]. split; [exact Hk|]. by cbn.
Qed.

End SessionInvariant.

Section FailedJob.
Import Py Notions.
Variable query : string -> Agent.ClaudeAgentOptions -> Agent.stream.
Variable claude_allowed_tools : list string.
Variable PLUGIN_DIR : string.
Variable uuid12 : string.
Variable WORKFLOW_SYSTEM_PROMPT : string -> string.
Variable TEAM_REPOS_CSV : string.

Lemma update_job_present (job_id : string) (f : Server.job -> Server.job)
      (js : gmap string Server.job) (j : Server.job) :
  js !! job_id = Some j ->
  Server.update_job job_id f js = (Returned tt, <[job_id := f j]> js).
Proof. intros H. unfold Server.update_job. by rewrite H. Qed.



End FailedJob.



(** ** Coroutines run alone *)

Section RunAlone.
Import Py Aio Notions.
Context {W : Type}.

Lemma run_alone_bind {A B} (c : coro W A) (f : A -> coro W B) (w : W) :
  run_alone (c ≫= f) w =
    match run_alone c w with
    | (w', Returned a) => run_alone (f a) w'
    | (w', Raised e) => (w', Raised e)
    end.
Proof.
  unfold mbind, coro_bind. revert w.
  induction c as [[a|e]|k IH|w0 k IH|k IH]; intros w; cbn; auto.
Qed.

Lemma wp_ret {A} (a : A) (w : W) (P : W -> A -> Prop) :
  P w a -> wp (mret a) w P.
Proof. intros H. exact H. Qed.

Lemma wp_bind {A B} (c : coro W A) (f : A -> coro W B) (w : W)
      (P : W -> B -> Prop) :
  wp c w (fun w' a => wp (f a) w' P) -> wp (c ≫= f) w P.
Proof.
  unfold wp. rewrite run_alone_bind.
  destruct (run_alone c w) as [w' [a|e]]; auto.
Qed.

Lemma wp_mono {A} (c : coro W A) (w : W) (P P' : W -> A -> Prop) :
  wp c w P -> (forall w' a, P w' a -> P' w' a) -> wp c w P'.
Proof.
  unfold wp. destruct (run_alone c w) as [w' [a|e]]; auto.
Qed.

Lemma wp_get (w : W) (P : W -> W -> Prop) : P w w -> wp get w P.
Proof. intros H. exact H. Qed.

Lemma wp_put (w0 w : W) (P : W -> unit -> Prop) : P w0 tt -> wp (put w0) w P.
Proof. intros H. exact H. Qed.

Lemma wp_modify (f : W -> W) (w : W) (P : W -> unit -> Prop) :
  P (f w) tt -> wp (modify f) w P.
Proof. intros H. exact H. Qed.

Lemma wp_suspend (w : W) (P : W -> unit -> Prop) : P w tt -> wp suspend w P.
Proof. intros H. exact H. Qed.

Lemma wp_run {A} (c : coro W A) (w : W) (P : W -> A -> Prop) :
  wp c w P -> exists w' a, run_alone c w = (w', Returned a) /\ P w' a.
Proof.
  unfold wp. destruct (run_alone c w) as [w' [a|e]]; [eauto | tauto].
Qed.

Lemma run_wp {A} (c : coro W A) (w w' : W) (a : A) (P : W -> A -> Prop) :
  run_alone c w = (w', Returned a) -> P w' a -> wp c w P.
Proof. unfold wp. by intros ->. Qed.

End RunAlone.

(** ** Insertion-ordered dicts *)

Section Dicts.
Import PyDict Notions.

Lemma keys_setitem_fresh (k v : string) (d : dict) :
  k ∉ keys d -> keys (setitem k v d) = keys d ++ [k].
Proof.
  unfold keys. induction d as [|[k' v'] d IH]; intros Hk; cbn.
  - reflexivity.
  - cbn in Hk. apply not_elem_of_cons in Hk as [Hne Hk].
    destruct (decide (k = k')); [done|]. cbn. by rewrite IH.
Qed.

Lemma keys_delitem_perm (k : string) (d : dict) :
  k ∈ keys d -> keys d ≡ₚ k :: keys (delitem k d).
Proof.
  unfold keys. induction d as [|[k' v'] d IH]; intros Hk; cbn in *.
  - by apply elem_of_nil in Hk.
  - destruct (decide (k = k')) as [->|Hne]; [done|].
    apply elem_of_cons in Hk as [Hk|Hk]; [done|].
    cbn. rewrite (IH Hk) at 1. apply Permutation_swap.
Qed.

Lemma keys_delitem_other (k x : string) (d : dict) :
  x <> k -> x ∈ keys d -> x ∈ keys (delitem k d).
Proof.
  unfold keys. intros Hne. induction d as [|[k' v'] d IH]; cbn; [done|].
  intros Hx. destruct (decide (k = k')) as [->|Hk].
  - apply elem_of_cons in Hx as [Hx|Hx]; [done|exact Hx].
  - cbn. apply elem_of_cons in Hx as [Hx|Hx].
    + subst. apply list_elem_of_here.
    + apply list_elem_of_further. by apply IH.
Qed.

Lemma is_empty_keys (d : dict) : Phase3.is_empty d = true <-> d = [].
Proof. destruct d; cbn; split; congruence. Qed.

(** A verdict for a reference that is still pending keeps the three dicts
    a partition of the labels. *)
Lemma moved_partition (urls : dict) (v : Phase3.verdict) (label url : string)
      (t : Phase3.tables) :
  partition_of urls t ->
  label ∈ keys (Phase3.remaining t) ->
  partition_of urls (moved v label url t).
Proof.
  intros [Hnd Hperm] Hin.
  destruct t as [R P F]. cbn in *.
  assert (HP : label ∉ keys P).
  { intros HinP. apply NoDup_app in Hnd as (_ & Hd & _).
    apply (Hd label HinP). apply elem_of_app. by right. }
  assert (HF : label ∉ keys F).
  { intros HinF. apply NoDup_app in Hnd as (_ & _ & Hnd).
    apply NoDup_app in Hnd as (_ & Hd & _). by apply (Hd label HinF). }
  pose proof (keys_delitem_perm label R Hin) as HR.
  assert (Hgoal : forall L, L ≡ₚ keys P ++ keys F ++ keys R ->
                            NoDup L /\ L ≡ₚ keys urls).
  { intros L HL. split.
    - by rewrite HL.
    - by rewrite HL. }
  destruct v; unfold partition_of; cbn.
  - apply Hgoal. rewrite (keys_setitem_fresh _ _ _ HP), HR.
    rewrite <- !app_assoc. cbn.
    apply Permutation_app_head.
    rewrite <- Permutation_middle. reflexivity.
  - apply Hgoal. rewrite (keys_setitem_fresh _ _ _ HF), HR.
    apply Permutation_app_head. rewrite <- app_assoc. cbn.
    apply Permutation_app_head. reflexivity.
  - by split.
Qed.

End Dicts.

(** ** CI watcher: one poll *)

Section Poll.
Import Py Re Aio Workflow Notions.
Variable E : env.

Lemma check_pr_status_run (url : string) (w : world) :
  run_alone (Phase3._check_pr_status E url) w =
    (after_check E w url, Returned (status_at E w url)).
Proof.
  unfold Phase3._check_pr_status, after_check, status_at.
  destruct (re_match Phase3.PR_PATTERN url)
    as [[g0 [|repo [|num [|x l]]]]|]; try reflexivity.
  rewrite run_alone_bind. cbn.
  destruct (gh E (length (gh_calls w)) repo num); reflexivity.
Qed.

Lemma poll_one_run (start : Z) (t : Phase3.tables) (label url : string)
      (w : world) :
  exists line,
    run_alone (Phase3.poll_one E start t (label, url)) w =
      (print line (after_check E w url),
       Returned (moved (Phase3.classify (status_at E w url)) label url t)).
Proof.
  unfold Phase3.poll_one. rewrite run_alone_bind, check_pr_status_run.
  rewrite run_alone_bind. cbn [run_alone get].
  destruct (Phase3.classify (status_at E w url)); eexists; reflexivity.
Qed.

Lemma after_check_state (url : string) (w : world) :
  state (after_check E w url) = state w.
Proof.
  unfold after_check.
  by destruct (re_match Phase3.PR_PATTERN url)
    as [[g0 [|repo [|num [|x l]]]]|].
Qed.

Lemma after_check_now (url : string) (w : world) :
  (forall n, 0 <= gh_secs E n)%Z ->
  (now w <= now (after_check E w url))%Z.
Proof.
  intros Hsecs. unfold after_check.
  destruct (re_match Phase3.PR_PATTERN url)
    as [[g0 [|repo [|num [|x l]]]]|]; cbn; try lia.
  specialize (Hsecs (length (gh_calls w))). lia.
Qed.

Lemma after_check_files (url : string) (w : world) :
  files (after_check E w url) = files w
  /\ sleeps (after_check E w url) = sleeps w.
Proof.
  unfold after_check.
  by destruct (re_match Phase3.PR_PATTERN url)
    as [[g0 [|repo [|num [|x l]]]]|].
Qed.

(** One pass over a snapshot of the pending references: it returns, and the
    three dicts stay a partition of the labels. *)
Lemma poll_all_partition (urls : PyDict.dict) (start : Z)
      (snapshot : list (string * string)) (t : Phase3.tables) (w : world) :
  partition_of urls t ->
  NoDup (PyDict.keys snapshot) ->
  (forall k, k ∈ PyDict.keys snapshot ->
             k ∈ PyDict.keys (Phase3.remaining t)) ->
  wp (Phase3.poll_all E start snapshot t) w
     (fun w' t' =>
        partition_of urls t'
        /\ ((forall n, 0 <= gh_secs E n)%Z -> (now w <= now w')%Z)).
Proof.
  revert t w. induction snapshot as [|[label url] snapshot IH];
    intros t w Hpart Hnd Hin.
  - cbn. apply wp_ret. split; [done|lia].
  - cbn [Phase3.poll_all]. apply wp_bind.
    destruct (poll_one_run start t label url w) as [line Hrun].
    eapply run_wp; [exact Hrun|].
    apply NoDup_cons in Hnd as [Hfresh Hnd].
    eapply wp_mono.
    + apply IH.
      * apply moved_partition; [done|]. apply Hin. apply list_elem_of_here.
      * exact Hnd.
      * intros k Hk.
        assert (Hne : k <> label) by (intros ->; done).
        assert (Hk' : k ∈ PyDict.keys (Phase3.remaining t))
          by (apply Hin; by apply list_elem_of_further).
        destruct (Phase3.classify _); cbn;
          auto using keys_delitem_other.
    + cbn. intros w' t' [Hp Hnow]. split; [done|].
      intros Hsecs. specialize (Hnow Hsecs).
      pose proof (after_check_now url w Hsecs). cbn in Hnow. lia.
Qed.

End Poll.

(** ** CI watcher: the polling loop *)

Section WatchLoop.
Import Py Re Aio Workflow Notions.
Variable E : env.
Variable urls : PyDict.dict.
Variables start wait interval : Z.

Lemma watch_done (fuel : nat) (t : Phase3.tables) (w : world) :
  Phase3.is_empty (Phase3.remaining t) = true ->
  run_alone (Phase3.watch E fuel start wait interval t) w =
    (w, Returned (Some t)).
Proof. intros H. destruct fuel; cbn; rewrite H; reflexivity. Qed.

Lemma partition_remaining_NoDup (t : Phase3.tables) :
  partition_of urls t -> NoDup (PyDict.keys (Phase3.remaining t)).
Proof.
  intros [Hnd _]. apply NoDup_app in Hnd as (_ & _ & Hnd).
  by apply NoDup_app in Hnd as (_ & _ & Hnd).
Qed.

(** The loop returns.  When it ends by itself the three dicts partition the
    labels; it can only run out of passes when the clock permits more of
    them than [fuel]: with a poll interval of a second or more and provider
    calls that take no negative time, [wait * 60] passes always suffice. *)
Lemma watch_spec (fuel : nat) (t : Phase3.tables) (w : world) :
  partition_of urls t ->
  wp (Phase3.watch E fuel start wait interval t) w
     (fun w' r =>
        match r with
        | Some t' => partition_of urls t'
        | None =>
            (1 <= interval)%Z -> (forall n, 0 <= gh_secs E n)%Z ->
            fuel < Z.to_nat (wait * 60 - (now w - start))
        end).
Proof.
  revert t w. induction fuel as [|fuel IH]; intros t w Hpart.
  - cbn [Phase3.watch]. apply wp_bind, wp_get.
    destruct (negb _ && _) eqn:Hcond.
    + apply wp_ret. intros _ _.
      apply andb_true_iff in Hcond as [_ Hlt]. apply Z.ltb_lt in Hlt. lia.
    + by apply wp_ret.
  - cbn [Phase3.watch]. apply wp_bind, wp_get.
    destruct (negb _ && _) eqn:Hcond; [|by apply wp_ret].
    apply andb_true_iff in Hcond as [_ Hlt]. apply Z.ltb_lt in Hlt.
    apply wp_bind. eapply wp_mono.
    { apply (poll_all_partition E urls start _ t w Hpart).
      - by apply partition_remaining_NoDup.
      - auto. }
    cbn beta. intros w1 t1 [Hpart1 Hnow1].
    destruct (Phase3.is_empty (Phase3.remaining t1)) eqn:Hempty; cbn [negb].
    + apply wp_bind, wp_ret.
      eapply run_wp; [by apply watch_done|]. exact Hpart1.
    + apply wp_bind. unfold Phase3.sleep.
      apply wp_bind, wp_suspend. apply wp_modify.
      eapply wp_mono; [apply (IH _ _ Hpart1)|].
      cbn. intros w' [t'|]; [done|].
      intros Hfuel Hint Hsecs. specialize (Hfuel Hint Hsecs).
      specialize (Hnow1 Hsecs). lia.
Qed.

End WatchLoop.

(** ** CI watcher: the report *)

Section WatchReport.
Import Py Re Aio Workflow Notions.
Variable E : env.

Lemma partition_disjoint_cover (urls : PyDict.dict) (t : Phase3.tables) :
  partition_of urls t -> disjoint_cover urls t.
Proof.
  intros [Hnd Hperm]. unfold disjoint_cover.
  apply NoDup_app in Hnd as (_ & HPx & Hnd).
  apply NoDup_app in Hnd as (_ & HFx & _).
  split_and!.
  - intros x HP HF. apply (HPx x HP). apply elem_of_app. by left.
  - intros x HP HR. apply (HPx x HP). apply elem_of_app. by right.
  - intros x HF HR. by apply (HFx x HF).
  - intros x. rewrite <- Hperm. rewrite !elem_of_app. tauto.
Qed.

Lemma print_section_runs (title : string) (d : PyDict.dict) (w : world) :
  wp (Phase3.print_section title d) w (fun _ _ => True).
Proof.
  unfold Phase3.print_section. destruct (negb _); [|by apply wp_ret].
  apply wp_bind, wp_modify. by apply wp_modify.
Qed.

Lemma final_report_runs (s : WorkflowState) (wait : Z) (t : Phase3.tables)
      (w : world) :
  wp (Phase3.final_report E s wait t) w (fun _ _ => True).
Proof.
  unfold Phase3.final_report.
  do 3 apply wp_bind, wp_modify.
  do 3 (apply wp_bind; eapply wp_mono; [apply print_section_runs|];
        cbn beta; intros ? ? _).
  apply wp_bind. unfold write_state_summary.
  apply wp_bind, wp_modify. apply wp_ret. by apply wp_modify.
Qed.

(** With PRs to watch, [run] returns, and not as if there were none; what
    it reports partitions the labels; it can only run out of passes when
    [fuel] is below [wait * 60]. *)
Lemma run_spec (max_wait_mins poll_secs : option Z) (fuel : nat) (w : world) :
  pr_urls (state w) <> [] ->
  PyDict.wf (pr_urls (state w)) ->
  wp (Phase3.run E max_wait_mins poll_secs fuel) w
     (fun _ r =>
        match r with
        | Phase3.nothing_to_watch => False
        | Phase3.reported t => partition_of (pr_urls (state w)) t
        | Phase3.out_of_fuel =>
            (1 <= Phase3.effective_interval poll_secs)%Z ->
            (forall n, 0 <= gh_secs E n)%Z ->
            fuel < Z.to_nat (Phase3.effective_wait max_wait_mins * 60)
        end).
Proof.
  intros Hne Hwf. unfold Phase3.run, get_state.
  apply wp_bind. apply wp_bind, wp_get. apply wp_ret.
  destruct (Phase3.is_empty (pr_urls (state w))) eqn:Hempty.
  { by apply is_empty_keys in Hempty. }
  do 4 apply wp_bind, wp_modify. apply wp_bind, wp_get.
  apply wp_bind. eapply wp_mono.
  { apply (watch_spec E (pr_urls (state w))). split; cbn.
    - exact Hwf.
    - reflexivity. }
  cbn beta. intros w1 [t|] Hpost.
  - apply wp_bind. eapply wp_mono; [apply final_report_runs|].
    cbn beta. intros w2 _ _. by apply wp_ret.
  - apply wp_ret. intros Hint Hsecs. specialize (Hpost Hint Hsecs).
    lia.
Qed.


End WatchReport.


(** ** CI watcher: the verdict of a poll *)

Section Verdict.
Import Py Re Aio Workflow Notions.

Lemma good_check_bool (c : check) :
  good_check c <->
  Phase3.completed c = true /\ Phase3.non_failing c = true.
Proof.
  unfold good_check, Phase3.completed, Phase3.non_failing.
  rewrite !orb_true_iff, !bool_decide_eq_true. tauto.
Qed.

Lemma forallb_good (cs : list check) :
  forallb Phase3.non_failing
          (filter (fun c => Phase3.completed c = true) cs)
  && forallb Phase3.completed cs = true
  <-> Forall good_check cs.
Proof.
  induction cs as [|c cs IH].
  - cbn. split; [constructor|done].
  - rewrite Forall_cons, <- IH, good_check_bool.
    rewrite filter_cons. cbn [forallb].
    destruct (decide (Phase3.completed c = true)) as [Hc|Hc].
    + rewrite Hc. cbn [forallb]. rewrite !andb_true_iff. tauto.
    + apply not_true_is_false in Hc. rewrite Hc.
      rewrite andb_false_r. cbn. split; [done|]. intros [[? _] _]. done.
Qed.

(** [checks_pass] of a response that was read: some check, every check
    completed, every check with a non-failing conclusion. *)
Lemma checks_pass_iff (data : pr_data) :
  Phase3.checks_pass (Phase3.status_of_data data) = true
  <-> default [] (statusCheckRollup data) <> []
      /\ Forall good_check (default [] (statusCheckRollup data)).
Proof.
  unfold Phase3.status_of_data. cbn [Phase3.checks_pass].
  set (cs := default [] (statusCheckRollup data)).
  rewrite <- forallb_good.
  rewrite !andb_true_iff, bool_decide_eq_true.
  destruct cs as [|c cs]; cbn [length].
  - split; [lia | intros [? _]; done].
  - split.
    + intros (? & _ & ?). split; [done|]. by split.
    + intros (_ & ? & ?). split; [done|]. split; [lia|done].
Qed.

Lemma classify_passed_iff (st : Phase3.pr_status) :
  Phase3.classify st = Phase3.to_passed <-> Phase3.checks_pass st = true.
Proof.
  unfold Phase3.classify. destruct (Phase3.checks_pass st).
  - done.
  - destruct (bool_decide _); split; discriminate.
Qed.

(** What a poll makes of a reference whose provider call gave a
    response. *)
Lemma status_at_json (E : env) (w : world) (url g0 repo num : string)
      (data : pr_data) :
  re_match Phase3.PR_PATTERN url = Some (Match g0 [repo; num]) ->
  gh E (length (gh_calls w)) repo num = gh_json data ->
  status_at E w url = Phase3.status_of_data data.
Proof. intros Hm Hgh. unfold status_at. by rewrite Hm, Hgh. Qed.

(** C5. (1) For every response of the provider, the verdict of the poll is
    "passed" if and only if the response has at least one check and every
    check has status COMPLETED and a conclusion among SUCCESS, NEUTRAL and
    SKIPPED.  (2) A response without checks is never "passed".  (3) The
    checks [COMPLETED/SUCCESS, COMPLETED/NEUTRAL] are "passed", whatever
    the other fields.  (4) In the loop body this verdict is what moves the
    reference: polled with a response, the reference goes from the pending
    dict to the passed one when the condition of (1) holds, and the passed
    dict stays as it is when it does not.  (5) A provider call that fails or raises is never "passed". *)
Theorem passed_iff_all_checks_completed_and_non_failing :
  (forall data,
     Phase3.classify (Phase3.status_of_data data) = Phase3.to_passed
     <-> default [] (statusCheckRollup data) <> []
         /\ Forall good_check (default [] (statusCheckRollup data)))
  /\ (forall data,
        default [] (statusCheckRollup data) = [] ->
        Phase3.classify (Phase3.status_of_data data) <> Phase3.to_passed)
  /\ (forall st m ms,
        Phase3.classify
          (Phase3.status_of_data
             (PrData st (Some [success_check; neutral_check]) m ms))
        = Phase3.to_passed)
  /\ (forall E start t label url w g0 repo num data,
        re_match Phase3.PR_PATTERN url = Some (Match g0 [repo; num]) ->
        gh E (length (gh_calls w)) repo num = gh_json data ->
        exists w' t',
          run_alone (Phase3.poll_one E start t (label, url)) w
            = (w', Returned t')
          /\ (default [] (statusCheckRollup data) <> []
              /\ Forall good_check (default [] (statusCheckRollup data)) ->
              t' = Phase3.Tables
                     (PyDict.delitem label (Phase3.remaining t))
                     (PyDict.setitem label url (Phase3.passed t))
                     (Phase3.failed t))
          /\ (~ (default [] (statusCheckRollup data) <> []
                 /\ Forall good_check
                           (default [] (statusCheckRollup data))) ->
              Phase3.passed t' = Phase3.passed t))
  /\ (forall e,
        Phase3.classify (Phase3.Status "error" false false None None None e)
        = Phase3.stay_pending).
Proof.
  split_and!.
  - intros data. by rewrite classify_passed_iff, checks_pass_iff.
  - intros data Hnil. rewrite classify_passed_iff, checks_pass_iff.
    intros [Hne _]. done.
  - intros st m ms. apply classify_passed_iff, checks_pass_iff. cbn.
    split; [done|].
    repeat first [apply Forall_nil | apply Forall_cons; split];
      (split; cbn; auto).
  - intros E start t label url w g0 repo num data Hm Hgh.
    destruct (poll_one_run E start t label url w) as [line Hrun].
    rewrite (status_at_json E w url g0 repo num data Hm Hgh) in Hrun.
    eexists _, _. split; [exact Hrun|]. split.
    + intros Hgood. apply checks_pass_iff, classify_passed_iff in Hgood.
      by rewrite Hgood.
    + intros Hbad.
      destruct (Phase3.classify (Phase3.status_of_data data)) eqn:Hc;
        cbn [moved]; try reflexivity.
      exfalso. apply Hbad. by apply checks_pass_iff, classify_passed_iff.
  - intros e. reflexivity.
Qed.

End Verdict.

Lemma passed_iff_all_checks_completed_and_non_failing_witness :
  (exists w' t',
     Aio.run_alone
       (Phase3.poll_one (Notions.env_with Notions.mixed_answers) 1000
          (Phase3.Tables Notions.two_prs [] [])
          ("api-types", "https://github.com/openshift/op/pull/7"))
       (Notions.initial_world Notions.two_prs) = (w', Py.Returned t')
     /\ t' = Phase3.Tables
               [("controller", "https://github.com/openshift/op/pull/8")]
               [("api-types", "https://github.com/openshift/op/pull/7")]
               [])
  /\ Phase3.classify
       (Phase3.status_of_data
          (Workflow.PrData (Some "OPEN") (Some []) None None))
     <> Phase3.to_passed.
Proof.
  pose proof passed_iff_all_checks_completed_and_non_failing
    as (_ & Hnone & _ & Hpoll & _).
  split.
  - destruct (Hpoll (Notions.env_with Notions.mixed_answers) 1000%Z
                (Phase3.Tables Notions.two_prs [] [])
                "api-types" "https://github.com/openshift/op/pull/7"
                (Notions.initial_world Notions.two_prs)
                "https://github.com/openshift/op/pull/7" "openshift/op" "7"
                (Workflow.PrData (Some "OPEN")
                   (Some [Notions.success_check; Notions.neutral_check])
                   (Some "MERGEABLE") (Some "CLEAN")))
      as (w' & t' & Hrun & Hgood & _).
    + reflexivity.
    + reflexivity.
    + exists w', t'. split; [exact Hrun|].
      rewrite Hgood; [reflexivity|].
      split; [discriminate|].
      repeat first [apply Forall_nil | apply Forall_cons; split];
        (split; cbn; auto).
  - apply Hnone. reflexivity.
Defined.

(** ** CI watcher: closed references and the wait limit *)

Section ClosedAndWait.
Import Py Re Aio Workflow Notions.

Lemma classify_closed (st : Phase3.pr_status) :
  Phase3.st_state st = "CLOSED" ->
  Phase3.classify st =
    if Phase3.checks_pass st then Phase3.to_passed else Phase3.to_closed.
Proof.
  intros Hst. unfold Phase3.classify.
  destruct (Phase3.checks_pass st); [done|].
  by rewrite bool_decide_eq_true_2.
Qed.

(** C4, as the code has it.  When the provider reports the state CLOSED,
    the verdict of the poll is "closed" unless the checks pass (at least one
    check, all of them COMPLETED with a conclusion among SUCCESS, NEUTRAL
    and SKIPPED); in the loop body the reference then goes from the pending
    dict to the closed/failed one.  A CLOSED reference whose checks pass
    gets the verdict "passed": the checks are looked at first. *)
Theorem closed_unless_checks_pass :
  (forall data,
     data_state data = Some "CLOSED" ->
     (~ (default [] (statusCheckRollup data) <> []
         /\ Forall good_check (default [] (statusCheckRollup data))) ->
      Phase3.classify (Phase3.status_of_data data) = Phase3.to_closed)
     /\ (default [] (statusCheckRollup data) <> []
         /\ Forall good_check (default [] (statusCheckRollup data)) ->
         Phase3.classify (Phase3.status_of_data data) = Phase3.to_passed))
  /\ (forall E start t label url w g0 repo num data,
        re_match Phase3.PR_PATTERN url = Some (Match g0 [repo; num]) ->
        gh E (length (gh_calls w)) repo num = gh_json data ->
        data_state data = Some "CLOSED" ->
        ~ (default [] (statusCheckRollup data) <> []
           /\ Forall good_check (default [] (statusCheckRollup data))) ->
        exists w',
          run_alone (Phase3.poll_one E start t (label, url)) w =
            (w',
             Returned
               (Phase3.Tables (PyDict.delitem label (Phase3.remaining t))
                              (Phase3.passed t)
                              (PyDict.setitem label url (Phase3.failed t))))).
Proof.
  assert (Hverdict : forall data,
             data_state data = Some "CLOSED" ->
             Phase3.classify (Phase3.status_of_data data) =
               if Phase3.checks_pass (Phase3.status_of_data data)
               then Phase3.to_passed else Phase3.to_closed).
  { intros data Hst. apply classify_closed. cbn. by rewrite Hst. }
  split.
  - intros data Hst. rewrite (Hverdict data Hst). split.
    + intros Hbad.
      destruct (Phase3.checks_pass _) eqn:Hc; [|done].
      exfalso. by apply Hbad, checks_pass_iff.
    + intros Hgood. apply checks_pass_iff in Hgood. by rewrite Hgood.
  - intros E start t label url w g0 repo num data Hm Hgh Hst Hbad.
    destruct (poll_one_run E start t label url w) as [line Hrun].
    rewrite (status_at_json E w url g0 repo num data Hm Hgh) in Hrun.
    rewrite (Hverdict data Hst) in Hrun.
    destruct (Phase3.checks_pass _) eqn:Hc.
    + exfalso. by apply Hbad, checks_pass_iff.
    + eexists. exact Hrun.
Qed.

Lemma closed_unless_checks_pass_witness :
  Phase3.classify
    (Phase3.status_of_data
       (PrData (Some "CLOSED") (Some [running_check]) None None))
    = Phase3.to_closed
  /\ Phase3.classify (Phase3.status_of_data closed_green) = Phase3.to_passed
  /\ exists w',
       run_alone
         (Phase3.poll_one (env_with mixed_answers) 1000
            (Phase3.Tables two_prs [] [])
            ("controller", "https://github.com/openshift/op/pull/8"))
         (initial_world two_prs)
       = (w',
          Returned
            (Phase3.Tables
               [("api-types", "https://github.com/openshift/op/pull/7")]
               []
               [("controller", "https://github.com/openshift/op/pull/8")])).
Proof.
  pose proof closed_unless_checks_pass as [Hverdict Hpoll].
  assert (Hbad : ~ ([running_check] <> []
                    /\ Forall good_check [running_check])).
  { intros [_ H]. apply Forall_cons in H as [[H _] _]. discriminate. }
  split_and!.
  - apply (Hverdict (PrData (Some "CLOSED") (Some [running_check])
                            None None)); [reflexivity|exact Hbad].
  - apply (Hverdict closed_green); [reflexivity|].
    split; [discriminate|].
    apply Forall_cons.
    split; [split; [reflexivity | left; reflexivity] | done].
  - apply (Hpoll (env_with mixed_answers) 1000%Z
                 (Phase3.Tables two_prs [] []) "controller"
                 "https://github.com/openshift/op/pull/8"
                 (initial_world two_prs)
                 "https://github.com/openshift/op/pull/8" "openshift/op" "8"
                 (PrData (Some "CLOSED") (Some [running_check])
                         (Some "MERGEABLE") (Some "CLEAN")));
      [reflexivity | reflexivity | reflexivity | exact Hbad].
Defined.

(** C4 as stated fails: the provider reports the state CLOSED with one
    check, COMPLETED/SUCCESS.  The verdict of the poll is "passed", not
    "closed", and the loop body files the reference under passed. *)
Lemma closed_with_passing_checks_is_passed :
  data_state closed_green = Some "CLOSED"
  /\ Phase3.classify (Phase3.status_of_data closed_green) = Phase3.to_passed
  /\ Phase3.classify (Phase3.status_of_data closed_green) <> Phase3.to_closed
  /\ (run_alone
        (Phase3.poll_one (env_with closed_green_answers) 1000
           (Phase3.Tables one_pr [] [])
           ("api-types", "https://github.com/openshift/op/pull/7"))
        (initial_world one_pr)).2
     = Returned (Phase3.Tables [] one_pr []).
Proof. split_and!; [reflexivity | reflexivity | discriminate | reflexivity]. Qed.

(** C3 against the code.  A maximum wait of 0 is not kept: [0 or
    MAX_CI_WAIT_MINS] is the default, 120 minutes, so the phase called with
    0 is the phase called without a limit of its own.  With one pending
    reference, calls of a second and the default sleep of 60 s it polls 119
    times and sleeps 119 times before it reports the reference timed out. *)
Theorem zero_max_wait_is_the_default_wait :
  Phase3.effective_wait (Some 0%Z) = 120%Z
  /\ (forall E poll_secs fuel,
        Phase3.run E (Some 0%Z) poll_secs fuel =
          Phase3.run E None poll_secs fuel)
  /\ (let r := run_alone
                 (Phase3.run (env_with pending_answers) (Some 0%Z) None 200)
                 (initial_world one_pr) in
      length (gh_calls r.1) = 119
      /\ length (sleeps r.1) = 119
      /\ r.2 = Returned (Phase3.reported (Phase3.Tables one_pr [] []))).
Proof.
  split_and!; [reflexivity | reflexivity |].
  vm_compute. split_and!; reflexivity.
Qed.

End ClosedAndWait.

(** ** Fan-out phase: two tasks, each run to its end *)

Section Gather.
Import Py Aio Notions.
Context {W A : Type}.








End Gather.

Section FanOut.
Import Py Aio Workflow Notions.




End FanOut.


(** ** Scripted turns and the follow-up turn *)

Section Turns.
Import Py Re Aio Workflow Utils Notions.
Variable E : env.

Lemma wp_client_query (c : client) (p : string) (w : world)
      (P : world -> client -> Prop) :
  P (log_turn (c_opts c) p w) (Client (c_opts c) (c_sent c ++ [p])) ->
  wp (client_query c p) w P.
Proof. intros H. exact H. Qed.

Lemma wp_collect_response (c : client) (w : world)
      (P : world -> list Agent.message -> Prop) :
  Agent.ending (sdk E (c_opts c) (c_sent c)) = None ->
  P (with_now (now w + turn_secs E (length (turns w)))%Z w)
    (Agent.items (sdk E (c_opts c) (c_sent c))) ->
  wp (collect_response E c) w P.
Proof.
  intros Hend H. unfold collect_response.
  apply wp_bind, wp_suspend. apply wp_bind, wp_get. apply wp_bind, wp_put.
  rewrite Hend. by apply wp_ret.
Qed.

Lemma wp_with_client {A} (opts : agent_options) (body : client -> task A)
      (w : world) (P : world -> A -> Prop) :
  sdk_connect E opts = None ->
  wp (body (Client opts [])) w P ->
  wp (with_client E opts body) w P.
Proof.
  intros Hc H. unfold with_client. apply wp_bind, wp_suspend.
  rewrite Hc. apply wp_bind. eapply wp_mono; [exact H|].
  cbn beta. intros w' a HP. apply wp_bind, wp_suspend. by apply wp_ret.
Qed.

(** The turns of a sub-agent session of the fan-out phase.  When the
    response to the scripted turn holds a PR link, that turn is the only
    one.  When it holds none, exactly one follow-up turn is sent, the link
    is searched for once more, in the text of the follow-up response alone,
    and the session goes on with what that search gives, a link or none. *)
Lemma scripted_turns_spec (prompt : string) (c : client) (w : world) :
  let q1 := sdk E (c_opts c) (c_sent c ++ [prompt]) in
  let q2 := sdk E (c_opts c)
                (c_sent c ++ [prompt] ++ [Phase2.corrective_prompt]) in
  let text1 := extract_text (Agent.items q1) in
  let text2 := extract_text (Agent.items q2) in
  Agent.ending q1 = None ->
  (truthy (extract_pr_url text1) = true ->
   exists w',
     run_alone (Phase2.scripted_turns E prompt c) w =
       (w', Returned (extract_pr_url text1, text1))
     /\ turns w' = turns w ++ [(c_opts c, prompt)])
  /\ (truthy (extract_pr_url text1) = false ->
      Agent.ending q2 = None ->
      exists w',
        run_alone (Phase2.scripted_turns E prompt c) w =
          (w', Returned (extract_pr_url text2, text1 +:+ nl +:+ text2))
        /\ turns w' = turns w ++ [(c_opts c, prompt);
                                  (c_opts c, Phase2.corrective_prompt)]).
Proof.
  intros q1 q2 text1 text2 Hend1. split.
  - intros Hfound.
    assert (Hwp : wp (Phase2.scripted_turns E prompt c) w
                     (fun w' a => a = (extract_pr_url text1, text1)
                                  /\ turns w' = turns w ++ [(c_opts c, prompt)])).
    { unfold Phase2.scripted_turns.
      apply wp_bind, wp_client_query. apply wp_bind.
      apply wp_collect_response; [exact Hend1|].
      cbn [c_opts c_sent]. fold q1 text1. rewrite Hfound. cbn [negb]. by apply wp_ret. }
    destruct (wp_run _ _ _ Hwp) as (w' & a & Hrun & -> & Ht). eauto.
  - intros Hnone Hend2.
    assert (Hwp : wp (Phase2.scripted_turns E prompt c) w
                     (fun w' a =>
                        a = (extract_pr_url text2, text1 +:+ nl +:+ text2)
                        /\ turns w' =
                             turns w ++ [(c_opts c, prompt);
                                         (c_opts c, Phase2.corrective_prompt)])).
    { unfold Phase2.scripted_turns.
      apply wp_bind, wp_client_query. apply wp_bind.
      apply wp_collect_response; [exact Hend1|].
      cbn [c_opts c_sent]. fold q1 text1. rewrite Hnone. cbn [negb].
      apply wp_bind, wp_client_query. apply wp_bind.
      apply wp_collect_response.
      { cbn [c_opts c_sent]. rewrite <- app_assoc. exact Hend2. }
      cbn [c_opts c_sent]. rewrite <- app_assoc. fold q2 text2.
      apply wp_ret. cbn. by rewrite <- app_assoc. }
    destruct (wp_run _ _ _ Hwp) as (w' & a & Hrun & -> & Ht). eauto.
Qed.

Lemma wp_when_some {A} (o : option A) (f : A -> world -> world) (w : world)
      (P : world -> unit -> Prop) :
  P (match o with Some a => f a w | None => w end) tt ->
  wp (match o with Some a => modify (f a) | None => mret tt end) w P.
Proof. destruct o; intros H; exact H. Qed.

Lemma wp_when (b : bool) (f : world -> world) (w : world)
      (P : world -> unit -> Prop) :
  P (if b then f w else w) tt ->
  wp (if b then modify f else mret tt) w P.
Proof. destruct b; intros H; exact H. Qed.

(** C8 against the code.  The sequential phase sends its five scripted
    turns and nothing after them.  The fifth turn is the one expected to
    raise the PR; when the search of its response finds no PR link, no
    follow-up turn is sent and no second search is made: the phase goes on
    to its summary with the PR table as it was.  (The sub-agent sessions of
    the fan-out phase do send the follow-up turn, once, see
    [scripted_turns_spec].) *)
Theorem phase1_sends_no_follow_up (w : world) :
  let s0 := state w in
  let workdir := make_workdir E "phase1-api-types" in
  let opts := make_agent_options (OAPE_PLUGIN_PATH E) workdir
                                 (Phase1.system_prompt E s0) None in
  sdk_connect E opts = None ->
  (forall sent, Agent.ending (sdk E opts sent) = None) ->
  exists w' p2 p5,
    run_alone (Phase1.run E) w = (w', Returned tt)
    /\ turns w' =
         turns w ++ [(opts, "/oape:init " +:+ repo_short_name s0);
                     (opts, p2);
                     (opts, Phase1.step3_prompt);
                     (opts, Phase1.step4_prompt);
                     (opts, p5)]
    /\ (truthy
          (extract_pr_url
             (extract_text
                (Agent.items
                   (sdk E opts ["/oape:init " +:+ repo_short_name s0; p2;
                                Phase1.step3_prompt; Phase1.step4_prompt;
                                p5])))) = false ->
        pr_urls (state w') = pr_urls (state w)).
Proof.
  intros s0 workdir opts Hconnect Hend.
  assert (Hwp : wp (Phase1.run E) w
            (fun w' _ => exists p2 p5,
               turns w' =
                 turns w ++ [(opts, "/oape:init " +:+ repo_short_name s0);
                             (opts, p2);
                             (opts, Phase1.step3_prompt);
                             (opts, Phase1.step4_prompt);
                             (opts, p5)]
               /\ (truthy
                     (extract_pr_url
                        (extract_text
                           (Agent.items
                              (sdk E opts
                                 ["/oape:init " +:+ repo_short_name s0; p2;
                                  Phase1.step3_prompt; Phase1.step4_prompt;
                                  p5])))) = false ->
                   pr_urls (state w') = pr_urls (state w)))).
  { unfold Phase1.run, get_state.
    apply wp_bind. apply wp_bind, wp_get. apply wp_ret.
    fold s0 workdir opts.
    apply wp_bind. apply wp_with_client; [exact Hconnect|].
    apply wp_bind, wp_client_query. apply wp_bind.
    apply wp_collect_response; [apply Hend|].
    apply wp_bind, wp_when_some.
    apply wp_bind. apply wp_bind, wp_get. apply wp_ret.
    apply wp_bind, wp_client_query. apply wp_bind.
    apply wp_collect_response; [apply Hend|].
    apply wp_bind, wp_client_query. apply wp_bind.
    apply wp_collect_response; [apply Hend|].
    apply wp_bind, wp_client_query. apply wp_bind.
    apply wp_collect_response; [apply Hend|].
    apply wp_bind, wp_get.
    apply wp_bind, wp_client_query. apply wp_bind.
    apply wp_collect_response; [apply Hend|].
    apply wp_bind, wp_when. apply wp_ret.
    apply wp_bind. apply wp_bind, wp_get. apply wp_ret.
    apply wp_bind. unfold write_state_summary.
    apply wp_bind, wp_modify. apply wp_ret.
    apply wp_modify.
    cbn [c_opts c_sent app].
    set (w4 := with_now _ (log_turn opts Phase1.step4_prompt _)).
    set (p5 := Phase1.step5_prompt E _ _).
    match goal with
    | |- context [sdk E opts [?a; ?b; _; _; _]] => set (p2 := b)
    end.
    exists p2, p5.
    destruct (truthy _) eqn:Ht.
    - split; [|congruence].
      subst w4. cbn. destruct (Phase1.find_clone _ _ _); cbn;
        rewrite <- !app_assoc; reflexivity.
    - split; [|intros _].
      + subst w4. cbn. destruct (Phase1.find_clone _ _ _); cbn;
          rewrite <- !app_assoc; reflexivity.
      + subst w4. cbn. destruct (Phase1.find_clone _ _ _); reflexivity.
  }
  destruct (wp_run _ _ _ Hwp) as (w' & [] & Hrun & p2 & p5 & Ht & Hp).
  exists w', p2, p5. auto.
Qed.
End Turns.

Lemma phase1_sends_no_follow_up_witness :
  let opts :=
    Workflow.make_agent_options "/plugins/oape"
      "/work/.oape-work/phase1-api-types"
      (Phase1.system_prompt Notions.mute_env (Notions.initial_state []))
      None in
  exists w' p2 p5,
    Aio.run_alone (Phase1.run Notions.mute_env) (Notions.initial_world [])
      = (w', Py.Returned tt)
    /\ Workflow.turns w' =
         [] ++ [(opts, "/oape:init " +:+ "op");
                (opts, p2);
                (opts, Phase1.step3_prompt);
                (opts, Phase1.step4_prompt);
                (opts, p5)]
    /\ (Py.truthy
          (Utils.extract_pr_url
             (Utils.extract_text
                (Agent.items
                   (Workflow.sdk Notions.mute_env opts
                      ["/oape:init " +:+ "op"; p2; Phase1.step3_prompt;
                       Phase1.step4_prompt; p5])))) = false ->
        Workflow.pr_urls (Workflow.state w') = []).
Proof.
  apply (phase1_sends_no_follow_up Notions.mute_env
                                   (Notions.initial_world [])).
  - reflexivity.
  - intros sent. reflexivity.
Defined.

(** The two phases side by side, with sessions that never print a PR link:
    the sequential phase sends five turns, none of them the follow-up; a
    sub-agent session of the fan-out phase sends its scripted turn and then
    the follow-up, once, and returns without a link. *)
Lemma follow_up_sent_by_fan_out_only :
  let w1 := (Aio.run_alone (Phase1.run Notions.mute_env)
                           (Notions.initial_world [])).1 in
  let r2 := Aio.run_alone (Phase2._run_controller Notions.mute_env)
                          (Notions.initial_world []) in
  length (Notions.prompts w1) = 5
  /\ (Phase2.corrective_prompt ∉ Notions.prompts w1)
  /\ Workflow.pr_urls (Workflow.state w1) = []
  /\ (exists p, Notions.prompts r2.1 = [p; Phase2.corrective_prompt])
  /\ r2.2 = Py.Returned None
  /\ Workflow.pr_urls (Workflow.state r2.1) = [].
Proof.
  vm_compute. split_and!; try reflexivity.
  - intros Hin. repeat (apply elem_of_cons in Hin as [Hin|Hin];
                        [discriminate Hin|]).
    by apply elem_of_nil in Hin.
  - eexists. reflexivity.
Qed.

(** ** The pattern matcher *)

Section Matcher.
Import Py Re Notions.

Lemma chars_text (l : list ascii) : chars (text l) = l.
Proof. apply list_ascii_of_string_of_list_ascii. Qed.

Lemma text_chars (s : string) : text (chars s) = s.
Proof. apply string_of_list_ascii_of_string. Qed.

Lemma ascii_eqb_true (a b : ascii) : ascii_eqb a b = true <-> a = b.
Proof. apply Ascii.eqb_eq. Qed.

Lemma ascii_eqb_false (a b : ascii) : ascii_eqb a b = false <-> a <> b.
Proof. apply Ascii.eqb_neq. Qed.

Lemma strip_prefix_app (p s : list ascii) : strip_prefix p (p ++ s) = Some s.
Proof.
  induction p as [|a p IH]; cbn; [by destruct s|].
  by rewrite (proj2 (ascii_eqb_true a a) eq_refl).
Qed.

Lemma strip_prefix_Some (p s s' : list ascii) :
  strip_prefix p s = Some s' -> s = p ++ s'.
Proof.
  revert s. induction p as [|a p IH]; intros [|b s]; cbn; try congruence.
  destruct (ascii_eqb a b) eqn:Hab; [|done].
  apply ascii_eqb_true in Hab as ->. intros H. by rewrite (IH _ H).
Qed.

Section Plus.
Context {A : Type}.
Implicit Types (p : ascii -> bool) (k : nat -> list ascii -> option A).

Lemma plus_greedy_sound p n s k a :
  plus_greedy p n s k = Some a ->
  exists pre post,
    s = pre ++ post /\ pre <> [] /\ Forall (fun c => p c = true) pre
    /\ k (n + length pre) post = Some a.
Proof.
  revert n. induction s as [|c s IH]; intros n; cbn; [done|].
  destruct (p c) eqn:Hc; [|done].
  destruct (plus_greedy p (S n) s k) as [a'|] eqn:Hr.
  - intros [= ->]. destruct (IH _ Hr) as (pre & post & -> & Hne & Hall & Hk).
    exists (c :: pre), post. split_and!; [done|done|by constructor|].
    cbn. by rewrite Nat.add_succ_r.
  - intros Hk. exists [c], s. split_and!; [done|done|by repeat constructor|].
    cbn. by rewrite Nat.add_1_r.
Qed.

Lemma plus_greedy_complete p n pre post k :
  pre <> [] -> Forall (fun c => p c = true) pre ->
  is_Some (k (n + length pre) post) ->
  is_Some (plus_greedy p n (pre ++ post) k).
Proof.
  revert n. induction pre as [|c pre IH]; intros n Hne Hall Hk; [done|].
  apply Forall_cons in Hall as [Hc Hall]. cbn. rewrite Hc.
  destruct pre as [|c' pre].
  - cbn in *. rewrite Nat.add_1_r in Hk.
    by destruct (plus_greedy p (S n) post k).
  - destruct (IH (S n)) as [a Ha]; [done|done| |].
    + cbn in *. by rewrite Nat.add_succ_r in Hk.
    + by rewrite Ha.
Qed.

(** No split point inside [mid] lets the continuation succeed. *)
Lemma plus_greedy_none p m mid post k :
  Forall (fun c => p c = true) mid -> stops p post ->
  (forall i, 0 < i <= length mid -> k (m + i) (drop i mid ++ post) = None) ->
  plus_greedy p m (mid ++ post) k = None.
Proof.
  revert m. induction mid as [|c mid IH]; intros m Hall Hstop Hk.
  - cbn. destruct post as [|x post]; [done|]. cbn in *. by rewrite Hstop.
  - apply Forall_cons in Hall as [Hc Hall]. cbn. rewrite Hc.
    rewrite IH; [|done|done|].
    + specialize (Hk 1). cbn in Hk. rewrite Nat.add_1_r in Hk.
      apply Hk. lia.
    + intros i Hi. specialize (Hk (S i)). cbn in Hk.
      rewrite Nat.add_succ_r in Hk. apply Hk. lia.
Qed.

(** The run is taken as far as it goes and given back one character at a
    time: the continuation that succeeds at the longest split decides. *)
Lemma plus_greedy_backtrack p n pre mid post k a :
  pre <> [] -> Forall (fun c => p c = true) pre ->
  Forall (fun c => p c = true) mid -> stops p post ->
  (forall i, 0 < i <= length mid ->
             k (n + length pre + i) (drop i mid ++ post) = None) ->
  k (n + length pre) (mid ++ post) = Some a ->
  plus_greedy p n (pre ++ mid ++ post) k = Some a.
Proof.
  revert n. induction pre as [|c pre IH]; intros n Hne Hpre Hmid Hstop Hno Hk;
    [done|].
  apply Forall_cons in Hpre as [Hc Hpre]. cbn. rewrite Hc.
  destruct pre as [|c' pre].
  - cbn in *. rewrite (plus_greedy_none p (S n) mid post k); [|done|done|].
    + by rewrite Nat.add_1_r in Hk.
    + intros i Hi. specialize (Hno i Hi). by rewrite Nat.add_1_r in Hno.
  - rewrite (IH (S n)); [done|done|done|done|done| |].
    + intros i Hi. specialize (Hno i Hi). cbn in *.
      by rewrite Nat.add_succ_r in Hno.
    + cbn in *. by rewrite Nat.add_succ_r in Hk.
Qed.

Lemma plus_greedy_longest p n pre post k a :
  pre <> [] -> Forall (fun c => p c = true) pre -> stops p post ->
  k (n + length pre) post = Some a ->
  plus_greedy p n (pre ++ post) k = Some a.
Proof.
  intros Hne Hpre Hstop Hk.
  apply (plus_greedy_backtrack p n pre [] post k a); try done.
  intros i Hi. cbn in Hi. lia.
Qed.

End Plus.

(** [s.rstrip(chars)] and [s.lstrip(chars)] *)

Lemma rstrip_where_split (p : ascii -> bool) (l : list ascii) :
  exists tail,
    l = rstrip_where p l ++ tail /\ Forall (fun c => p c = true) tail.
Proof.
  induction l as [|c l (tail & IH & Hall)].
  { exists []. split; [done|constructor]. }
  cbn. destruct (rstrip_where p l) as [|x r] eqn:Hr; cbn in IH.
  - destruct (p c) eqn:Hc.
    + exists (c :: l). split; [done|]. rewrite IH. by constructor.
    + exists tail. split; [cbn; by rewrite <- IH|done].
  - exists tail. split; [cbn; by rewrite IH at 1|done].
Qed.

Lemma rstrip_where_last (p : ascii -> bool) (l init : list ascii) (x : ascii) :
  rstrip_where p l = init ++ [x] -> p x = false.
Proof.
  revert init. induction l as [|c l IH]; intros init; cbn.
  - by destruct init.
  - destruct (rstrip_where p l) as [|y r] eqn:Hr.
    + destruct (p c) eqn:Hc; [by destruct init|].
      destruct init as [|? [|? ?]]; cbn; congruence.
    + destruct init as [|c0 init]; cbn; [done|].
      intros [= -> H]. by apply (IH init).
Qed.

Lemma rstrip_where_unique (p : ascii -> bool) (body tail : list ascii) :
  Forall (fun c => p c = true) tail ->
  (body = [] \/ exists init x, body = init ++ [x] /\ p x = false) ->
  rstrip_where p (body ++ tail) = body.
Proof.
  intros Htail Hbody.
  assert (Ht : rstrip_where p tail = []).
  { clear Hbody. induction Htail as [|c tail Hc _ IH]; cbn; [done|].
    by rewrite IH, Hc. }
  destruct Hbody as [->|(init & x & -> & Hx)]; [done|].
  induction init as [|c init IH]; cbn.
  - by rewrite Ht, Hx.
  - rewrite IH. by destruct init.
Qed.

Lemma lstrip_where_split (p : ascii -> bool) (l : list ascii) :
  exists lead,
    l = lead ++ lstrip_where p l /\ Forall (fun c => p c = true) lead
    /\ stops p (lstrip_where p l).
Proof.
  induction l as [|c l (lead & IH & Hall & Hstop)].
  { exists []. split_and!; [done|constructor|done]. }
  cbn. destruct (p c) eqn:Hc.
  - exists (c :: lead). split_and!; [cbn; by rewrite <- IH|by constructor|done].
  - exists []. split_and!; [done|constructor|done].
Qed.

Lemma lstrip_where_unique (p : ascii -> bool) (lead body : list ascii) :
  Forall (fun c => p c = true) lead -> stops p body ->
  lstrip_where p (lead ++ body) = body.
Proof.
  intros Hlead Hstop. induction Hlead as [|c lead Hc _ IH]; cbn.
  - destruct body as [|x body]; [done|]. cbn in *. by rewrite Hstop.
  - by rewrite Hc.
Qed.

End Matcher.

Section EpUrl.
Import Py Re Notions.

Lemma is_Some_orelse {A} (o1 o2 : option A) :
  is_Some (match o1 with Some a => Some a | None => o2 end)
  <-> is_Some o1 \/ is_Some o2.
Proof.
  destruct o1 as [a|]; split; eauto.
  - intros [[]|]; by auto.
Qed.

Lemma eos_Some {A} (n : nat) (post : list ascii) (g : list string)
      (k : cursor -> option A) :
  (forall c, is_Some (k c)) ->
  is_Some (exec Eos (Cur n post g) k) <-> post = [] \/ post = [lf].
Proof.
  intros Hk. unfold lf. destruct post as [|x [|y post]]; cbn [exec rest].
  - split; [by left|intros _; apply Hk].
  - destruct (ascii_eqb x "010") eqn:Hn.
    + apply ascii_eqb_true in Hn as ->. split; [by right|intros _; apply Hk].
    + apply ascii_eqb_false in Hn. split; [by intros []|].
      intros [|]; congruence.
  - split; [by intros []|]. intros [|]; congruence.
Qed.

Lemma opt_Some {A} (ch : ascii) (n : nat) (post : list ascii)
      (g : list string) (k : cursor -> option A) :
  is_Some (exec (Opt ch) (Cur n post g) k)
  <-> is_Some (k (Cur n post g))
      \/ exists s', post = ch :: s' /\ is_Some (k (Cur (S n) s' g)).
Proof.
  cbn [exec rest pos groups]. destruct post as [|x s'].
  - split; [by left|]. by intros [|(? & ? & _)].
  - destruct (ascii_eqb x ch) eqn:Hx.
    + apply ascii_eqb_true in Hx as ->. rewrite is_Some_orelse.
      split.
      * intros [|]; [right; by eexists|by left].
      * intros [|(? & [= <-] & ?)]; auto.
    + apply ascii_eqb_false in Hx. split; [by left|].
      intros [|(? & [= ? _] & _)]; done.
Qed.

Lemma opt_slash_eos {A} (n : nat) (post : list ascii) (g : list string)
      (k : cursor -> option A) :
  (forall c, is_Some (k c)) ->
  is_Some (exec (Opt "/") (Cur n post g) (fun c' => exec Eos c' k))
  <-> ep_end post.
Proof.
  intros Hk. rewrite opt_Some, eos_Some by done. unfold ep_end. split.
  - intros [[->| ->]|(s' & -> & Hs')]; auto.
    apply eos_Some in Hs' as [->| ->]; auto.
  - intros [->|[->|[->| ->]]]; auto.
    + right. exists []. split; [done|]. apply eos_Some; auto.
    + right. exists [lf]. split; [done|]. apply eos_Some; auto.
Qed.

Lemma exec_seq {A} (r1 r2 : regex) (c : cursor) (k : cursor -> option A) :
  exec (r1 >> r2) c k = exec r1 c (fun c' => exec r2 c' k).
Proof. reflexivity. Qed.

Lemma exec_bos {A} (s : list ascii) (g : list string)
      (k : cursor -> option A) :
  exec Bos (Cur 0 s g) k = k (Cur 0 s g).
Proof. reflexivity. Qed.

Lemma exec_lit {A} (t : string) (c : cursor) (k : cursor -> option A) :
  exec (Lit t) c k =
    match strip_prefix (chars t) (rest c) with
    | Some s' => k (Cur (pos c + String.length t) s' (groups c))
    | None => None
    end.
Proof. reflexivity. Qed.

Lemma exec_plus {A} (p : ascii -> bool) (c : cursor)
      (k : cursor -> option A) :
  exec (Plus p) c k =
    plus_greedy p (pos c) (rest c) (fun n s' => k (Cur n s' (groups c))).
Proof. reflexivity. Qed.

Lemma exec_grp {A} (r : regex) (c : cursor) (k : cursor -> option A) :
  exec (Grp r) c k =
    exec r c (fun c' =>
      k (Cur (pos c') (rest c')
             (groups c' ++ [text (take (pos c' - pos c) (rest c))]))).
Proof. reflexivity. Qed.

(** The texts [EP_URL_PATTERN] matches: the base, digits, and then nothing,
    a slash, a line feed, or a slash and a line feed. *)
Lemma ep_url_match (r : regex) (s : list ascii) :
  r = Server.EP_URL_PATTERN \/ r = Main.EP_URL_PATTERN ->
  is_Some (match_at r 0 s)
  <-> exists ds t, s = ep_base ++ ds ++ t /\ digits ds /\ ep_end t.
Proof.
  intros Hr.
  assert (r = (Bos >> Lit "https://github.com/openshift/enhancements/pull/"
                   >> Plus is_digit >> Opt "/" >> Eos)%re) as ->
    by (by destruct Hr as [->| ->]).
  unfold match_at. rewrite !exec_seq, exec_bos, exec_lit.
  cbn [rest pos groups]. fold ep_base. split.
  - destruct (strip_prefix ep_base s) as [s'|] eqn:Hs; [|by intros []].
    apply strip_prefix_Some in Hs as ->.
    rewrite exec_plus. cbn [rest pos groups]. intros [m Hm].
    apply plus_greedy_sound in Hm as (ds & t & -> & Hne & Hds & Hk).
    exists ds, t. split_and!; [done|by split|].
    cbn beta in Hk.
    match type of Hk with
    | exec _ (Cur ?n _ ?g) (fun c' => exec Eos c' ?k) = _ =>
        apply (proj1 (opt_slash_eos n t g k
                        (fun c => ltac:(by eexists))))
    end.
    by eexists.
  - intros (ds & t & -> & [Hne Hds] & Ht).
    rewrite strip_prefix_app, exec_plus. cbn [rest pos groups].
    apply plus_greedy_complete; [done|done|].
    cbn beta. apply opt_slash_eos; [|done]. intros c. by eexists.
Qed.

Lemma all_slashes (tail : list ascii) :
  Forall (fun c => ascii_eqb c "/" = true) tail ->
  tail = replicate (length tail) slash.
Proof.
  induction 1 as [|c tail Hc _ IH]; cbn; [done|].
  apply ascii_eqb_true in Hc as ->. by rewrite <- IH.
Qed.

Lemma replicate_slashes (n : nat) :
  Forall (fun c => ascii_eqb c "/" = true) (replicate n slash).
Proof. induction n; cbn; by constructor. Qed.

Lemma digits_last (ds : list ascii) :
  digits ds -> exists init x, ds = init ++ [x] /\ is_digit x = true.
Proof.
  intros [Hne Hds]. destruct ds as [|c ds] using rev_ind; [done|].
  apply Forall_app in Hds as [_ Hx]. apply Forall_cons in Hx as [Hx _].
  by exists ds, c.
Qed.

(** The submission accepts these texts. *)
Lemma validate_accepts (url : string) (ds mid : list ascii) (n : nat) :
  chars url = ep_base ++ ds ++ mid ++ replicate n slash ->
  digits ds ->
  mid = [] \/ mid = [lf] \/ mid = [slash; lf] ->
  Server._validate_ep_url url = Server.Respond tt.
Proof.
  intros Hurl Hds Hmid.
  unfold Server._validate_ep_url, re_match, rstrip_slash.
  rewrite chars_text, Hurl.
  replace (ep_base ++ ds ++ mid ++ replicate n slash)
    with ((ep_base ++ ds ++ mid) ++ replicate n slash)
    by (by rewrite <- !app_assoc).
  rewrite rstrip_where_unique.
  - destruct (proj2 (ep_url_match Server.EP_URL_PATTERN
                       (ep_base ++ ds ++ mid) (or_introl eq_refl)))
      as [m ->]; [|done].
    exists ds, mid. split_and!; [done|done|].
    unfold ep_end. destruct Hmid as [->|[->| ->]]; auto.
  - apply replicate_slashes.
  - right. destruct (digits_last ds Hds) as (init & x & -> & Hx).
    destruct Hmid as [->|[->| ->]].
    + exists (ep_base ++ init), x. rewrite app_nil_r, <- app_assoc.
      split; [done|]. apply ascii_eqb_false. by intros ->.
    + exists (ep_base ++ init ++ [x]), lf.
      by rewrite <- !app_assoc.
    + exists (ep_base ++ init ++ [x] ++ [slash]), lf.
      by rewrite <- !app_assoc.
Qed.

End EpUrl.


Section EpUrl2.
Import Py Re Notions.

Lemma validate_inv (url : string) :
  Server._validate_ep_url url = Server.Respond tt ->
  exists ds mid n,
    chars url = ep_base ++ ds ++ mid ++ replicate n slash
    /\ digits ds
    /\ (mid = [] \/ mid = [lf] \/ mid = [slash; lf]).
Proof.
  unfold Server._validate_ep_url, re_match, rstrip_slash.
  rewrite chars_text.
  destruct (match_at _ _ _) as [m|] eqn:Hm; [intros _|done].
  assert (Hsome : is_Some (match_at Server.EP_URL_PATTERN 0
            (rstrip_where (fun c => ascii_eqb c "/") (chars url))))
    by (by eexists).
  apply (ep_url_match _ _ (or_introl eq_refl)) in Hsome
    as (ds & t & Hbody & Hds & Ht).
  destruct (rstrip_where_split (fun c => ascii_eqb c "/") (chars url))
    as (tail & Hurl & Htail).
  apply all_slashes in Htail.
  rewrite Hbody in Hurl.
  exists ds. destruct Ht as [->|[->|[->| ->]]].
  - exists [], (length tail). split_and!; auto.
    rewrite Hurl, Htail at 1. by rewrite <- !app_assoc.
  - exfalso.
    assert (ascii_eqb slash "/" = false); [|done].
    apply (rstrip_where_last (fun c => ascii_eqb c "/") (chars url)
                             (ep_base ++ ds) slash).
    rewrite Hbody. by rewrite <- app_assoc.
  - exists [lf], (length tail). split_and!; auto.
    rewrite Hurl, Htail at 1. by rewrite <- !app_assoc.
  - exists [slash; lf], (length tail). split_and!; auto.
    rewrite Hurl, Htail at 1. by rewrite <- !app_assoc.
Qed.

(** X. The submission accepts a text exactly when it is the base
    [https://github.com/openshift/enhancements/pull/], a non-empty run of
    ASCII digits, then nothing, a line feed, or a slash and a line feed, and
    then any number of slashes: [rstrip("/")] removes them before the
    pattern is tried, and [$] also matches before a final line feed.
    Everything else is answered with the client error 400. *)
Theorem validate_ep_url_accepts_exactly (url : string) :
  (Server._validate_ep_url url = Server.Respond tt
   <-> exists ds mid n,
         chars url = ep_base ++ ds ++ mid ++ replicate n slash
         /\ digits ds
         /\ (mid = [] \/ mid = [lf] \/ mid = [slash; lf]))
  /\ (Server._validate_ep_url url <> Server.Respond tt ->
      exists detail,
        Server._validate_ep_url url = Server.HTTPException 400 detail).
Proof.
  split.
  - split.
    + apply validate_inv.
    + intros (ds & mid & n & Hurl & Hds & Hmid).
      by apply (validate_accepts url ds mid n).
  - unfold Server._validate_ep_url.
    destruct (re_match _ _); [done|]. intros _. by eexists.
Qed.

Lemma space_h : is_space "h" = false.
Proof. reflexivity. Qed.

Lemma digit_not_space (x : ascii) : is_digit x = true -> is_space x = false.
Proof.
  unfold is_digit, is_space, code. intros H.
  apply andb_true_iff in H as [H1 H2].
  apply N.leb_le in H1, H2.
  repeat match goal with
         | |- context [(?a <=? ?b)%N] =>
             destruct (N.leb_spec a b); try lia
         | |- context [(?a =? ?b)%N] =>
             destruct (N.eqb_spec a b); try lia
         end; reflexivity.
Qed.

(** What the prompt of the command line accepts. *)
Lemma prompt_accepts (line : string) (lead ds t trail : list ascii) :
  chars line = lead ++ ep_base ++ ds ++ t ++ trail ->
  Forall (fun c => is_space c = true) lead ->
  Forall (fun c => is_space c = true) trail ->
  digits ds ->
  t = [] \/ t = [slash] ->
  Main._prompt_ep_url line = Main.Value (text (ep_base ++ ds ++ t)).
Proof.
  intros Hline Hlead Htrail Hds Ht.
  assert (Hstrip : strip line = text (ep_base ++ ds ++ t)).
  { unfold strip. f_equal. rewrite Hline.
    rewrite lstrip_where_unique; [|done|done].
    replace (ep_base ++ ds ++ t ++ trail)
      with ((ep_base ++ ds ++ t) ++ trail) by (by rewrite <- !app_assoc).
    apply rstrip_where_unique; [done|]. right.
    destruct (digits_last ds Hds) as (init & x & -> & Hx).
    destruct Ht as [->| ->].
    - exists (ep_base ++ init), x. rewrite app_nil_r, <- app_assoc.
      split; [done|]. by apply digit_not_space.
    - exists (ep_base ++ init ++ [x]), slash. by rewrite <- !app_assoc. }
  unfold Main._prompt_ep_url. rewrite Hstrip.
  unfold re_match. rewrite chars_text.
  destruct (proj2 (ep_url_match Main.EP_URL_PATTERN (ep_base ++ ds ++ t)
                     (or_intror eq_refl))) as [m ->]; [|done].
  exists ds, t. split_and!; [done|done|].
  unfold ep_end. destruct Ht as [->| ->]; auto.
Qed.

Lemma prompt_inv (line u : string) :
  Main._prompt_ep_url line = Main.Value u ->
  exists lead ds t trail,
    chars line = lead ++ ep_base ++ ds ++ t ++ trail
    /\ Forall (fun c => is_space c = true) lead
    /\ Forall (fun c => is_space c = true) trail
    /\ digits ds
    /\ (t = [] \/ t = [slash])
    /\ u = text (ep_base ++ ds ++ t).
Proof.
  unfold Main._prompt_ep_url, re_match.
  destruct (match_at _ _ _) as [m|] eqn:Hm; [|done]. intros [= <-].
  assert (Hsome : is_Some (match_at Main.EP_URL_PATTERN 0
                                    (chars (strip line)))) by (by eexists).
  apply (ep_url_match _ _ (or_intror eq_refl)) in Hsome
    as (ds & t & Hbody & Hds & Ht).
  unfold strip in Hbody. rewrite chars_text in Hbody.
  destruct (lstrip_where_split is_space (chars line))
    as (lead & Hline & Hlead & _).
  destruct (rstrip_where_split is_space (lstrip_where is_space (chars line)))
    as (trail & Hl & Htrail).
  assert (Hno : forall init, rstrip_where is_space
                  (lstrip_where is_space (chars line)) = init ++ [lf] ->
                False).
  { intros init Hinit.
    by apply (rstrip_where_last is_space _ init lf) in Hinit. }
  exists lead, ds, t, trail.
  assert (Hu : strip line = text (ep_base ++ ds ++ t)).
  { unfold strip. by rewrite Hbody. }
  assert (Hshape : chars line = lead ++ ep_base ++ ds ++ t ++ trail).
  { rewrite Hline at 1. rewrite Hl at 1. rewrite Hbody.
    by rewrite <- !app_assoc. }
  destruct Ht as [->|[->|[->| ->]]].
  - split_and!; auto.
  - split_and!; auto.
  - exfalso. apply (Hno (ep_base ++ ds)). rewrite Hbody.
    by rewrite <- !app_assoc.
  - exfalso. apply (Hno (ep_base ++ ds ++ [slash])). rewrite Hbody.
    by rewrite <- !app_assoc.
Qed.

(** X. The prompt of the command line accepts a line exactly when, white
    space at both ends apart, it is the base, a non-empty run of ASCII
    digits and at most one slash; the value it returns is the line without
    that white space.  Any other line ends the program with exit status 1. *)
Theorem prompt_ep_url_accepts_exactly (line : string) :
  (forall u,
     Main._prompt_ep_url line = Main.Value u
     <-> exists lead ds t trail,
           chars line = lead ++ ep_base ++ ds ++ t ++ trail
           /\ Forall (fun c => is_space c = true) lead
           /\ Forall (fun c => is_space c = true) trail
           /\ digits ds
           /\ (t = [] \/ t = [slash])
           /\ u = text (ep_base ++ ds ++ t))
  /\ ((forall u, Main._prompt_ep_url line <> Main.Value u) ->
      Main._prompt_ep_url line = Main.SysExit 1).
Proof.
  split.
  - intros u. split.
    + apply prompt_inv.
    + intros (lead & ds & t & trail & Hline & Hlead & Htrail & Hds & Ht & ->).
      by apply (prompt_accepts line lead ds t trail).
  - unfold Main._prompt_ep_url. destruct (re_match _ _); [|done].
    intros H. by destruct (H (strip line)).
Qed.

(** X. The two entry points do not accept the same URLs.  Whatever the
    prompt of the command line accepts, the submission endpoint accepts
    too.  The endpoint also accepts the base and digits followed by two or
    more slashes, which the prompt turns down. *)
Theorem prompt_is_stricter_than_submission :
  (forall line u,
     Main._prompt_ep_url line = Main.Value u ->
     Server._validate_ep_url u = Server.Respond tt)
  /\ (forall ds n,
        digits ds -> 2 <= n ->
        let url := text (ep_base ++ ds ++ replicate n slash) in
        Server._validate_ep_url url = Server.Respond tt
        /\ Main._prompt_ep_url url = Main.SysExit 1).
Proof.
  split.
  - intros line u Hu.
    apply prompt_inv in Hu
      as (lead & ds & t & trail & _ & _ & _ & Hds & Ht & ->).
    destruct Ht as [->| ->].
    + apply (validate_accepts _ ds [] 0); [|done|by left].
      by rewrite chars_text.
    + apply (validate_accepts _ ds [] 1); [|done|by left].
      by rewrite chars_text.
  - intros ds n Hds Hn url. split.
    + apply (validate_accepts _ ds [] n); [|done|by left].
      unfold url. by rewrite chars_text.
    + destruct (Main._prompt_ep_url url) as [u|code] eqn:Hp.
      * exfalso. apply prompt_inv in Hp
          as (lead & ds' & t & trail & Hline & Hlead & Htrail & Hds' & Ht & _).
        unfold url in Hline. rewrite chars_text in Hline.
        (* the line starts with "h": no leading white space *)
        destruct lead as [|c lead].
        2:{ apply Forall_cons in Hlead as [Hc _].
            injection Hline as <- _. done. }
        cbn [app] in Hline. apply app_inv_head in Hline.
        (* it ends with a slash: no trailing white space *)
        assert (trail = []) as ->.
        { destruct trail as [|c trail] using rev_ind; [done|].
          apply Forall_app in Htrail as [_ Hc].
          apply Forall_cons in Hc as [Hc _].
          destruct n as [|n]; [lia|].
          rewrite replicate_S_end in Hline.
          rewrite !app_assoc in Hline.
          apply app_inj_tail in Hline as [_ <-]. done. }
        rewrite app_nil_r in Hline.
        (* the digits are the same, so at most one slash is left *)
        assert (Hlen : length ds = length ds').
        { clear -Hline Hds Hds' Ht Hn.
          destruct Hds as [_ Hds], Hds' as [_ Hds'].
          revert ds' Hds' Hline.
          induction Hds as [|d ds Hd _ IH]; intros ds' Hds' Hline.
          - destruct Hds' as [|d' ds' Hd' _]; [done|].
            destruct n as [|n]; [lia|]. by injection Hline as <-.
          - destruct Hds' as [|d' ds' Hd' Hds'].
            + destruct Ht as [->| ->]; cbn in Hline; [done|].
              by injection Hline as ->.
            + injection Hline as _ Hline. cbn. f_equal. by apply IH. }
        apply (f_equal length) in Hline.
        rewrite !length_app, length_replicate, Hlen in Hline.
        destruct Ht as [->| ->]; cbn in Hline; lia.
      * unfold Main._prompt_ep_url in Hp.
        destruct (re_match _ _); [done|]. by injection Hp as <-.
Qed.

End EpUrl2.

Section PlusSpec.
Import Py Re Notions.
Context {A : Type}.
Implicit Types (p : ascii -> bool) (k : nat -> list ascii -> option A).

Lemma plus_greedy_None p n s k :
  plus_greedy p n s k = None ->
  forall pre post, s = pre ++ post -> pre <> [] ->
    Forall (fun c => p c = true) pre -> k (n + length pre) post = None.
Proof.
  revert n. induction s as [|c s IH]; intros n Hn pre post Hs Hne Hpre.
  - by destruct pre.
  - destruct pre as [|c' pre]; [done|]. injection Hs as <- ->.
    apply Forall_cons in Hpre as [Hc Hpre]. cbn in Hn. rewrite Hc in Hn.
    destruct (plus_greedy p (S n) (pre ++ post) k) eqn:Hin; [done|].
    destruct pre as [|c'' pre].
    + cbn. by rewrite Nat.add_1_r.
    + cbn. rewrite Nat.add_succ_r.
      by apply (IH (S n) Hin (c'' :: pre) post).
Qed.

(** A success of [class+] is the continuation's success at the longest
    split at which it has one. *)
Lemma plus_greedy_first p n s k a :
  plus_greedy p n s k = Some a ->
  exists pre post,
    s = pre ++ post /\ pre <> [] /\ Forall (fun c => p c = true) pre
    /\ k (n + length pre) post = Some a
    /\ forall pre' post',
         s = pre' ++ post' -> Forall (fun c => p c = true) pre' ->
         length pre < length pre' -> k (n + length pre') post' = None.
Proof.
  revert n. induction s as [|c s IH]; intros n; cbn; [done|].
  destruct (p c) eqn:Hc; [|done].
  destruct (plus_greedy p (S n) s k) as [a'|] eqn:Hr.
  - intros [= ->].
    destruct (IH _ Hr) as (pre & post & -> & Hne & Hall & Hk & Hmax).
    exists (c :: pre), post. split_and!; [done|done|by constructor| |].
    + cbn. by rewrite Nat.add_succ_r.
    + intros pre' post' Hs Hpre' Hlen.
      destruct pre' as [|c' pre']; [cbn in Hlen; lia|].
      injection Hs as <- Hs. apply Forall_cons in Hpre' as [_ Hpre'].
      cbn. rewrite Nat.add_succ_r. apply (Hmax pre' post' Hs Hpre').
      cbn in Hlen. lia.
  - intros Hk. exists [c], s.
    split_and!; [done|done|by repeat constructor| |].
    + cbn. by rewrite Nat.add_1_r.
    + intros pre' post' Hs Hpre' Hlen.
      destruct pre' as [|c' pre']; [cbn in Hlen; lia|].
      injection Hs as <- Hs. apply Forall_cons in Hpre' as [_ Hpre'].
      cbn. rewrite Nat.add_succ_r.
      apply (plus_greedy_None p (S n) s k Hr pre' post' Hs); [|done].
      intros ->. cbn in Hlen. lia.
Qed.

(** When the continuation succeeds wherever it is tried, the run is taken
    whole. *)
Lemma plus_greedy_whole p n s k a :
  (forall m s', is_Some (k m s')) ->
  plus_greedy p n s k = Some a ->
  exists pre post,
    s = pre ++ post /\ pre <> [] /\ Forall (fun c => p c = true) pre
    /\ stops p post /\ k (n + length pre) post = Some a.
Proof.
  intros Hk Hs.
  apply plus_greedy_first in Hs as (pre & post & -> & Hne & Hall & Ha & Hmax).
  exists pre, post. split_and!; try done.
  destruct post as [|c post]; [done|]. cbn.
  destruct (p c) eqn:Hc; [|done]. exfalso.
  specialize (Hmax (pre ++ [c]) post).
  destruct (Hk (n + length (pre ++ [c])) post) as [x Hx].
  rewrite Hmax in Hx; [done| | |].
  - by rewrite <- app_assoc.
  - apply Forall_app. split; [done|]. by repeat constructor.
  - rewrite length_app. cbn. lia.
Qed.

Lemma run_split (p : ascii -> bool) (l : list ascii) :
  exists a b, l = a ++ b /\ Forall (fun c => p c = true) a /\ stops p b.
Proof.
  induction l as [|c l (a & b & -> & Ha & Hb)].
  - exists [], []. by split_and!.
  - destruct (p c) eqn:Hc.
    + exists (c :: a), b. split_and!; [done|by constructor|done].
    + exists [], (c :: a ++ b). by split_and!.
Qed.

End PlusSpec.


Section PrPattern.
Import Py Re Notions.

Lemma digit_no_slash (c : ascii) : is_digit c = true -> c <> "/"%char.
Proof. by intros H ->. Qed.

(** [PR_PATTERN] on a text that starts with a pull-request link of the
    shape [https://github.com/<owner>/<repo>/pull/<number>]: the groups are
    [<owner>/<repo>] and the whole number. *)
Lemma pr_pattern_parses (owner repo ds after : list ascii) :
  segment owner -> segment repo -> digits ds -> stops is_digit after ->
  match_at Phase3.PR_PATTERN 0
           (pull_url (repo_path owner repo) ds ++ after)
  = Some (Match (text (pull_url (repo_path owner repo) ds))
                [text (repo_path owner repo); text ds]).
Proof.
  intros [Hno Ho] [Hnr Hr] [Hnd Hd] Hrest.
  unfold match_at, Phase3.PR_PATTERN, pull_url, repo_path, gh_base.
  rewrite <- !app_assoc.
  rewrite !exec_seq, exec_lit. cbn [rest pos groups].
  rewrite strip_prefix_app.
  rewrite exec_grp, !exec_seq, exec_plus. cbn [rest pos groups].
  apply plus_greedy_longest; [done|done|done|]. cbn beta.
  rewrite exec_lit. cbn [rest pos groups].
  rewrite strip_prefix_app.
  rewrite exec_plus. cbn [rest pos groups].
  apply plus_greedy_longest; [done|done|done|]. cbn beta.
  cbn [rest pos groups].
  rewrite exec_lit. cbn [rest pos groups].
  rewrite strip_prefix_app.
  rewrite exec_grp, exec_plus. cbn [rest pos groups].
  apply plus_greedy_longest; [done|done|done|]. cbn beta.
  cbn [rest pos groups app].
  assert (Htake : forall (a b : list ascii) n,
             n = length a -> take n (a ++ b) = a)
    by (intros a b n ->; apply take_app_length).
  f_equal. f_equal; [f_equal|f_equal; [f_equal|f_equal; f_equal]].
  - replace (chars "https://github.com/" ++ owner ++ chars "/" ++ repo
             ++ chars "/pull/" ++ ds ++ after)
      with ((chars "https://github.com/" ++ owner ++ chars "/" ++ repo
             ++ chars "/pull/" ++ ds) ++ after)
      by (by rewrite <- !app_assoc).
    apply Htake. rewrite !length_app. cbn. lia.
  - replace (owner ++ chars "/" ++ repo ++ chars "/pull/" ++ ds ++ after)
      with ((owner ++ chars "/" ++ repo) ++ chars "/pull/" ++ ds ++ after)
      by (by rewrite <- !app_assoc).
    apply Htake. rewrite !length_app. cbn. lia.
  - apply Htake. lia.
Qed.

Lemma pr_pattern_inv (s : list ascii) (m : match_obj) :
  match_at Phase3.PR_PATTERN 0 s = Some m ->
  exists owner repo ds after,
    s = pull_url (repo_path owner repo) ds ++ after
    /\ segment owner /\ segment repo /\ digits ds /\ stops is_digit after
    /\ m = Match (text (pull_url (repo_path owner repo) ds))
                 [text (repo_path owner repo); text ds].
Proof.
  intros Hm0. pose proof Hm0 as Hm.
  unfold match_at, Phase3.PR_PATTERN in Hm.
  rewrite !exec_seq, exec_lit in Hm. cbn [rest pos groups] in Hm.
  destruct (strip_prefix (chars "https://github.com/") s) as [s1|] eqn:Hs;
    [|done].
  apply strip_prefix_Some in Hs as ->.
  rewrite exec_grp, !exec_seq, exec_plus in Hm. cbn [rest pos groups] in Hm.
  apply plus_greedy_sound in Hm as (owner & p1 & -> & Hno & Ho & Hm).
  cbn beta in Hm. rewrite exec_lit in Hm. cbn [rest pos groups] in Hm.
  destruct (strip_prefix (chars "/") p1) as [p2|] eqn:Hp1; [|done].
  apply strip_prefix_Some in Hp1 as ->.
  rewrite exec_plus in Hm. cbn [rest pos groups] in Hm.
  apply plus_greedy_sound in Hm as (repo & p3 & -> & Hnr & Hr & Hm).
  cbn beta in Hm. cbn [rest pos groups] in Hm.
  rewrite exec_lit in Hm. cbn [rest pos groups] in Hm.
  destruct (strip_prefix (chars "/pull/") p3) as [p4|] eqn:Hp3; [|done].
  apply strip_prefix_Some in Hp3 as ->.
  rewrite exec_grp, exec_plus in Hm. cbn [rest pos groups] in Hm.
  apply plus_greedy_sound in Hm as (ds0 & after0 & -> & Hnd & Hd & _).
  destruct (run_split is_digit after0) as (more & after & -> & Hmore & Hstop).
  assert (Hds : digits (ds0 ++ more)).
  { split; [by destruct ds0|]. by apply Forall_app. }
  pose proof (pr_pattern_parses owner repo (ds0 ++ more) after
                (conj Hno Ho) (conj Hnr Hr) Hds Hstop) as Hfwd.
  assert (Heq : chars "https://github.com/" ++ owner ++ chars "/" ++ repo
                ++ chars "/pull/" ++ ds0 ++ more ++ after
                = pull_url (repo_path owner repo) (ds0 ++ more) ++ after).
  { unfold pull_url, repo_path, gh_base. by rewrite <- !app_assoc. }
  rewrite Heq in Hm0. rewrite Hfwd in Hm0. injection Hm0 as <-.
  exists owner, repo, (ds0 ++ more), after.
  split_and!; [done|by split|by split|done|done|done].
Qed.

(** X. [_check_pr_status] asks the provider exactly for the URLs that
    start with [https://github.com/<owner>/<repo>/pull/<number>], two
    non-empty path segments and a non-empty run of digits; what follows the
    number is ignored.  The provider is then asked once, for the pull
    request [<number>] of [<owner>/<repo>].  For every other URL the state
    ["unknown"] is returned and the provider is not asked. *)
Theorem check_pr_status_asks_for_the_parsed_reference
        (E : Workflow.env) (url : string) (w : Workflow.world) :
  (forall owner repo ds after,
     chars url = pull_url (repo_path owner repo) ds ++ after ->
     segment owner -> segment repo -> digits ds -> stops is_digit after ->
     let n := length (Workflow.gh_calls w) in
     let repo_name := text (repo_path owner repo) in
     Aio.run_alone (Phase3._check_pr_status E url) w =
       (Workflow.with_now (Workflow.now w + Workflow.gh_secs E n)%Z
          (Workflow.log_gh repo_name (text ds) w),
        Returned
          (match Workflow.gh E n repo_name (text ds) with
           | Workflow.gh_failed =>
               Phase3.Status "error" false false None None None None
           | Workflow.gh_raised e =>
               Phase3.Status "error" false false None None None
                             (Some (exn_str e))
           | Workflow.gh_json data => Phase3.status_of_data data
           end)))
  /\ ((forall owner repo ds after,
         chars url = pull_url (repo_path owner repo) ds ++ after ->
         segment owner -> segment repo -> digits ds -> False) ->
      Aio.run_alone (Phase3._check_pr_status E url) w =
        (w, Returned (Phase3.Status "unknown" false false None None None
                                    None))).
Proof.
  split.
  - intros owner repo ds after Hurl Ho Hr Hd Hstop n repo_name.
    rewrite check_pr_status_run. unfold after_check, status_at, re_match.
    rewrite Hurl, (pr_pattern_parses owner repo ds after Ho Hr Hd Hstop).
    reflexivity.
  - intros Hnone. rewrite check_pr_status_run.
    unfold after_check, status_at, re_match.
    destruct (match_at Phase3.PR_PATTERN 0 (chars url)) as [m|] eqn:Hm;
      [|done].
    apply pr_pattern_inv in Hm
      as (owner & repo & ds & after & Hurl & Ho & Hr & Hd & _ & _).
    by destruct (Hnone owner repo ds after).
Qed.

End PrPattern.


Section Extract.
Import Py Re Notions.

Lemma digit_url_char (c : ascii) : is_digit c = true -> url_char c = true.
Proof.
  intros H. unfold url_char. rewrite (digit_not_space c H). cbn.
  destruct (ascii_eqb c ")") eqn:Hc; [|done].
  apply ascii_eqb_true in Hc as ->. done.
Qed.

Lemma stops_url_char_digit (post : list ascii) :
  stops url_char post -> stops is_digit post.
Proof.
  destruct post as [|c post]; cbn; [done|]. intros Hc.
  destruct (is_digit c) eqn:Hd; [|done].
  by rewrite (digit_url_char c Hd) in Hc.
Qed.

Lemma search_from_hit (r : regex) (n : nat) (s : list ascii) (m : match_obj) :
  match_at r n s = Some m -> search_from r n s = Some m.
Proof. intros H. destruct s; cbn; by rewrite H. Qed.

Lemma search_from_skip (r : regex) (n : nat) (pre s : list ascii) :
  (forall j, j < length pre -> match_at r (n + j) (drop j (pre ++ s)) = None) ->
  search_from r n (pre ++ s) = search_from r (n + length pre) s.
Proof.
  revert n. induction pre as [|c pre IH]; intros n Hno.
  - cbn. by rewrite Nat.add_0_r.
  - cbn [app search_from length].
    pose proof (Hno 0) as H0. rewrite Nat.add_0_r in H0. cbn in H0.
    rewrite H0 by lia. rewrite Nat.add_succ_r. apply (IH (S n)).
    intros j Hj. specialize (Hno (S j)). cbn in Hno.
    rewrite Nat.add_succ_r in Hno. apply Hno. lia.
Qed.

Lemma search_from_inv (r : regex) (n : nat) (s : list ascii) (m : match_obj) :
  search_from r n s = Some m ->
  exists pre s', s = pre ++ s' /\ match_at r (n + length pre) s' = Some m.
Proof.
  revert n. induction s as [|c s IH]; intros n; cbn.
  - destruct (match_at r n []) eqn:Hm; [|done]. intros [= ->].
    exists [], []. by rewrite Nat.add_0_r.
  - destruct (match_at r n (c :: s)) eqn:Hm.
    + intros [= ->]. exists [], (c :: s). by rewrite Nat.add_0_r.
    + intros Hs. apply IH in Hs as (pre & s' & -> & Hm').
      exists (c :: pre), s'. cbn. by rewrite Nat.add_succ_r.
Qed.

(** Where [/pull/] cannot start: inside [/pull/<number>] past its first
    character, and at what follows the number. *)
Lemma pull_not_inside (ds post : list ascii) (i : nat) :
  digits ds -> stops url_char post ->
  0 < i <= length (chars "/pull/" ++ ds) ->
  strip_prefix (chars "/pull/") (drop i (chars "/pull/" ++ ds) ++ post) = None.
Proof.
  intros [Hne Hds] Hpost Hi.
  assert (Hhead : forall l, (l = [] \/ exists c l', l = c :: l' /\ c <> "/"%char) ->
                            strip_prefix (chars "/pull/") l = None).
  { intros l [->|(c & l' & -> & Hc)]; [reflexivity|].
    cbn [strip_prefix chars list_ascii_of_string].
    destruct (ascii_eqb "/" c) eqn:Hx; [|done].
    apply ascii_eqb_true in Hx. done. }
  destruct i as [|[|[|[|[|[|i]]]]]];
    [lia|reflexivity|reflexivity|reflexivity|reflexivity| |].
  - destruct ds as [|d ds]; [done|]. apply Forall_cons in Hds as [Hd _].
    cbn [strip_prefix chars list_ascii_of_string drop app].
    rewrite (proj2 (ascii_eqb_true "/" "/") eq_refl).
    destruct (ascii_eqb "p" d) eqn:Hx; [|done].
    apply ascii_eqb_true in Hx as <-. done.
  - apply Hhead. cbn [chars list_ascii_of_string app drop].
    destruct (drop i ds) as [|d l] eqn:Hdrop.
    + cbn. destruct post as [|c post]; [by left|]. right.
      exists c, post. split; [done|]. intros ->. done.
    + right. exists d, (l ++ post). split; [done|].
      apply digit_no_slash.
      assert (Hin : d ∈ drop i ds) by (rewrite Hdrop; apply list_elem_of_here).
      apply (Forall_drop _ i) in Hds.
      by apply (proj1 (Forall_forall _ _) Hds).
Qed.

Lemma take_prefix (a b s : list ascii) (n : nat) :
  s = a ++ b -> n = length a -> take n s = a.
Proof. intros -> ->. apply take_app_length. Qed.

(** [PR_URL_PATTERN] tried at the start of a pull-request link that is
    followed by the end of the text, white space or a closing bracket:
    the link is matched whole. *)
Lemma url_pattern_matches (n : nat) (path ds post : list ascii) :
  path <> [] -> Forall (fun c => url_char c = true) path ->
  digits ds -> stops url_char post ->
  match_at Utils.PR_URL_PATTERN n (pull_url path ds ++ post)
  = Some (Match (text (pull_url path ds)) []).
Proof.
  intros Hnp Hp Hd Hpost. pose proof Hd as [Hnd Hds].
  unfold match_at, Utils.PR_URL_PATTERN, pull_url, gh_base.
  rewrite <- !app_assoc.
  rewrite !exec_seq, exec_lit. cbn [rest pos groups].
  rewrite strip_prefix_app.
  rewrite exec_plus. cbn [rest pos groups].
  replace (path ++ chars "/pull/" ++ ds ++ post)
    with (path ++ (chars "/pull/" ++ ds) ++ post)
    by (by rewrite <- !app_assoc).
  apply plus_greedy_backtrack; [done|done| |done| |].
  - apply Forall_app. split; [by repeat constructor|].
    eapply Forall_impl; [exact Hds|]. apply digit_url_char.
  - intros i Hi. cbn beta. rewrite exec_lit. cbn [rest pos groups].
    by rewrite pull_not_inside.
  - cbn beta. rewrite exec_lit. cbn [rest pos groups].
    rewrite <- app_assoc, strip_prefix_app.
    rewrite exec_plus. cbn [rest pos groups].
    apply plus_greedy_longest;
      [done|done|by apply stops_url_char_digit|].
    cbn beta. cbn [rest pos groups].
    do 3 f_equal.
    apply (take_prefix
             (chars "https://github.com/" ++ path ++ chars "/pull/" ++ ds)
             post); [by rewrite <- ?app_assoc|].
    rewrite !length_app. cbn. lia.
Qed.

Lemma url_pattern_needs_base (n : nat) (s : list ascii) :
  strip_prefix gh_base s = None ->
  match_at Utils.PR_URL_PATTERN n s = None.
Proof.
  intros H. unfold match_at, Utils.PR_URL_PATTERN.
  rewrite !exec_seq, exec_lit. cbn [rest pos groups].
  fold gh_base. by rewrite H.
Qed.

Lemma url_pattern_inv (n : nat) (s : list ascii) (m : match_obj) :
  match_at Utils.PR_URL_PATTERN n s = Some m ->
  exists path ds post,
    s = pull_url path ds ++ post
    /\ path <> [] /\ Forall (fun c => url_char c = true) path
    /\ digits ds /\ stops is_digit post
    /\ m = Match (text (pull_url path ds)) [].
Proof.
  unfold match_at, Utils.PR_URL_PATTERN.
  rewrite !exec_seq, exec_lit. cbn [rest pos groups].
  destruct (strip_prefix (chars "https://github.com/") s) as [s1|] eqn:Hs;
    [|done].
  apply strip_prefix_Some in Hs as ->.
  rewrite exec_plus. cbn [rest pos groups]. intros Hm.
  apply plus_greedy_sound in Hm as (path & p1 & -> & Hnp & Hp & Hm).
  cbn beta in Hm. rewrite exec_lit in Hm. cbn [rest pos groups] in Hm.
  destruct (strip_prefix (chars "/pull/") p1) as [p2|] eqn:Hp1; [|done].
  apply strip_prefix_Some in Hp1 as ->.
  rewrite exec_plus in Hm. cbn [rest pos groups] in Hm.
  apply plus_greedy_whole in Hm as (ds & post & -> & Hnd & Hd & Hstop & Hm);
    [|intros; by eexists].
  cbn beta in Hm. cbn [rest pos groups] in Hm. injection Hm as <-.
  exists path, ds, post. unfold pull_url, gh_base.
  split_and!; [by rewrite <- !app_assoc|done|done|by split|done|].
  do 2 f_equal.
  apply (take_prefix
           (chars "https://github.com/" ++ path ++ chars "/pull/" ++ ds)
           post); [by rewrite <- ?app_assoc|].
  rewrite !length_app. cbn. lia.
Qed.

End Extract.



Section Extract2.
Import Py Re Notions.

Lemma plus_greedy_stops {A} (p : ascii -> bool) (n : nat) (s : list ascii)
      (k : nat -> list ascii -> option A) :
  stops p s -> plus_greedy p n s k = None.
Proof. destruct s as [|c s]; cbn; [done|]. by intros ->. Qed.

(** Where [/pull/<digit>] cannot start: inside [/pull/<number>] past its
    first character, and in what follows the number when that has no
    [/pull/<digit>] of its own. *)
Lemma pull_not_after (ds run post : list ascii) (i : nat) (s' : list ascii) :
  digits ds -> Forall (fun c => url_char c = true) run ->
  stops url_char post -> no_pull run ->
  0 < i <= length (chars "/pull/" ++ ds ++ run) ->
  strip_prefix (chars "/pull/") (drop i (chars "/pull/" ++ ds ++ run) ++ post)
  = Some s' ->
  stops is_digit s'.
Proof.
  intros [Hne Hds] Hrun Hpost Hnp Hi.
  assert (Hhead : forall l,
             (l = [] \/ exists c l', l = c :: l' /\ c <> "/"%char) ->
             strip_prefix (chars "/pull/") l = None).
  { intros l [->|(c & l' & -> & Hc)]; [reflexivity|].
    cbn [strip_prefix chars list_ascii_of_string].
    destruct (ascii_eqb "/" c) eqn:Hx; [|done].
    apply ascii_eqb_true in Hx. done. }
  destruct i as [|[|[|[|[|[|i]]]]]];
    [lia|discriminate|discriminate|discriminate|discriminate| |].
  - destruct ds as [|d ds]; [done|]. apply Forall_cons in Hds as [Hd _].
    cbn [strip_prefix chars list_ascii_of_string drop app].
    rewrite (proj2 (ascii_eqb_true "/" "/") eq_refl).
    destruct (ascii_eqb "p" d) eqn:Hx; [|done].
    apply ascii_eqb_true in Hx as <-. done.
  - cbn [chars list_ascii_of_string app drop].
    destruct (decide (i < length ds)) as [Hlt|Hge].
    + rewrite drop_app_le by lia.
      destruct (drop i ds) as [|d l] eqn:Hdrop.
      { apply (f_equal length) in Hdrop. rewrite length_drop in Hdrop.
        cbn in Hdrop. lia. }
      rewrite Hhead; [done|]. right. exists d, ((l ++ run) ++ post).
      split; [done|]. apply digit_no_slash.
      assert (Hin : d ∈ drop i ds) by (rewrite Hdrop; apply list_elem_of_here).
      apply (Forall_drop _ i) in Hds.
      by apply (proj1 (Forall_forall _ _) Hds).
    + rewrite drop_app_ge by lia.
      set (j := i - length ds). intros Hs.
      apply strip_prefix_Some in Hs.
      destruct s' as [|d b]; [done|]. cbn.
      destruct (is_digit d) eqn:Hd; [|done]. exfalso.
      pose proof (digit_url_char d Hd) as Hdu.
      assert (Hrun' : run = take j run ++ drop j run)
        by (by rewrite take_drop).
      destruct (drop j run) as [|c0 [|c1 [|c2 [|c3 [|c4 [|c5 [|c6 r]]]]]]]
        eqn:Hr; cbn in Hs;
        try (first [subst post|injection Hs as ? Hs; subst];
             first [by vm_compute in Hpost|cbn in Hpost; congruence]).
      injection Hs as -> -> -> -> -> -> -> Hb.
      rewrite (Hnp (take j run) d r) in Hd; [done|]. exact Hrun'.
Qed.

(** [PR_URL_PATTERN] tried at the start of a pull-request link.  The class
    [[^\s)]+] first runs over the whole link and what follows it up to
    white space, a closing bracket or the end, and is then given back until
    [/pull/<number>] fits: with no later [/pull/<digit>] in that run, the
    match is the link. *)
Lemma url_pattern_finds (n : nat) (path ds run post : list ascii) :
  path <> [] -> Forall (fun c => url_char c = true) path ->
  digits ds ->
  Forall (fun c => url_char c = true) run -> no_pull run ->
  stops is_digit (run ++ post) -> stops url_char post ->
  match_at Utils.PR_URL_PATTERN n (pull_url path ds ++ run ++ post)
  = Some (Match (text (pull_url path ds)) []).
Proof.
  intros Hnp Hp Hd Hrun Hnpull Hstop Hpost. pose proof Hd as [Hnd Hds].
  unfold match_at, Utils.PR_URL_PATTERN, pull_url, gh_base.
  rewrite <- !app_assoc.
  rewrite !exec_seq, exec_lit. cbn [rest pos groups].
  rewrite strip_prefix_app.
  rewrite exec_plus. cbn [rest pos groups].
  replace (path ++ chars "/pull/" ++ ds ++ run ++ post)
    with (path ++ (chars "/pull/" ++ ds ++ run) ++ post)
    by (by rewrite <- !app_assoc).
  apply plus_greedy_backtrack; [done|done| |done| |].
  - apply Forall_app. split; [by repeat constructor|].
    apply Forall_app. split; [|done].
    eapply Forall_impl; [exact Hds|]. apply digit_url_char.
  - intros i Hi. cbn beta. rewrite exec_lit. cbn [rest pos groups].
    destruct (strip_prefix _ _) as [s'|] eqn:Hs; [|done].
    rewrite exec_plus. cbn [rest pos groups].
    apply plus_greedy_stops.
    by apply (pull_not_after ds run post i s').
  - cbn beta. rewrite exec_lit. cbn [rest pos groups].
    rewrite <- app_assoc, strip_prefix_app.
    rewrite exec_plus. cbn [rest pos groups].
    rewrite <- app_assoc.
    apply plus_greedy_longest; [done|done|done|].
    cbn beta. cbn [rest pos groups].
    do 3 f_equal.
    apply (take_prefix
             (chars "https://github.com/" ++ path ++ chars "/pull/" ++ ds)
             (run ++ post)); [by rewrite <- ?app_assoc|].
    rewrite !length_app. cbn. lia.
Qed.

(** X. What [extract_pr_url] returns is a pull-request link of the text:
    [https://github.com/], a non-empty path without white space or closing
    bracket, [/pull/] and a non-empty run of digits that is not followed by
    a further digit. *)
Theorem extract_pr_url_returns_a_link (t u : string) :
  Utils.extract_pr_url t = Some u ->
  exists pre path ds post,
    chars t = pre ++ pull_url path ds ++ post
    /\ path <> [] /\ Forall (fun c => url_char c = true) path
    /\ digits ds /\ stops is_digit post
    /\ u = text (pull_url path ds).
Proof.
  unfold Utils.extract_pr_url, re_search.
  destruct (search_from _ _ _) as [m|] eqn:Hm; [|done]. intros [= <-].
  apply search_from_inv in Hm as (pre & s' & Ht & Hm).
  apply url_pattern_inv in Hm
    as (path & ds & post & -> & Hnp & Hp & Hd & Hstop & ->).
  by exists pre, path, ds, post.
Qed.

Lemma extract_pr_url_returns_a_link_witness :
  exists pre path ds post,
    chars "PR: https://github.com/o/r/pull/12 created"
    = pre ++ pull_url path ds ++ post
    /\ path <> [] /\ Forall (fun c => url_char c = true) path
    /\ digits ds /\ stops is_digit post
    /\ "https://github.com/o/r/pull/12" = text (pull_url path ds).
Proof.
  apply (extract_pr_url_returns_a_link
           "PR: https://github.com/o/r/pull/12 created").
  reflexivity.
Defined.

(** X. [extract_pr_url] returns the first pull-request link of a text and
    leaves out what follows the number.  Where [https://github.com/] first
    occurs at the start of [https://github.com/<path>/pull/<number>], and
    the link is followed by characters other than white space and closing
    bracket that do not start with a digit and contain no [/pull/<digit>],
    up to white space, a closing bracket or the end of the text, the result
    is the link, whatever the text before and after it. *)
Theorem extract_pr_url_finds_first_link
        (t : string) (pre path ds run post : list ascii) :
  chars t = pre ++ pull_url path ds ++ run ++ post ->
  before_first_link pre (chars t) ->
  path <> [] -> Forall (fun c => url_char c = true) path ->
  digits ds ->
  Forall (fun c => url_char c = true) run -> no_pull run ->
  stops is_digit (run ++ post) -> stops url_char post ->
  Utils.extract_pr_url t = Some (text (pull_url path ds)).
Proof.
  intros Ht Hfirst Hnp Hp Hd Hrun Hnpull Hstop Hpost.
  unfold Utils.extract_pr_url, re_search.
  rewrite Ht in Hfirst |- *.
  rewrite search_from_skip.
  - rewrite (search_from_hit _ _ _ (Match (text (pull_url path ds)) []));
      [done|].
    by apply url_pattern_finds.
  - intros j Hj. apply url_pattern_needs_base.
    destruct (strip_prefix gh_base _) as [b|] eqn:Hb; [|done]. exfalso.
    apply strip_prefix_Some in Hb.
    pose proof (Hfirst (take j (pre ++ pull_url path ds ++ run ++ post)) b)
      as Hle.
    rewrite <- Hb, take_drop in Hle. specialize (Hle eq_refl).
    rewrite length_take in Hle. lia.
Qed.

Lemma extract_pr_url_finds_first_link_witness :
  Utils.extract_pr_url
    "Opened (https://github.com/o/r/pull/12/files), see https://github.com/o/r/pull/13"
  = Some "https://github.com/o/r/pull/12".
Proof.
  apply (extract_pr_url_finds_first_link
           "Opened (https://github.com/o/r/pull/12/files), see https://github.com/o/r/pull/13"
           (chars "Opened (") (chars "o/r") (chars "12") (chars "/files")
           (chars "), see https://github.com/o/r/pull/13")).
  - reflexivity.
  - intros a b H.
    do 8 (destruct a as [|? a]; [discriminate H|]). cbn. lia.
  - discriminate.
  - by repeat constructor.
  - split; [discriminate|by repeat constructor].
  - by repeat constructor.
  - intros a d b H.
    do 7 (destruct a as [|? a]; [discriminate H|]). discriminate H.
  - reflexivity.
  - reflexivity.
Defined.

End Extract2.

Section SessionResult.
Import Py Notions.
Context {St : Type}.
Variable query : string -> Agent.ClaudeAgentOptions -> Agent.stream.
Variable claude_allowed_tools : list string.
Variable PLUGIN_DIR : string.
Variable on_message : option (@Agent.callback St).

(** A property of the callback's state under which the callback returns,
    and which it keeps. *)
Variable I : St -> Prop.
Hypothesis cb_returns :
  forall cb e s, on_message = Some cb -> I s ->
    (cb e s).1 = Returned tt /\ I (cb e s).2.

Lemma delivered_app (es1 es2 : list Agent.entry) (s : St) :
  delivered on_message (es1 ++ es2) s
  = delivered on_message es2 (delivered on_message es1 s).
Proof. unfold delivered. by rewrite foldl_app. Qed.

Lemma emit_returns (e : Agent.entry) (l : Agent.locals) (s : St) :
  I s ->
  Agent._emit on_message e (l, s) =
    (Returned tt,
     (Agent.Locals (Agent.output_parts l) (Agent.l_conversation l ++ [e])
                   (Agent.l_cost_usd l), delivered on_message [e] s))
  /\ I (delivered on_message [e] s).
Proof.
  intros Hs. unfold Agent._emit, mbind, Agent.M_bind, Agent.bind. cbn.
  destruct on_message as [cb|] eqn:Hcb; cbn; [|done].
  destruct (cb_returns cb e s eq_refl Hs) as [Hr HI].
  destruct (cb e s) as [r s']; cbn in *. by subst r.
Qed.

Lemma on_block_returns (b : Agent.block) (l : Agent.locals) (s : St) :
  I s ->
  Agent.on_block on_message b (l, s) =
    (Returned tt,
     (Agent.Locals (Agent.output_parts l ++ text_of_block b)
                   (Agent.l_conversation l ++ [entry_of_block b])
                   (Agent.l_cost_usd l),
      delivered on_message [entry_of_block b] s))
  /\ I (delivered on_message [entry_of_block b] s).
Proof.
  intros Hs.
  pose proof (fun l' => emit_returns (entry_of_block b) l' s Hs) as He.
  destruct b as [t|t|n i|id [c|c] ie|ty d]; destruct l as [op cv c0];
    cbn [Agent.on_block entry_of_block text_of_block] in *;
    rewrite ?app_nil_r;
    try (destruct (He (Agent.Locals op cv c0)) as [He' HI];
         split; [exact He'|exact HI]).
  unfold mbind, Agent.M_bind, Agent.bind. cbn.
  destruct (He (Agent.Locals (op ++ [t]) cv c0)) as [-> HI].
  by split.
Qed.

Lemma blocks_return (bs : list Agent.block) (l : Agent.locals) (s : St) :
  I s ->
  Agent.for_each bs (Agent.on_block on_message) (l, s) =
    (Returned tt,
     (Agent.Locals (Agent.output_parts l ++ (bs ≫= text_of_block))
                   (Agent.l_conversation l ++ (entry_of_block <$> bs))
                   (Agent.l_cost_usd l),
      delivered on_message (entry_of_block <$> bs) s))
  /\ I (delivered on_message (entry_of_block <$> bs) s).
Proof.
  revert l s. induction bs as [|b bs IH]; intros l s Hs.
  - destruct l. cbn. by rewrite !app_nil_r.
  - cbn [Agent.for_each]. unfold Agent.bind at 1.
    destruct (on_block_returns b l s Hs) as [-> HI].
    destruct (IH (Agent.Locals (Agent.output_parts l ++ text_of_block b)
                    (Agent.l_conversation l ++ [entry_of_block b])
                    (Agent.l_cost_usd l)) _ HI) as [-> HI'].
    cbn. rewrite <- !app_assoc. by split.
Qed.

Lemma message_returns (m : Agent.message) (l : Agent.locals) (s : St) :
  well_costed m -> I s ->
  Agent.on_stream_message on_message m (l, s) =
    (Returned tt,
     (locals_after l [m], delivered on_message (entries_of m) s))
  /\ I (delivered on_message (entries_of m) s).
Proof.
  intros Hm Hs. unfold locals_after. destruct m as [bs|cost result|ty d].
  - cbn [Agent.on_stream_message].
    destruct (blocks_return bs l s Hs) as [-> HI].
    cbn. by rewrite !app_nil_r.
  - destruct cost as [c|]; [|done]. destruct l as [op cv c0].
    cbn [Agent.on_stream_message entries_of].
    unfold mbind, Agent.M_bind, Agent.bind. cbn.
    destruct (truthy result); cbn.
    + destruct (emit_returns (Agent.EResult result (Some c))
                  (Agent.Locals (op ++ [default "" result]) cv (Some c))
                  s Hs) as [-> HI].
      cbn. rewrite ?app_nil_r. by split.
    + destruct (emit_returns (Agent.EResult result (Some c))
                  (Agent.Locals op cv (Some c)) s Hs) as [-> HI].
      cbn. rewrite ?app_nil_r. by split.
  - destruct l as [op cv c0]. cbn [Agent.on_stream_message entries_of].
    destruct (emit_returns (Agent.EOther ty d) (Agent.Locals op cv c0) s Hs)
      as [-> HI].
    cbn. rewrite ?app_nil_r. by split.
Qed.

Lemma messages_return (ms : list Agent.message) (l : Agent.locals) (s : St) :
  Forall well_costed ms -> I s ->
  Agent.for_each ms (Agent.on_stream_message on_message) (l, s) =
    (Returned tt,
     (locals_after l ms, delivered on_message (ms ≫= entries_of) s))
  /\ I (delivered on_message (ms ≫= entries_of) s).
Proof.
  intros Hms. revert l s. induction Hms as [|m ms Hm _ IH]; intros l s Hs.
  - destruct l. unfold locals_after. cbn. by rewrite !app_nil_r.
  - cbn [Agent.for_each]. unfold Agent.bind at 1.
    destruct (message_returns m l s Hm Hs) as [-> HI].
    destruct (IH (locals_after l [m]) _ HI) as [-> HI'].
    rewrite <- delivered_app in *.
    unfold locals_after. cbn. rewrite !app_nil_r.
    rewrite <- !app_assoc. by split.
Qed.

(** A result message without its cost: the entry is delivered, then the
    formatting of the log line raises. *)
Lemma costless_raises (result : option string) (l : Agent.locals) (s : St) :
  I s ->
  Agent.on_stream_message on_message (Agent.ResultMessage None result) (l, s)
  = (Raised (Exn "TypeError" no_cost_error),
     (Agent.Locals
        (Agent.output_parts l
         ++ texts_of (Agent.ResultMessage None result))
        (Agent.l_conversation l ++ [Agent.EResult result None]) None,
      delivered on_message [Agent.EResult result None] s)).
Proof.
  intros Hs. destruct l as [op cv c0].
  cbn [Agent.on_stream_message texts_of].
  unfold mbind, Agent.M_bind, Agent.bind. cbn.
  destruct (truthy result); cbn.
  - destruct (emit_returns (Agent.EResult result None)
                (Agent.Locals (op ++ [default "" result]) cv None)
                s Hs) as [-> HI].
    reflexivity.
  - destruct (emit_returns (Agent.EResult result None)
                (Agent.Locals op cv None) s Hs) as [-> HI].
    cbn. by rewrite app_nil_r.
Qed.

End SessionResult.

Lemma well_costed_split (ms : list Agent.message) :
  Forall Notions.well_costed ms
  \/ exists ms1 result ms2,
       ms = ms1 ++ Agent.ResultMessage None result :: ms2
       /\ Forall Notions.well_costed ms1.
Proof.
  induction ms as [|m ms [IH|(ms1 & r & ms2 & -> & H1)]].
  - left. constructor.
  - destruct m as [bs|[c|] r|ty d]; try (left; by constructor).
    right. by exists [], r, ms.
  - destruct m as [bs|[c|] r'|ty d];
      try (right; eexists (_ :: ms1), r, ms2; split; [done|by constructor]).
    right. by exists [], r', (ms1 ++ Agent.ResultMessage None r :: ms2).
Qed.

Section SessionOutcome.
Import Py Notions.
Context {St : Type}.
Variable query : string -> Agent.ClaudeAgentOptions -> Agent.stream.
Variable claude_allowed_tools : list string.
Variable PLUGIN_DIR : string.

Lemma for_each_app {S A : Type} (xs ys : list A)
      (body : A -> Agent.M S unit) (s : S) :
  Agent.for_each (xs ++ ys) body s =
    match Agent.for_each xs body s with
    | (Returned _, s') => Agent.for_each ys body s'
    | (Raised e, s') => (Raised e, s')
    end.
Proof.
  revert s. induction xs as [|x xs IH]; intros s; [done|].
  cbn [app Agent.for_each]. unfold Agent.bind.
  destruct (body x s) as [[[]|e] s']; [apply IH|done].
Qed.

(** [run_agent] in terms of what consuming the stream does. *)
Lemma run_agent_consume (prompt working_dir system_prompt : string)
      (on_message : option (@Agent.callback St)) (s : St) :
  let q := query prompt
             (Agent.Options system_prompt working_dir "bypassPermissions"
                            claude_allowed_tools [PLUGIN_DIR]) in
  Agent.run_agent query claude_allowed_tools PLUGIN_DIR prompt working_dir
                  system_prompt on_message s =
    match Agent.consume on_message q (Agent.Locals [] [] (Some 0%Q), s) with
    | (Returned _, (l, s')) =>
        (Returned (Agent.mkAgentResult (join nl (Agent.output_parts l))
                     (Agent.l_cost_usd l) None (Agent.l_conversation l)), s')
    | (Raised e, (l, s')) =>
        (Returned (Agent.mkAgentResult "" (Agent.l_cost_usd l)
                     (Some (exn_str e)) (Agent.l_conversation l)), s')
    end.
Proof.
  intros q. unfold Agent.run_agent, Agent.run_agent_body, Agent.try_except.
  fold q. unfold mbind, Agent.M_bind, Agent.bind.
  by destruct (Agent.consume on_message q _) as [[[]|e] [l s']].
Qed.

Lemma quiet_returns (on_message : option (@Agent.callback St)) :
  quiet on_message ->
  forall cb e s, on_message = Some cb -> True ->
    (cb e s).1 = Returned tt /\ True.
Proof. intros Hq cb e s Hcb _. split; [by apply Hq|done]. Qed.

(** What consuming a stream does, by the first result message that lacks
    its cost, if any, and by the way the stream ends. *)
Lemma consume_outcome (on_message : option (@Agent.callback St))
      (I : St -> Prop) (q : Agent.stream) (l : Agent.locals) (s : St) :
  (forall cb e s, on_message = Some cb -> I s ->
     (cb e s).1 = Returned tt /\ I (cb e s).2) ->
  I s ->
  (Forall well_costed (Agent.items q) ->
   Agent.consume on_message q (l, s) =
     (match Agent.ending q with
      | None => Returned tt
      | Some e => Raised e
      end,
      (locals_after l (Agent.items q),
       delivered on_message (Agent.items q ≫= entries_of) s)))
  /\ (forall ms1 result ms2,
        Agent.items q = ms1 ++ Agent.ResultMessage None result :: ms2 ->
        Forall well_costed ms1 ->
        Agent.consume on_message q (l, s) =
          (Raised (Exn "TypeError" no_cost_error),
           (Agent.Locals
              (Agent.output_parts l ++ (ms1 ≫= texts_of)
               ++ texts_of (Agent.ResultMessage None result))
              (Agent.l_conversation l ++ (ms1 ≫= entries_of)
               ++ [Agent.EResult result None])
              None,
            delivered on_message
              ((ms1 ≫= entries_of) ++ [Agent.EResult result None]) s))).
Proof.
  intros Hcb Hs. split.
  - intros Hms. unfold Agent.consume, mbind, Agent.M_bind, Agent.bind.
    destruct (messages_return on_message I Hcb (Agent.items q) l s Hms Hs)
      as [-> _].
    by destruct (Agent.ending q).
  - intros ms1 result ms2 Hq H1.
    unfold Agent.consume, mbind, Agent.M_bind, Agent.bind.
    rewrite Hq, for_each_app.
    destruct (messages_return on_message I Hcb ms1 l s H1 Hs) as [-> HI].
    cbn [Agent.for_each]. unfold Agent.bind.
    rewrite (costless_raises on_message I Hcb result _ _ HI).
    rewrite <- delivered_app. unfold locals_after. cbn.
    by rewrite <- !app_assoc.
Qed.

Lemma run_agent_delivers (prompt working_dir system_prompt : string)
      (on_message : option (@Agent.callback St)) (s : St) :
  exists r,
    Agent.run_agent query claude_allowed_tools PLUGIN_DIR prompt working_dir
                    system_prompt on_message s
    = (Returned r, delivered on_message (Agent.conversation r) s)
    /\ (Agent.success r = false -> Agent.output r = "").
Proof.
  destruct (run_agent_keeps query claude_allowed_tools PLUGIN_DIR
              (fun conv s' => s' = delivered on_message conv s) on_message)
    with (prompt := prompt) (working_dir := working_dir)
         (system_prompt := system_prompt) (s := s)
    as (r & s' & Hrun & -> & Hout).
  - intros e conv s1 ->. by rewrite delivered_app.
  - reflexivity.
  - by exists r.
Qed.

(** X. The callback is called on each entry of the conversation that
    [run_agent] returns, once and in the order of the conversation, and on
    nothing else.  This holds whatever the stream yields and however it
    ends, and also when a call of the callback raises: the entry it was
    called on is the last of the conversation returned. *)
Theorem callback_sees_exactly_the_conversation
        (prompt working_dir system_prompt : string)
        (on_message : option (@Agent.callback St)) (s : St) :
  exists r,
    Agent.run_agent query claude_allowed_tools PLUGIN_DIR prompt working_dir
                    system_prompt on_message s
    = (Returned r, delivered on_message (Agent.conversation r) s).
Proof.
  destruct (run_agent_delivers prompt working_dir system_prompt on_message s)
    as (r & Hr & _).
  by exists r.
Qed.

(** X. With a callback that returns on every entry, [run_agent] reports
    success exactly when the stream ends without raising and every result
    message it yielded carried its cost.  The result then holds the text
    blocks and the non-empty results of the stream, joined by line feeds,
    the cost of the last result message (0 if there was none) and one
    conversation entry per block and per other message, in stream order. *)
Theorem run_agent_succeeds_exactly
        (prompt working_dir system_prompt : string)
        (on_message : option (@Agent.callback St)) (s : St) :
  quiet on_message ->
  let q := query prompt
             (Agent.Options system_prompt working_dir "bypassPermissions"
                            claude_allowed_tools [PLUGIN_DIR]) in
  exists r s',
    Agent.run_agent query claude_allowed_tools PLUGIN_DIR prompt working_dir
                    system_prompt on_message s = (Returned r, s')
    /\ (Agent.success r = true
        <-> Agent.ending q = None /\ Forall well_costed (Agent.items q))
    /\ (Agent.success r = true ->
        r = Agent.mkAgentResult
              (join nl (Agent.items q ≫= texts_of))
              (foldl cost_after (Some 0%Q) (Agent.items q))
              None
              (Agent.items q ≫= entries_of)).
Proof.
  intros Hquiet q. rewrite run_agent_consume. fold q.
  destruct (consume_outcome on_message (fun _ => True) q
              (Agent.Locals [] [] (Some 0%Q)) s
              (quiet_returns on_message Hquiet) Logic.I) as [Hall Hcut].
  destruct (well_costed_split (Agent.items q))
    as [Hms|(ms1 & result & ms2 & Hq & H1)].
  - rewrite (Hall Hms). destruct (Agent.ending q) as [e|] eqn:He.
    + eexists _, _. split; [reflexivity|]. cbn. split; [|done].
      split; [done|]. by intros [? _].
    + eexists _, _. split; [reflexivity|]. cbn. split; [|done].
      split; done.
  - rewrite (Hcut ms1 result ms2 Hq H1).
    eexists _, _. split; [reflexivity|]. cbn. split; [|done].
    split; [done|]. intros [_ Hms]. rewrite Hq in Hms.
    apply Forall_app in Hms as [_ Hms]. by apply Forall_cons in Hms as [? _].
Qed.

(** X. A result message whose cost is missing makes the run fail, however
    the stream goes on: the entry of that message is still delivered and
    kept, then formatting the cost for the log raises.  The result has an
    empty output, no cost, the text of that [TypeError] as its error, and
    the conversation up to and including the entry of the result message;
    what the stream yields afterwards is not read. *)
Theorem costless_result_fails_the_run
        (prompt working_dir system_prompt : string)
        (on_message : option (@Agent.callback St)) (s : St)
        (ms1 ms2 : list Agent.message) (result : option string) :
  quiet on_message ->
  Agent.items
    (query prompt
       (Agent.Options system_prompt working_dir "bypassPermissions"
                      claude_allowed_tools [PLUGIN_DIR]))
  = ms1 ++ Agent.ResultMessage None result :: ms2 ->
  Forall well_costed ms1 ->
  Agent.run_agent query claude_allowed_tools PLUGIN_DIR prompt working_dir
                  system_prompt on_message s
  = (Returned
       (Agent.mkAgentResult "" None (Some no_cost_error)
          ((ms1 ≫= entries_of) ++ [Agent.EResult result None])),
     delivered on_message
       ((ms1 ≫= entries_of) ++ [Agent.EResult result None]) s).
Proof.
  intros Hquiet Hq H1. rewrite run_agent_consume. cbv zeta.
  set (q := query _ _) in *.
  destruct (consume_outcome on_message (fun _ => True) q
              (Agent.Locals [] [] (Some 0%Q)) s
              (quiet_returns on_message Hquiet) Logic.I) as [_ Hcut].
  by rewrite (Hcut ms1 result ms2 Hq H1).
Qed.

End SessionOutcome.

Lemma run_agent_succeeds_exactly_witness :
  let q := Notions.fine_query "p"
             (Agent.Options "sp" "/w" "bypassPermissions" [] ["plugins"]) in
  exists r s',
    Agent.run_agent (St := unit) Notions.fine_query [] "plugins" "p" "/w"
                    "sp" None tt = (Py.Returned r, s')
    /\ (Agent.success r = true
        <-> Agent.ending q = None
            /\ Forall Notions.well_costed (Agent.items q))
    /\ (Agent.success r = true ->
        r = Agent.mkAgentResult
              (Py.join Py.nl (Agent.items q ≫= Notions.texts_of))
              (foldl Notions.cost_after (Some 0%Q) (Agent.items q))
              None
              (Agent.items q ≫= Notions.entries_of)).
Proof.
  apply (run_agent_succeeds_exactly (St := unit) Notions.fine_query []
           "plugins" "p" "/w" "sp" None tt).
  intros cb e s H. discriminate H.
Defined.

Lemma costless_result_fails_the_run_witness :
  Agent.run_agent (St := unit) Notions.costless_query [] "plugins" "p" "/w"
                  "sp" None tt
  = (Py.Returned
       (Agent.mkAgentResult "" None (Some Notions.no_cost_error)
          [Agent.EAssistantText "hello";
           Agent.EResult (Some "done") None]),
     tt).
Proof.
  apply (costless_result_fails_the_run (St := unit) Notions.costless_query
           [] "plugins" "p" "/w" "sp" None tt
           [Agent.AssistantMessage [Agent.TextBlock "hello"]]
           [Agent.AssistantMessage [Agent.TextBlock "more"]]
           (Some "done")).
  - intros cb e s H. discriminate H.
  - reflexivity.
  - repeat constructor.
Defined.


Section BackgroundTask.
Import Py Notions.
Variable query : string -> Agent.ClaudeAgentOptions -> Agent.stream.
Variable claude_allowed_tools : list string.
Variable PLUGIN_DIR : string.
Variable uuid12 : string.
Variable WORKFLOW_SYSTEM_PROMPT : string -> string.
Variable TEAM_REPOS_CSV : string.

Lemma appended_app (es1 es2 : list Agent.entry) (j : Server.job) :
  appended es2 (appended es1 j) = appended (es1 ++ es2) j.
Proof. unfold appended. cbn. by rewrite <- app_assoc. Qed.

(** The callback of [_run_job] on a store that holds the job: the entries
    are added to the job's log and nothing else changes. *)
Lemma delivered_on_message (job_id : string) (es : list Agent.entry)
      (js : gmap string Server.job) (j : Server.job) :
  js !! job_id = Some j ->
  delivered (Some (Server.on_message job_id)) es js
  = <[job_id := appended es j]> js.
Proof.
  revert js j. induction es as [|e es IH]; intros js j Hj.
  - cbn. rewrite appended_nil. by rewrite insert_id.
  - unfold delivered. cbn [foldl]. fold (delivered (St := gmap string Server.job)).
    unfold Server.on_message at 2.
    rewrite (update_job_present _ _ _ _ Hj). cbn [snd].
    change (foldl _ ?s es) with
      (delivered (Some (Server.on_message job_id)) es s).
    rewrite (IH _ (Server.append_message e j)); [|apply lookup_insert_eq].
    rewrite insert_insert_eq. f_equal.
    change (Server.append_message e j) with (appended [e] j).
    by rewrite appended_app.
Qed.

Lemma on_message_returns (job_id : string) :
  forall cb e (s : gmap string Server.job),
    Some (Server.on_message job_id) = Some cb ->
    is_Some (s !! job_id) ->
    (cb e s).1 = Returned tt /\ is_Some ((cb e s).2 !! job_id).
Proof.
  intros cb e s [= <-] [j Hj]. unfold Server.on_message.
  rewrite (update_job_present _ _ _ _ Hj). cbn.
  split; [done|]. rewrite lookup_insert_eq. by eexists.
Qed.

(** [_run_job] on a store that holds the job, in terms of the result of the
    session. *)
Lemma run_job_result (job_id url : string) (js : gmap string Server.job)
      (j : Server.job) :
  js !! job_id = Some j ->
  exists r,
    Agent.run_agent query claude_allowed_tools PLUGIN_DIR
      ("Execute the full OAPE feature development workflow for this "
       +:+ "Enhancement Proposal: " +:+ url)
      ("/tmp/oape-" +:+ uuid12) (WORKFLOW_SYSTEM_PROMPT TEAM_REPOS_CSV)
      (Some (Server.on_message job_id)) js
    = (Returned r, <[job_id := appended (Agent.conversation r) j]> js)
    /\ Server._run_job query claude_allowed_tools PLUGIN_DIR uuid12
         WORKFLOW_SYSTEM_PROMPT TEAM_REPOS_CSV job_id url js
       = (Returned tt,
          <[job_id :=
              if Agent.success r
              then Server.set_cost_usd (Agent.cost_usd r)
                     (Server.set_output (Agent.output r)
                        (Server.set_status Server.success
                           (appended (Agent.conversation r) j)))
              else Server.set_error (Agent.error r)
                     (Server.set_status Server.failed
                        (appended (Agent.conversation r) j))]> js).
Proof.
  intros Hj.
  destruct (run_agent_delivers query claude_allowed_tools PLUGIN_DIR
              ("Execute the full OAPE feature development workflow for this "
               +:+ "Enhancement Proposal: " +:+ url)
              ("/tmp/oape-" +:+ uuid12) (WORKFLOW_SYSTEM_PROMPT TEAM_REPOS_CSV)
              (Some (Server.on_message job_id)) js) as (r & Hrun & _).
  rewrite (delivered_on_message _ _ _ _ Hj) in Hrun.
  exists r. split; [exact Hrun|].
  unfold Server._run_job, Agent.run_workflow.
  unfold mbind, Agent.M_bind, Agent.bind at 1.
  rewrite (update_job_present _ _ _ _ Hj), insert_id by done.
  unfold Agent.bind at 1. rewrite Hrun.
  destruct (Agent.success r); unfold Agent.bind.
  - erewrite update_job_present by apply lookup_insert_eq.
    erewrite update_job_present by apply lookup_insert_eq.
    erewrite update_job_present by apply lookup_insert_eq.
    by rewrite !insert_insert_eq.
  - erewrite update_job_present by apply lookup_insert_eq.
    erewrite update_job_present by apply lookup_insert_eq.
    by rewrite !insert_insert_eq.
Qed.

(** X. [_run_job] changes its own job only.  Run for a job of the store,
    it returns; every other job is as before; of its own job the proposal
    URL is kept, the log is the log before with entries added at the end,
    and the status is [success] or [failed], no longer [running]. *)
Theorem run_job_touches_only_its_job
        (job_id url : string) (js : gmap string Server.job)
        (j : Server.job) :
  js !! job_id = Some j ->
  exists js' j',
    Server._run_job query claude_allowed_tools PLUGIN_DIR uuid12
      WORKFLOW_SYSTEM_PROMPT TEAM_REPOS_CSV job_id url js = (Returned tt, js')
    /\ js' !! job_id = Some j'
    /\ (forall k, k <> job_id -> js' !! k = js !! k)
    /\ Server.ep_url j' = Server.ep_url j
    /\ (exists more,
          Server.conversation j' = Server.conversation j ++ more)
    /\ Server.status j' <> Server.running.
Proof.
  intros Hj. destruct (run_job_result job_id url js j Hj) as (r & _ & ->).
  eexists _, _. split; [reflexivity|].
  split; [apply lookup_insert_eq|].
  split; [intros k Hk; by apply lookup_insert_ne|].
  destruct (Agent.success r); cbn; (split; [done|]);
    (split; [by eexists|done]).
Qed.

(** X. When the stream of the session ends without raising and every
    result message carries its cost, [_run_job] leaves the job with status
    [success], its log extended by one entry per block and per other message
    of the stream, the output made of the text blocks and non-empty results
    joined by line feeds, and the cost of the last result message; the
    error field and all other jobs are as before.  In every other case the
    job ends with status [failed]. *)
Theorem run_job_stores_the_result
        (job_id url : string) (js : gmap string Server.job)
        (j : Server.job) :
  js !! job_id = Some j ->
  let q := query
             ("Execute the full OAPE feature development workflow for this "
              +:+ "Enhancement Proposal: " +:+ url)
             (Agent.Options (WORKFLOW_SYSTEM_PROMPT TEAM_REPOS_CSV)
                ("/tmp/oape-" +:+ uuid12) "bypassPermissions"
                claude_allowed_tools [PLUGIN_DIR]) in
  exists js' j',
    Server._run_job query claude_allowed_tools PLUGIN_DIR uuid12
      WORKFLOW_SYSTEM_PROMPT TEAM_REPOS_CSV job_id url js = (Returned tt, js')
    /\ js' !! job_id = Some j'
    /\ (Agent.ending q = None -> Forall well_costed (Agent.items q) ->
        js' = <[job_id :=
                  Server.Job Server.success (Server.ep_url j)
                    (Server.conversation j ++ (Agent.items q ≫= entries_of))
                    (join nl (Agent.items q ≫= texts_of))
                    (foldl cost_after (Some 0%Q) (Agent.items q))
                    (Server.error j)]> js)
    /\ (~ (Agent.ending q = None /\ Forall well_costed (Agent.items q)) ->
        Server.status j' = Server.failed).
Proof.
  intros Hj q.
  destruct (run_job_result job_id url js j Hj) as (r & Hrun & ->).
  rewrite run_agent_consume in Hrun. fold q in Hrun.
  destruct (consume_outcome (Some (Server.on_message job_id))
              (fun s => is_Some (s !! job_id)) q
              (Agent.Locals [] [] (Some 0%Q)) js
              (on_message_returns job_id) (ltac:(by eexists)))
    as [Hall Hcut].
  eexists _, _. split; [reflexivity|]. split; [apply lookup_insert_eq|].
  destruct (well_costed_split (Agent.items q))
    as [Hms|(ms1 & result & ms2 & Hq & H1)].
  - rewrite (Hall Hms) in Hrun.
    destruct (Agent.ending q) as [e|] eqn:He.
    + injection Hrun as <- _. cbn. split; [done|]. done.
    + injection Hrun as <- _. cbn. split; [|by intros []].
      intros _ _. f_equal.
  - rewrite (Hcut ms1 result ms2 Hq H1) in Hrun.
    injection Hrun as <- _. cbn. split; [|done].
    intros _ Hms. rewrite Hq in Hms.
    apply Forall_app in Hms as [_ Hms]. by apply Forall_cons in Hms as [? _].
Qed.

End BackgroundTask.

Lemma run_job_touches_only_its_job_witness :
  let j := Server.Job Server.running Notions.url_123 [] "" (Some 0%Q) None in
  exists js' j',
    Server._run_job Notions.broken_query [] "plugins" "0123456789ab"
      (fun csv => csv) "team-repos.csv" "j1" Notions.url_123 Notions.one_job
    = (Py.Returned tt, js')
    /\ js' !! "j1" = Some j'
    /\ (forall k, k <> "j1" -> js' !! k = Notions.one_job !! k)
    /\ Server.ep_url j' = Server.ep_url j
    /\ (exists more,
          Server.conversation j' = Server.conversation j ++ more)
    /\ Server.status j' <> Server.running.
Proof.
  apply (run_job_touches_only_its_job Notions.broken_query [] "plugins"
           "0123456789ab" (fun csv => csv) "team-repos.csv" "j1"
           Notions.url_123 Notions.one_job).
  reflexivity.
Defined.

Lemma run_job_stores_the_result_witness :
  let j := Server.Job Server.running Notions.url_123 [] "" (Some 0%Q) None in
  let q := Notions.fine_query
             ("Execute the full OAPE feature development workflow for this "
              +:+ "Enhancement Proposal: " +:+ Notions.url_123)
             (Agent.Options "team-repos.csv" ("/tmp/oape-" +:+ "0123456789ab")
                "bypassPermissions" [] ["plugins"]) in
  exists js' j',
    Server._run_job Notions.fine_query [] "plugins" "0123456789ab"
      (fun csv => csv) "team-repos.csv" "j1" Notions.url_123 Notions.one_job
    = (Py.Returned tt, js')
    /\ js' !! "j1" = Some j'
    /\ (Agent.ending q = None ->
        Forall Notions.well_costed (Agent.items q) ->
        js' = <["j1" :=
                  Server.Job Server.success (Server.ep_url j)
                    (Server.conversation j
                     ++ (Agent.items q ≫= Notions.entries_of))
                    (Py.join Py.nl (Agent.items q ≫= Notions.texts_of))
                    (foldl Notions.cost_after (Some 0%Q) (Agent.items q))
                    (Server.error j)]> Notions.one_job)
    /\ (~ (Agent.ending q = None
           /\ Forall Notions.well_costed (Agent.items q)) ->
        Server.status j' = Server.failed).
Proof.
  apply (run_job_stores_the_result Notions.fine_query [] "plugins"
           "0123456789ab" (fun csv => csv) "team-repos.csv" "j1"
           Notions.url_123 Notions.one_job).
  reflexivity.
Defined.

Section StreamReader.
Import Py Notions Server.

Lemma content_message (m : Agent.entry) (fs : list Server.frame) :
  content (Server.message_frame m :: fs) = Server.message_frame m :: content fs.
Proof. reflexivity. Qed.

Lemma content_keepalive (fs : list Server.frame) :
  content (Server.keepalive_frame :: fs) = content fs.
Proof. reflexivity. Qed.

Lemma content_messages (es : list Agent.entry) :
  content (Server.message_frame <$> es) = Server.message_frame <$> es.
Proof.
  induction es as [|e es IH]; [done|].
  rewrite fmap_cons, content_message. by rewrite IH.
Qed.

Lemma log_grows_weaken (job_id : string) (log log' : list Agent.entry)
      (views : list (gmap string Server.job * Server.wake)) :
  (exists more, log = log' ++ more) ->
  log_grows job_id log views -> log_grows job_id log' views.
Proof.
  intros [more ->]. destruct views as [|[js w] views]; [done|].
  cbn. intros (j & Hj & [more' Hc] & Hg). exists j. split; [done|].
  split; [|done]. exists (more ++ more'). by rewrite Hc, <- app_assoc.
Qed.

Lemma last_log_extends (job_id : string) (log : list Agent.entry)
      (views : list (gmap string Server.job * Server.wake)) :
  log_grows job_id log views ->
  exists more, last_log job_id log views = log ++ more.
Proof.
  revert log. induction views as [|[js w] views IH]; intros log.
  - exists []. cbn. by rewrite app_nil_r.
  - cbn. intros (j & Hj & [more Hc] & Hg). rewrite Hj. cbn.
    destruct (IH _ Hg) as [more' ->]. exists (more ++ more').
    by rewrite Hc, <- app_assoc.
Qed.

(** What a reader has received when the views are used up. *)
Lemma reader_received (job_id : string)
      (views : list (gmap string Server.job * Server.wake))
      (log : list Agent.entry) (cursor : nat) :
  log_grows job_id log views -> cursor <= length log ->
  match (event_generator job_id views cursor).2 with
  | Some cursor' =>
      cursor <= cursor' <= length (last_log job_id log views)
      /\ content (event_generator job_id views cursor).1
         = Server.message_frame
             <$> drop cursor (take cursor' (last_log job_id log views))
  | None =>
      exists js w j more,
        (js, w) ∈ views /\ js !! job_id = Some j
        /\ Server.conversation j = log ++ more
        /\ Server.status j <> Server.running
        /\ content (event_generator job_id views cursor).1
           = (Server.message_frame <$> drop cursor (Server.conversation j))
             ++ [Server.complete_frame (Server.status j) (Server.output j)
                   (Server.cost_usd j) (Server.error j)]
  end.
Proof.
  revert log cursor. induction views as [|[js w] views IH];
    intros log cursor Hg Hc.
  - cbn. split; [lia|]. by rewrite drop_ge by (rewrite length_take; lia).
  - cbn in Hg. destruct Hg as (j & Hj & [more Hlog] & Hg).
    cbn [event_generator last_log]. rewrite Hj. cbn [from_option].
    assert (Hlen : length log <= length (Server.conversation j))
      by (rewrite Hlog, length_app; lia).
    destruct (Server.conversation j !! cursor) as [m|] eqn:Hm.
    + pose proof (lookup_lt_Some _ _ _ Hm) as Hlt.
      specialize (IH (Server.conversation j) (S cursor) Hg ltac:(lia)).
      cbn [fst snd].
      destruct ((event_generator job_id views (S cursor)).2)
        as [cursor'|] eqn:He.
      * destruct IH as [Hle IH]. split; [lia|].
        rewrite content_message, IH.
        destruct (last_log_extends _ _ _ Hg) as [more' Hl].
        assert (Hm' : take cursor' (last_log job_id (Server.conversation j)
                                             views) !! cursor = Some m).
        { rewrite lookup_take_lt by lia. rewrite Hl.
          by apply lookup_app_l_Some. }
        by rewrite (drop_S _ _ _ Hm').
      * destruct IH as (js' & w' & j' & more' & Hin & Hj' & Hc' & Hst & IH).
        exists js', w', j', (more ++ more').
        split; [by right|]. split; [done|].
        split; [by rewrite Hc', Hlog, <- app_assoc|]. split; [done|].
        rewrite content_message, IH.
        assert (Hm' : Server.conversation j' !! cursor = Some m).
        { rewrite Hc'. by apply lookup_app_l_Some. }
        by rewrite (drop_S _ _ _ Hm').
    + apply lookup_ge_None in Hm.
      destruct (decide (Server.status j = Server.running)) as [Hr|Hr].
      * specialize (IH (Server.conversation j) cursor Hg ltac:(lia)).
        assert (Heq : (match w with
                       | Server.notified =>
                           event_generator job_id views cursor
                       | Server.timed_out =>
                           (Server.keepalive_frame
                              :: (event_generator job_id views cursor).1,
                            (event_generator job_id views cursor).2)
                       end).2 = (event_generator job_id views cursor).2
                      /\ content (match w with
                       | Server.notified =>
                           event_generator job_id views cursor
                       | Server.timed_out =>
                           (Server.keepalive_frame
                              :: (event_generator job_id views cursor).1,
                            (event_generator job_id views cursor).2)
                       end).1
                         = content (event_generator job_id views cursor).1)
          by (by destruct w).
        destruct Heq as [-> ->].
        destruct ((event_generator job_id views cursor).2)
          as [cursor'|] eqn:He.
        -- exact IH.
        -- destruct IH as (js' & w' & j' & more' & Hin & Hj' & Hc' & Hst & IH).
           exists js', w', j', (more ++ more').
           split; [by right|]. split; [done|].
           split; [by rewrite Hc', Hlog, <- app_assoc|]. done.
      * cbn [fst snd]. exists js, w, j, more.
        split; [by left|]. split; [done|]. split; [done|]. split; [done|].
        by rewrite drop_ge by lia.
Qed.

Lemma log_grows_app (job_id : string) (log : list Agent.entry)
      (vs vs' : list (gmap string Server.job * Server.wake)) :
  log_grows job_id log (vs ++ vs')
  <-> log_grows job_id log vs
      /\ log_grows job_id (last_log job_id log vs) vs'.
Proof.
  revert log. induction vs as [|[js w] vs IH]; intros log; cbn.
  - tauto.
  - split.
    + intros (j & Hj & Hc & Hg). apply IH in Hg as [Hg Hg'].
      rewrite Hj. cbn. split; [by exists j|done].
    + intros [(j & Hj & Hc & Hg) Hg']. rewrite Hj in Hg'. cbn in Hg'.
      exists j. split; [done|]. split; [done|]. apply IH. by split.
Qed.

Lemma log_grows_stable (job_id : string) (log : list Agent.entry)
      (js : gmap string Server.job) (w : Server.wake) (j : Server.job)
      (n : nat) :
  js !! job_id = Some j ->
  (exists more, Server.conversation j = log ++ more) ->
  log_grows job_id log (replicate n (js, w)).
Proof.
  intros Hj. revert log. induction n as [|n IH]; intros log Hc; [done|].
  cbn. exists j. split; [done|]. split; [done|]. apply IH.
  exists []. by rewrite app_nil_r.
Qed.

(** Once the store no longer changes and the job is not running, the
    reader returns after the entries left and the complete frame. *)
Lemma reader_returns_stable (job_id : string) (js : gmap string Server.job)
      (w : Server.wake) (j : Server.job) (n cursor : nat) :
  js !! job_id = Some j -> Server.status j <> Server.running ->
  length (Server.conversation j) - cursor < n ->
  (event_generator job_id (replicate n (js, w)) cursor).2 = None.
Proof.
  intros Hj Hst. revert cursor. induction n as [|n IH]; intros cursor Hn;
    [lia|].
  cbn [replicate event_generator]. rewrite Hj.
  destruct (Server.conversation j !! cursor) as [m|] eqn:Hm.
  - cbn. apply IH. apply lookup_lt_Some in Hm. lia.
  - by destruct (decide (Server.status j = Server.running)).
Qed.

Lemma reader_returns (job_id : string)
      (vs : list (gmap string Server.job * Server.wake))
      (log : list Agent.entry) (js : gmap string Server.job)
      (w : Server.wake) (j : Server.job) (n cursor : nat) :
  log_grows job_id log (vs ++ [(js, w)]) ->
  js !! job_id = Some j -> Server.status j <> Server.running ->
  cursor <= length log ->
  length (Server.conversation j) - cursor < n ->
  (event_generator job_id (vs ++ replicate n (js, w)) cursor).2 = None.
Proof.
  intros Hg Hj Hst. revert log cursor Hg.
  induction vs as [|[js1 w1] vs IH]; intros log cursor Hg Hc Hn.
  - by apply (reader_returns_stable job_id js w j).
  - cbn in Hg. destruct Hg as (j1 & Hj1 & [more Hlog] & Hg).
    cbn [app event_generator]. rewrite Hj1.
    assert (Hlen : length log <= length (Server.conversation j1))
      by (rewrite Hlog, length_app; lia).
    destruct (Server.conversation j1 !! cursor) as [m|] eqn:Hm.
    + cbn. apply lookup_lt_Some in Hm.
      apply (IH (Server.conversation j1)); [done|lia|lia].
    + destruct (decide (Server.status j1 = Server.running)); [|done].
      assert (Hw : forall r : list Server.frame * option nat,
                 (match w1 with
                  | Server.notified => r
                  | Server.timed_out => (Server.keepalive_frame :: r.1, r.2)
                  end).2 = r.2) by (by destruct w1).
      rewrite Hw. apply (IH (Server.conversation j1)); [done|lia|lia].
Qed.

(** X. A reader of the event stream never skips or repeats an entry.
    Along any sequence of stores in which the job's log only grows, and
    whatever the wake-ups, the frames yielded from cursor [cursor] on are,
    keep-alives apart: while the reader is still going, the entries of the
    log from [cursor] up to the reader's present cursor, one message frame
    each, in log order; and once the reader has returned, every entry from
    [cursor] on of the log at the time it returned, followed by one
    complete frame with the status, output, cost and error of the job at
    that time, which is then not running. *)
Theorem stream_reader_never_skips_or_repeats
        (job_id : string)
        (views : list (gmap string Server.job * Server.wake))
        (log : list Agent.entry) (cursor : nat) :
  log_grows job_id log views -> cursor <= length log ->
  match (event_generator job_id views cursor).2 with
  | Some cursor' =>
      cursor <= cursor' <= length (last_log job_id log views)
      /\ content (event_generator job_id views cursor).1
         = Server.message_frame
             <$> drop cursor (take cursor' (last_log job_id log views))
  | None =>
      exists js w j more,
        (js, w) ∈ views /\ js !! job_id = Some j
        /\ Server.conversation j = log ++ more
        /\ Server.status j <> Server.running
        /\ content (event_generator job_id views cursor).1
           = (Server.message_frame <$> drop cursor (Server.conversation j))
             ++ [Server.complete_frame (Server.status j) (Server.output j)
                   (Server.cost_usd j) (Server.error j)]
  end.
Proof. apply reader_received. Qed.

(** X. A reader of the event stream receives the whole log and then the
    outcome.  Let the job be running while its log grows (the stores
    [vs]), and then be left in a final state [j] that is not running.  A
    reader that started at [cursor] and is resumed often enough returns,
    and what it has yielded by then is, keep-alives apart, one message
    frame for each entry of the final log from [cursor] on, in order,
    followed by the complete frame of [j]. *)
Theorem stream_reader_ends_with_the_outcome
        (job_id : string)
        (vs : list (gmap string Server.job * Server.wake))
        (log : list Agent.entry) (js : gmap string Server.job)
        (w : Server.wake) (j : Server.job) (n cursor : nat) :
  log_grows job_id log (vs ++ [(js, w)]) ->
  Forall (fun v => forall j', v.1 !! job_id = Some j' ->
                              Server.status j' = Server.running) vs ->
  js !! job_id = Some j -> Server.status j <> Server.running ->
  cursor <= length log ->
  length (Server.conversation j) - cursor < n ->
  (event_generator job_id (vs ++ replicate n (js, w)) cursor).2 = None
  /\ content (event_generator job_id (vs ++ replicate n (js, w)) cursor).1
     = (Server.message_frame <$> drop cursor (Server.conversation j))
       ++ [Server.complete_frame (Server.status j) (Server.output j)
             (Server.cost_usd j) (Server.error j)].
Proof.
  intros Hg Hrun Hj Hst Hc Hn.
  pose proof (reader_returns job_id vs log js w j n cursor Hg Hj Hst Hc Hn)
    as Hret.
  split; [exact Hret|].
  assert (Hg' : log_grows job_id log (vs ++ replicate n (js, w))).
  { apply log_grows_app in Hg as [Hg1 Hg2]. apply log_grows_app.
    split; [done|]. cbn in Hg2. destruct Hg2 as (j0 & Hj0 & Hc0 & _).
    rewrite Hj in Hj0. injection Hj0 as <-.
    by apply (log_grows_stable job_id _ js w j). }
  pose proof (reader_received job_id _ log cursor Hg' Hc) as Hrec.
  rewrite Hret in Hrec.
  destruct Hrec as (js' & w' & j' & more & Hin & Hj' & Hc' & Hst' & Hrec).
  apply elem_of_app in Hin as [Hin|Hin].
  - exfalso. apply Hst'.
    apply (proj1 (Forall_forall _ _) Hrun _ Hin). exact Hj'.
  - apply elem_of_replicate in Hin as [[= -> ->] _].
    rewrite Hj in Hj'. by injection Hj' as <-.
Qed.

End StreamReader.

Lemma stream_reader_never_skips_or_repeats_witness :
  match (Server.event_generator "j1" Notions.running_views 0).2 with
  | Some cursor' =>
      0 <= cursor' <= length (Notions.last_log "j1" [] Notions.running_views)
      /\ Notions.content (Server.event_generator "j1" Notions.running_views 0).1
         = Server.message_frame
             <$> drop 0 (take cursor' (Notions.last_log "j1" [] Notions.running_views))
  | None =>
      exists js w j more,
        (js, w) ∈ Notions.running_views /\ js !! "j1" = Some j
        /\ Server.conversation j = [] ++ more
        /\ Server.status j <> Server.running
        /\ Notions.content (Server.event_generator "j1" Notions.running_views 0).1
           = (Server.message_frame <$> drop 0 (Server.conversation j))
             ++ [Server.complete_frame (Server.status j) (Server.output j)
                   (Server.cost_usd j) (Server.error j)]
  end.
Proof.
  apply (stream_reader_never_skips_or_repeats "j1" Notions.running_views [] 0).
  - cbn. repeat (eexists; split; [reflexivity|]; split; [by eexists|]). done.
  - cbn. lia.
Defined.

Lemma stream_reader_ends_with_the_outcome_witness :
  let j := Server.Job Server.success Notions.url_123 Notions.three_events ""
                      (Some 0%Q) None in
  (Server.event_generator "j1"
     (Notions.running_views
      ++ replicate 4 (Notions.finished_store, Server.timed_out)) 0).2 = None
  /\ Notions.content
       (Server.event_generator "j1"
          (Notions.running_views
           ++ replicate 4 (Notions.finished_store, Server.timed_out)) 0).1
     = (Server.message_frame <$> drop 0 (Server.conversation j))
       ++ [Server.complete_frame (Server.status j) (Server.output j)
             (Server.cost_usd j) (Server.error j)].
Proof.
  apply (stream_reader_ends_with_the_outcome "j1" Notions.running_views []
           Notions.finished_store Server.timed_out
           (Server.Job Server.success Notions.url_123 Notions.three_events
                       "" (Some 0%Q) None) 4 0).
  - cbn. repeat (eexists; split; [reflexivity|]; split; [by eexists|]). done.
  - repeat constructor; cbn; intros j' [= <-]; reflexivity.
  - reflexivity.
  - discriminate.
  - cbn. lia.
  - cbn. lia.
Defined.

Section WatchEdges.
Import Py Re Aio Workflow Notions.
Variable E : env.

(** Printing changes the output only. *)
Lemma print_lines_keep (d : PyDict.dict) (w : world) :
  let w' := foldl (fun w '(label, url) =>
                     print ("  " +:+ label +:+ ": " +:+ url) w) w d in
  gh_calls w' = gh_calls w /\ sleeps w' = sleeps w /\ now w' = now w
  /\ state w' = state w.
Proof.
  revert w. induction d as [|[label url] d IH]; intros w; [done|].
  cbn [foldl]. destruct (IH (print ("  " +:+ label +:+ ": " +:+ url) w))
    as (-> & -> & -> & ->). done.
Qed.

Lemma print_section_keeps (title : string) (d : PyDict.dict) (w : world) :
  wp (Phase3.print_section title d) w
     (fun w' _ => gh_calls w' = gh_calls w /\ sleeps w' = sleeps w
                  /\ now w' = now w /\ state w' = state w).
Proof.
  unfold Phase3.print_section. destruct (negb _); [|by apply wp_ret].
  apply wp_bind, wp_modify. apply wp_modify.
  apply (print_lines_keep d (print title w)).
Qed.

(** The final report queries no provider and does not sleep. *)
Lemma final_report_keeps (s : WorkflowState) (wait : Z) (t : Phase3.tables)
      (w : world) :
  wp (Phase3.final_report E s wait t) w
     (fun w' _ => gh_calls w' = gh_calls w /\ sleeps w' = sleeps w).
Proof.
  unfold Phase3.final_report.
  do 3 apply wp_bind, wp_modify.
  apply wp_bind. eapply wp_mono; [apply print_section_keeps|].
  cbn beta. intros w1 _ (Hg1 & Hs1 & _).
  apply wp_bind. eapply wp_mono; [apply print_section_keeps|].
  cbn beta. intros w2 _ (Hg2 & Hs2 & _).
  apply wp_bind. eapply wp_mono; [apply print_section_keeps|].
  cbn beta. intros w3 _ (Hg3 & Hs3 & _).
  apply wp_bind. unfold write_state_summary.
  apply wp_bind, wp_modify. apply wp_ret. apply wp_modify.
  cbn. rewrite Hg3, Hg2, Hg1, Hs3, Hs2, Hs1. done.
Qed.

(** [run] from the start of the loop on. *)
Lemma run_watch (max_wait_mins poll_secs : option Z) (fuel : nat) (w : world)
      (P : world -> Phase3.run_result -> Prop) :
  pr_urls (state w) <> [] ->
  (forall w0, gh_calls w0 = gh_calls w -> sleeps w0 = sleeps w ->
              now w0 = now w -> state w0 = state w ->
     wp (Phase3.watch E fuel (now w)
           (Phase3.effective_wait max_wait_mins)
           (Phase3.effective_interval poll_secs)
           (Phase3.Tables (pr_urls (state w)) [] [])) w0
        (fun w1 r =>
           match r with
           | Some t =>
               forall w2, gh_calls w2 = gh_calls w1 ->
                          sleeps w2 = sleeps w1 ->
                          P w2 (Phase3.reported t)
           | None => P w1 Phase3.out_of_fuel
           end)) ->
  wp (Phase3.run E max_wait_mins poll_secs fuel) w P.
Proof.
  intros Hne Hwatch. unfold Phase3.run, get_state.
  apply wp_bind. apply wp_bind, wp_get. apply wp_ret.
  destruct (Phase3.is_empty (pr_urls (state w))) eqn:Hempty.
  { by apply is_empty_keys in Hempty. }
  do 4 apply wp_bind, wp_modify. apply wp_bind, wp_get.
  apply wp_bind.
  match goal with
  | |- wp _ (foldl ?f ?wb ?d) _ =>
      pose proof (print_lines_keep d wb) as H0; cbv zeta in H0;
      destruct H0 as (Hg & Hs & Hn & Hst);
      rewrite Hn; eapply wp_mono;
      [apply (Hwatch (foldl f wb d) Hg Hs Hn Hst)|]
  end.
  cbn beta. intros w1 [t|] Hpost.
  - apply wp_bind. eapply wp_mono; [apply final_report_keeps|].
    cbn beta. intros w2 _ [Hg2 Hs2]. apply wp_ret. by apply Hpost.
  - by apply wp_ret.
Qed.

(** X. With a negative maximum wait the watcher does not poll at all.
    Whatever PRs were captured, it queries no provider and does not sleep,
    and its report lists every captured PR as timed out. *)
Theorem negative_wait_polls_nothing
        (m : Z) (poll_secs : option Z) (fuel : nat) (w : world) :
  (m < 0)%Z -> pr_urls (state w) <> [] ->
  exists w',
    run_alone (Phase3.run E (Some m) poll_secs fuel) w =
      (w', Returned (Phase3.reported
                       (Phase3.Tables (pr_urls (state w)) [] [])))
    /\ gh_calls w' = gh_calls w
    /\ sleeps w' = sleeps w.
Proof.
  intros Hm Hne.
  assert (Hwp : wp (Phase3.run E (Some m) poll_secs fuel) w
                   (fun w' r =>
                      r = Phase3.reported
                            (Phase3.Tables (pr_urls (state w)) [] [])
                      /\ gh_calls w' = gh_calls w /\ sleeps w' = sleeps w)).
  { apply run_watch; [done|]. intros w0 Hg Hs Hn Hst.
    assert (Hw : Phase3.effective_wait (Some m) = m).
    { unfold Phase3.effective_wait, or_default.
      destruct (m =? 0)%Z eqn:H0; [|done]. apply Z.eqb_eq in H0. lia. }
    rewrite Hw.
    assert (Hcond : (now w0 - now w <? m * 60)%Z = false)
      by (apply Z.ltb_ge; lia).
    destruct fuel; cbn [Phase3.watch]; apply wp_bind, wp_get;
      rewrite Hcond, andb_false_r; apply wp_ret;
      intros w2 Hg2 Hs2; by rewrite Hg2, Hs2. }
  destruct (wp_run _ _ _ Hwp) as (w' & r & Hrun & -> & Hg & Hs).
  by exists w'.
Qed.

Lemma setitem_fresh (k v : string) (d : PyDict.dict) :
  k ∉ PyDict.keys d -> PyDict.setitem k v d = d ++ [(k, v)].
Proof.
  unfold PyDict.keys. induction d as [|[k' v'] d IH]; intros Hk; cbn;
    [done|].
  cbn in Hk. apply not_elem_of_cons in Hk as [Hne Hk].
  destruct (decide (k = k')); [done|]. by rewrite IH.
Qed.

Lemma delitem_head (k v : string) (d : PyDict.dict) :
  PyDict.delitem k ((k, v) :: d) = d.
Proof. cbn. by destruct (decide (k = k)). Qed.

Lemma keys_with_verdict (v : string -> Phase3.verdict) (x : Phase3.verdict)
      (d : PyDict.dict) (k : string) :
  k ∈ PyDict.keys (with_verdict v x d) -> k ∈ PyDict.keys d.
Proof.
  unfold PyDict.keys, with_verdict. rewrite !list_elem_of_fmap.
  intros ([k' u] & -> & Hin). apply list_elem_of_filter in Hin as [_ Hin].
  by exists (k', u).
Qed.

Lemma with_verdict_cons (v : string -> Phase3.verdict) (x : Phase3.verdict)
      (label url : string) (d : PyDict.dict) :
  with_verdict v x ((label, url) :: d) =
    if verdict_is (v url) x then (label, url) :: with_verdict v x d
    else with_verdict v x d.
Proof.
  unfold with_verdict. rewrite filter_cons. cbn [snd].
  destruct (verdict_is (v url) x); by destruct (decide _).
Qed.

(** One pass over references that all get a final verdict: each goes to
    the passed or to the closed dict, in turn, and none stays. *)
Lemma poll_all_settles (v : string -> Phase3.verdict) (start : Z)
      (snapshot pa fa : PyDict.dict) (w : world) :
  NoDup (PyDict.keys snapshot) ->
  (forall k, k ∈ PyDict.keys snapshot ->
             (k ∉ PyDict.keys pa) /\ (k ∉ PyDict.keys fa)) ->
  settled E v snapshot ->
  (forall label url, (label, url) ∈ snapshot -> v url <> Phase3.stay_pending) ->
  wp (Phase3.poll_all E start snapshot (Phase3.Tables snapshot pa fa)) w
     (fun w' t' =>
        t' = Phase3.Tables [] (pa ++ with_verdict v Phase3.to_passed snapshot)
                           (fa ++ with_verdict v Phase3.to_closed snapshot)
        /\ sleeps w' = sleeps w
        /\ length (gh_calls w') <= length (gh_calls w) + length snapshot).
Proof.
  revert pa fa w. induction snapshot as [|[label url] snapshot IH];
    intros pa fa w Hnd Hfresh Hset Hfin.
  - cbn. apply wp_ret. unfold with_verdict. cbn. rewrite !app_nil_r.
    split; [done|]. split; [done|lia].
  - cbn [Phase3.poll_all]. apply wp_bind.
    destruct (poll_one_run E start (Phase3.Tables ((label, url) :: snapshot)
                                                  pa fa) label url w)
      as [line Hrun].
    eapply run_wp; [exact Hrun|].
    apply NoDup_cons in Hnd as [Hnew Hnd].
    destruct (Hfresh label ltac:(apply list_elem_of_here)) as [Hpa Hfa].
    rewrite (Hset w label url ltac:(apply list_elem_of_here)).
    pose proof (Hfin label url ltac:(apply list_elem_of_here)) as Hv.
    assert (Hset' : settled E v snapshot).
    { intros w0 l u Hin. apply (Hset w0 l u). by apply list_elem_of_further. }
    assert (Hfin' : forall l u, (l, u) ∈ snapshot ->
                                v u <> Phase3.stay_pending).
    { intros l u Hin. apply (Hfin l u). by apply list_elem_of_further. }
    assert (Hworld : sleeps (print line (after_check E w url)) = sleeps w
                     /\ length (gh_calls (print line (after_check E w url)))
                        <= S (length (gh_calls w))).
    { cbn. split; [apply after_check_files|].
      unfold after_check.
      destruct (re_match Phase3.PR_PATTERN url)
        as [[g0 [|repo [|num [|x l]]]]|]; cbn; rewrite ?length_app; cbn; lia. }
    destruct Hworld as [Hs Hg].
    unfold moved. destruct (v url) eqn:Hvu; [| |done];
      cbn [Phase3.remaining Phase3.passed Phase3.failed];
      rewrite delitem_head.
    + rewrite (setitem_fresh _ _ _ Hpa).
      eapply wp_mono; [apply IH; try done|].
      * intros k Hk. destruct (Hfresh k ltac:(by apply list_elem_of_further))
          as [Hk1 Hk2].
        split; [|done]. unfold PyDict.keys. rewrite fmap_app.
        rewrite elem_of_app. intros [?|Hin]; [done|].
        cbn in Hin. apply list_elem_of_singleton in Hin as ->. done.
      * cbn beta. intros w' t' (-> & Hs' & Hg').
        rewrite !with_verdict_cons, Hvu. cbn [verdict_is].
        rewrite <- ?app_assoc. cbn [app].
        split; [done|]. split; [by rewrite Hs'|]. cbn in *. lia.
    + rewrite (setitem_fresh _ _ _ Hfa).
      eapply wp_mono; [apply IH; try done|].
      * intros k Hk. destruct (Hfresh k ltac:(by apply list_elem_of_further))
          as [Hk1 Hk2].
        split; [done|]. unfold PyDict.keys. rewrite fmap_app.
        rewrite elem_of_app. intros [?|Hin]; [done|].
        cbn in Hin. apply list_elem_of_singleton in Hin as ->. done.
      * cbn beta. intros w' t' (-> & Hs' & Hg').
        rewrite !with_verdict_cons, Hvu. cbn [verdict_is].
        rewrite <- ?app_assoc. cbn [app].
        split; [done|]. split; [by rewrite Hs'|]. cbn in *. lia.
Qed.

(** X. References whose verdict is final at the first poll need one pass.
    When each captured PR, whenever it is polled, has passing checks or is
    closed, the watcher started with a positive wait makes one pass over
    the PRs and does not sleep; it reports the PRs with passing checks as
    passed and the others as closed, each group in the order of capture,
    and none as timed out. *)
Theorem settled_prs_need_one_pass
        (v : string -> Phase3.verdict)
        (max_wait_mins poll_secs : option Z) (fuel : nat) (w : world) :
  pr_urls (state w) <> [] ->
  PyDict.wf (pr_urls (state w)) ->
  settled E v (pr_urls (state w)) ->
  (forall label url, (label, url) ∈ pr_urls (state w) ->
                     v url <> Phase3.stay_pending) ->
  (0 < Phase3.effective_wait max_wait_mins)%Z ->
  exists w',
    run_alone (Phase3.run E max_wait_mins poll_secs (S fuel)) w =
      (w', Returned
             (Phase3.reported
                (Phase3.Tables []
                   (with_verdict v Phase3.to_passed (pr_urls (state w)))
                   (with_verdict v Phase3.to_closed (pr_urls (state w))))))
    /\ sleeps w' = sleeps w
    /\ length (gh_calls w')
       <= length (gh_calls w) + length (pr_urls (state w)).
Proof.
  intros Hne Hwf Hset Hfin Hwait.
  assert (Hwp : wp (Phase3.run E max_wait_mins poll_secs (S fuel)) w
                   (fun w' r =>
                      r = Phase3.reported
                            (Phase3.Tables []
                               (with_verdict v Phase3.to_passed
                                             (pr_urls (state w)))
                               (with_verdict v Phase3.to_closed
                                             (pr_urls (state w))))
                      /\ sleeps w' = sleeps w
                      /\ length (gh_calls w')
                         <= length (gh_calls w)
                            + length (pr_urls (state w)))).
  { apply run_watch; [done|]. intros w0 Hg Hs Hn Hst.
    cbn [Phase3.watch]. apply wp_bind, wp_get.
    assert (Hcond : negb (Phase3.is_empty (pr_urls (state w)))
                    && (now w0 - now w <? Phase3.effective_wait max_wait_mins
                                          * 60)%Z = true).
    { apply andb_true_iff. split.
      - destruct (pr_urls (state w)); [done|reflexivity].
      - apply Z.ltb_lt. lia. }
    cbn [Phase3.remaining]. rewrite Hcond.
    apply wp_bind. eapply wp_mono.
    { apply (poll_all_settles v (now w) (pr_urls (state w)) [] [] w0);
        [exact Hwf| |exact Hset|exact Hfin].
      intros k _. split; apply not_elem_of_nil. }
    cbn beta. intros w1 t1 (-> & Hs1 & Hg1). cbn [Phase3.remaining app].
    cbn [Phase3.is_empty negb]. apply wp_bind, wp_ret.
    eapply run_wp; [by apply watch_done|].
    intros w2 Hg2 Hs2. split; [done|].
    rewrite Hg2, Hs2, Hs1, Hs. rewrite Hg in Hg1. split; [done|]. exact Hg1. }
  destruct (wp_run _ _ _ Hwp) as (w' & r & Hrun & -> & Hs & Hg).
  by exists w'.
Qed.

Lemma wp_and {A} (c : task A) (w : world) (P Q : world -> A -> Prop) :
  wp c w P -> wp c w Q -> wp c w (fun w' a => P w' a /\ Q w' a).
Proof. unfold wp. by destruct (run_alone c w) as [w' [a|e]]. Qed.

Lemma elem_of_delitem_other (k k' v : string) (d : PyDict.dict) :
  k <> k' -> (k, v) ∈ d -> (k, v) ∈ PyDict.delitem k' d.
Proof.
  intros Hne. induction d as [|[k0 v0] d IH]; cbn; [done|].
  intros Hin. destruct (decide (k' = k0)) as [->|Hk].
  - apply elem_of_cons in Hin as [[= ? ?]|Hin]; [done|exact Hin].
  - apply elem_of_cons in Hin as [Hin|Hin].
    + rewrite Hin. apply list_elem_of_here.
    + apply list_elem_of_further. by apply IH.
Qed.

Lemma keys_functional (d : PyDict.dict) (k v1 v2 : string) :
  NoDup (PyDict.keys d) -> (k, v1) ∈ d -> (k, v2) ∈ d -> v1 = v2.
Proof.
  unfold PyDict.keys. induction d as [|[k0 v0] d IH]; intros Hnd H1 H2.
  - by apply elem_of_nil in H1.
  - cbn in Hnd. apply NoDup_cons in Hnd as [Hnew Hnd].
    assert (Hkey : forall v, (k0, v) ∈ d -> False).
    { intros v Hv. apply Hnew. apply list_elem_of_fmap. by exists (k0, v). }
    apply elem_of_cons in H1 as [H1|H1];
      apply elem_of_cons in H2 as [H2|H2].
    + congruence.
    + injection H1 as -> ->. by destruct (Hkey v2).
    + injection H2 as -> ->. by destruct (Hkey v1).
    + by apply IH.
Qed.

(** A reference that every poll leaves pending stays in the pending dict
    through a pass. *)
Lemma poll_all_keeps_stuck (label url : string) (start : Z)
      (whole snapshot : list (string * string)) (t : Phase3.tables)
      (w : world) :
  (forall w', Phase3.classify (status_at E w' url) = Phase3.stay_pending) ->
  NoDup (PyDict.keys whole) -> (label, url) ∈ whole ->
  (forall lu, lu ∈ snapshot -> lu ∈ whole) ->
  (label, url) ∈ Phase3.remaining t ->
  wp (Phase3.poll_all E start snapshot t) w
     (fun _ t' => (label, url) ∈ Phase3.remaining t').
Proof.
  intros Hstuck Hnd Hin. revert t w.
  induction snapshot as [|[l u] snapshot IH]; intros t w Hsub Hrem.
  - by apply wp_ret.
  - cbn [Phase3.poll_all]. apply wp_bind.
    destruct (poll_one_run E start t l u w) as [line Hrun].
    eapply run_wp; [exact Hrun|]. apply IH.
    + intros lu Hlu. apply Hsub. by apply list_elem_of_further.
    + destruct (decide (l = label)) as [->|Hne].
      * assert (u = url) as ->.
        { apply (keys_functional whole label); [exact Hnd| |exact Hin].
          apply Hsub. apply list_elem_of_here. }
        by rewrite Hstuck.
      * destruct (Phase3.classify _); cbn; [| |done];
          by apply elem_of_delitem_other.
Qed.

Lemma watch_keeps_stuck (urls : PyDict.dict) (label url : string)
      (start wait interval : Z) (fuel : nat) (t : Phase3.tables)
      (w : world) :
  (forall w', Phase3.classify (status_at E w' url) = Phase3.stay_pending) ->
  partition_of urls t ->
  (label, url) ∈ Phase3.remaining t ->
  wp (Phase3.watch E fuel start wait interval t) w
     (fun _ r => match r with
                 | Some t' => (label, url) ∈ Phase3.remaining t'
                 | None => True
                 end).
Proof.
  intros Hstuck. revert t w. induction fuel as [|fuel IH];
    intros t w Hpart Hrem.
  - cbn [Phase3.watch]. apply wp_bind, wp_get.
    destruct (negb _ && _); by apply wp_ret.
  - cbn [Phase3.watch]. apply wp_bind, wp_get.
    destruct (negb _ && _); [|by apply wp_ret].
    apply wp_bind. eapply wp_mono.
    { apply wp_and.
      - apply (poll_all_partition E urls start _ t w Hpart).
        + by apply (partition_remaining_NoDup urls).
        + auto.
      - apply (poll_all_keeps_stuck label url start (Phase3.remaining t));
          [exact Hstuck|by apply (partition_remaining_NoDup urls)
          |exact Hrem|auto|exact Hrem]. }
    cbn beta. intros w1 t1 [[Hpart1 _] Hrem1].
    destruct (Phase3.is_empty (Phase3.remaining t1)) eqn:Hempty; cbn [negb].
    + apply wp_bind, wp_ret.
      eapply run_wp; [by apply watch_done|]. exact Hrem1.
    + apply wp_bind. unfold Phase3.sleep.
      apply wp_bind, wp_suspend. apply wp_modify. by apply IH.
Qed.

(** What [_check_pr_status] gives for a link it cannot parse, or when the
    provider gives no answer, leaves the reference pending. *)
Lemma no_answer_is_pending (url : string) (w : world) :
  re_match Phase3.PR_PATTERN url = None
  \/ (forall n repo num data, gh E n repo num <> gh_json data) ->
  Phase3.classify (status_at E w url) = Phase3.stay_pending.
Proof.
  intros [Hm|Hgh]; unfold status_at.
  - by rewrite Hm.
  - destruct (re_match Phase3.PR_PATTERN url)
      as [[g0 [|repo [|num [|x l]]]]|]; try reflexivity.
    destruct (gh E _ repo num) as [|e|data] eqn:Hg; try reflexivity.
    by destruct (Hgh _ _ _ _ Hg).
Qed.

(** X. A PR that cannot be checked is reported as timed out, never as
    passed or closed.  For a captured PR whose link [_check_pr_status]
    cannot parse, and for every captured PR when the provider never gives
    an answer (each call fails or raises), the watcher returns, and when it
    has made its report the PR is in the list of those still pending and in
    neither of the other two.  The report is reached whenever the poll
    interval is positive and provider calls take no negative time (with
    [wait * 60] passes allowed). *)
Theorem unchecked_pr_is_reported_timed_out
        (label url : string) (max_wait_mins poll_secs : option Z)
        (fuel : nat) (w : world) :
  (label, url) ∈ pr_urls (state w) ->
  PyDict.wf (pr_urls (state w)) ->
  re_match Phase3.PR_PATTERN url = None
  \/ (forall n repo num data, gh E n repo num <> gh_json data) ->
  exists w' r,
    run_alone (Phase3.run E max_wait_mins poll_secs fuel) w = (w', Returned r)
    /\ (forall t, r = Phase3.reported t ->
          (label, url) ∈ Phase3.remaining t
          /\ (label ∉ PyDict.keys (Phase3.passed t))
          /\ (label ∉ PyDict.keys (Phase3.failed t)))
    /\ ((0 < Phase3.effective_interval poll_secs)%Z ->
        (forall n, 0 <= gh_secs E n)%Z ->
        Z.to_nat (Phase3.effective_wait max_wait_mins * 60) <= fuel ->
        exists t, r = Phase3.reported t).
Proof.
  intros Hin Hwf Hcause.
  assert (Hne : pr_urls (state w) <> []).
  { intros Hnil. rewrite Hnil in Hin. by apply elem_of_nil in Hin. }
  assert (Hstuck : forall w', Phase3.classify (status_at E w' url)
                              = Phase3.stay_pending)
    by (intros w'; by apply no_answer_is_pending).
  assert (Hwp : wp (Phase3.run E max_wait_mins poll_secs fuel) w
                   (fun _ r => match r with
                               | Phase3.reported t =>
                                   (label, url) ∈ Phase3.remaining t
                               | _ => True
                               end)).
  { apply run_watch; [done|]. intros w0 _ _ _ _.
    eapply wp_mono.
    - apply (watch_keeps_stuck (pr_urls (state w)) label url);
        [exact Hstuck| |exact Hin].
      split; cbn; [exact Hwf|reflexivity].
    - cbn beta. by intros w1 [t|] H. }
  pose proof (wp_and _ _ _ _ Hwp
                (run_spec E max_wait_mins poll_secs fuel w Hne Hwf)) as Hboth.
  destruct (wp_run _ _ _ Hboth) as (w' & r & Hrun & Hrem & Hspec).
  exists w', r. split; [exact Hrun|]. split.
  - intros t ->. split; [exact Hrem|].
    destruct (partition_disjoint_cover _ _ Hspec) as (_ & HP & HF & _).
    assert (Hk : label ∈ PyDict.keys (Phase3.remaining t)).
    { unfold PyDict.keys. apply list_elem_of_fmap. by exists (label, url). }
    split; intros Hbad; [by apply (HP label Hbad)|by apply (HF label Hbad)].
  - intros Hint Hsecs Hfuel. destruct r as [|t|].
    + done.
    + by exists t.
    + assert (1 <= Phase3.effective_interval poll_secs)%Z as H1 by lia.
      specialize (Hspec H1 Hsecs). lia.
Qed.

End WatchEdges.

Lemma negative_wait_polls_nothing_witness :
  exists w',
    Aio.run_alone
      (Phase3.run (Notions.env_with Notions.pending_answers) (Some (-1)%Z)
                  None 0)
      (Notions.initial_world Notions.one_pr)
    = (w', Py.Returned (Phase3.reported
                          (Phase3.Tables Notions.one_pr [] [])))
    /\ Workflow.gh_calls w' = []
    /\ Workflow.sleeps w' = [].
Proof.
  apply (negative_wait_polls_nothing
           (Notions.env_with Notions.pending_answers) (-1)%Z None 0
           (Notions.initial_world Notions.one_pr)).
  - lia.
  - discriminate.
Defined.

Lemma settled_prs_need_one_pass_witness :
  exists w',
    Aio.run_alone
      (Phase3.run (Notions.env_with Notions.mixed_answers) None None 1)
      (Notions.initial_world Notions.two_prs)
    = (w', Py.Returned
             (Phase3.reported
                (Phase3.Tables []
                   (Notions.with_verdict Notions.mixed_verdict Phase3.to_passed
                                     Notions.two_prs)
                   (Notions.with_verdict Notions.mixed_verdict Phase3.to_closed
                                     Notions.two_prs))))
    /\ Workflow.sleeps w' = []
    /\ length (Workflow.gh_calls w') <= 0 + 2.
Proof.
  apply (settled_prs_need_one_pass
           (Notions.env_with Notions.mixed_answers) Notions.mixed_verdict
           None None 0 (Notions.initial_world Notions.two_prs)).
  - discriminate.
  - apply (bool_decide_unpack _). vm_compute. exact I.
  - intros w label url Hin.
    apply elem_of_cons in Hin as [Heq|Hin];
      [injection Heq as -> ->; reflexivity|].
    apply elem_of_cons in Hin as [Heq|Hin];
      [injection Heq as -> ->; reflexivity|].
    by apply elem_of_nil in Hin.
  - intros label url Hin.
    apply elem_of_cons in Hin as [Heq|Hin];
      [injection Heq as -> ->; discriminate|].
    apply elem_of_cons in Hin as [Heq|Hin];
      [injection Heq as -> ->; discriminate|].
    by apply elem_of_nil in Hin.
  - reflexivity.
Defined.

Lemma unchecked_pr_is_reported_timed_out_witness :
  exists w' r,
    Aio.run_alone
      (Phase3.run (Notions.env_with Notions.pending_answers) (Some 1%Z)
                  None 60)
      (Notions.initial_world Notions.odd_pr)
    = (w', Py.Returned r)
    /\ (forall t, r = Phase3.reported t ->
          ("api-types", "see the PR page") ∈ Phase3.remaining t
          /\ ("api-types" ∉ PyDict.keys (Phase3.passed t))
          /\ ("api-types" ∉ PyDict.keys (Phase3.failed t)))
    /\ ((0 < Phase3.effective_interval None)%Z ->
        (forall n, 0 <= Workflow.gh_secs
                          (Notions.env_with Notions.pending_answers) n)%Z ->
        Z.to_nat (Phase3.effective_wait (Some 1%Z) * 60) <= 60 ->
        exists t, r = Phase3.reported t).
Proof.
  apply (unchecked_pr_is_reported_timed_out
           (Notions.env_with Notions.pending_answers)
           "api-types" "see the PR page" (Some 1%Z) None 60
           (Notions.initial_world Notions.odd_pr)).
  - apply list_elem_of_here.
  - apply (bool_decide_unpack _). vm_compute. exact I.
  - left. reflexivity.
Defined.
